(** * Orthographic sphere ray tracer: the intersection core and the scene generator

    A shallow embedding of [rt.original/rt/rt/rt.cpp] (sequential tracer) and of
    the scene generator of [rt.reworked/rt.cpp], with the properties of the
    quadratic solver, the ray-sphere intersector, the per-pixel resolver, the
    trace driver and the generator.

    C++ [float] is IEEE-754 binary32 with round-to-nearest-even; it is modelled
    by [spec_float] at precision 24 and maximal exponent 128, so every
    definition below computes. *)

From Stdlib Require Import ZArith Bool List Lia.
From Stdlib Require Import Floats.SpecFloat.
From stdpp Require Import base list.

Local Open Scope Z_scope.

(** ** Single-precision arithmetic *)

Module F32.

Definition prec : Z := 24.
Definition emax : Z := 128.

Definition float : Type := spec_float.

Definition add : float -> float -> float := SFadd prec emax.
Definition sub : float -> float -> float := SFsub prec emax.
Definition mul : float -> float -> float := SFmul prec emax.
Definition div : float -> float -> float := SFdiv prec emax.
Definition sqrt : float -> float := SFsqrt prec emax.
Definition neg : float -> float := SFopp.

(** [x < y]; false as soon as one side is NaN. *)
Definition ltb : float -> float -> bool := SFltb.
(** [x > y] is [y < x]. *)
Definition gtb (x y : float) : bool := SFltb y x.
Definition leb : float -> float -> bool := SFleb.
Definition eqb : float -> float -> bool := SFeqb.

(** Conversion of an integer ([int], [unsigned]) to [float], rounding to
    nearest. *)
Definition of_Z (z : Z) : float := binary_normalize prec emax z 0 false.

Definition valid (x : float) : bool := valid_binary prec emax x.

Definition is_nan (x : float) : bool :=
  match x with S754_nan => true | _ => false end.

(** The literals of the program. *)
Definition zero : float := S754_zero false.
Definition one : float := of_Z 1.
(** [0.5f] = 2^23 * 2^-24 *)
Definition half : float := S754_finite false 8388608 (-24).
(** [0.1f] = 13421773 * 2^-27, the binary32 number nearest to 1/10 *)
Definition tenth : float := S754_finite false 13421773 (-27).
(** [1.5f] = 12582912 * 2^-23 *)
Definition one_and_half : float := S754_finite false 12582912 (-23).

End F32.

Declare Scope f32_scope.
Delimit Scope f32_scope with f32.
Bind Scope f32_scope with F32.float.
Notation "x + y" := (F32.add x y) : f32_scope.
Notation "x - y" := (F32.sub x y) : f32_scope.
Notation "x * y" := (F32.mul x y) : f32_scope.
Notation "x / y" := (F32.div x y) : f32_scope.
Notation "- x" := (F32.neg x) : f32_scope.
Notation "x <? y" := (F32.ltb x y) : f32_scope.
Notation "x >? y" := (F32.gtb x y) : f32_scope.
Notation "x <=? y" := (F32.leb x y) : f32_scope.

Abbreviation float := F32.float.

(** ** Rounding, on integers *)

(** [binary_round_aux] shifts a mantissa to the right, keeping a round bit and
    a sticky bit, and rounds to nearest-even.  The definitions below express
    this on one integer, the code of the number: four times the mantissa plus
    two for the round bit plus one for the sticky bit. *)

(** The position of a number inside the interval of its mantissa, as a
    number: four times the mantissa plus the code of the location. *)
Definition loc_code (l : location) : Z :=
  match l with
  | loc_Exact => 0
  | loc_Inexact Lt => 1
  | loc_Inexact Eq => 2
  | loc_Inexact Gt => 3
  end.

Definition record_code (mrs : shr_record) : Z :=
  4 * shr_m mrs + (if shr_r mrs then 2 else 0) + (if shr_s mrs then 1 else 0).

(** One step of shifting right with a sticky bit. *)
Definition sh (K : Z) : Z := K / 2 + (if K mod 4 =? 1 then 1 else 0).

Definition rne (K : Z) : Z :=
  K / 4 + (if (K mod 4 =? 3) || ((K mod 4 =? 2) && Z.odd (K / 4)) then 1 else 0).

Definition shn (n : nat) (K : Z) : Z := Nat.iter n sh K.

Definition fexp32 (e : Z) : Z := Z.max (e - 24) (-149).

Definition shift_code (K e n : Z) : Z * Z :=
  if 0 <? n then (shn (Z.to_nat n) K, e + n) else (K, e).

(** The mantissa and the exponent [binary_round_aux] ends with, from the code
    of the number and its exponent. *)
Definition round_core (K e : Z) : Z * Z :=
  let n := fexp32 (Zdigits2 (K / 4) + e) - e in
  let '(K1, e1) := shift_code K e n in
  let m1 := rne K1 in
  let n2 := fexp32 (Zdigits2 m1 + e1) - e1 in
  let '(K2, e2) := shift_code (4 * m1) e1 n2 in
  (K2 / 4, e2).

Definition decode_float (sx : bool) (me : Z * Z) : spec_float :=
  match fst me with
  | Z0 => S754_zero sx
  | Zpos m => if snd me <=? 104 then S754_finite sx m (snd me) else S754_infinity sx
  | Zneg _ => S754_nan
  end.

Definition stage1 (K e : Z) : Z * Z :=
  let n := fexp32 (Zdigits2 (K / 4) + e) - e in
  let '(K1, e1) := shift_code K e n in
  (rne K1, e1).

Definition normalize (me : Z * Z) : Z * Z :=
  let '(m1, e1) := me in
  let n2 := fexp32 (Zdigits2 m1 + e1) - e1 in
  let '(K2, e2) := shift_code (4 * m1) e1 n2 in
  (K2 / 4, e2).

Definition pre_le (a b : Z * Z) : Prop :=
  (snd a = snd b /\ fst a <= fst b) \/ (snd a < snd b /\ 2 ^ 23 <= fst b).

Definition lex_le (a b : Z * Z) : Prop :=
  fst a = 0 \/
  (0 < fst a /\ 0 < fst b /\ (snd a < snd b \/ (snd a = snd b /\ fst a <= fst b))).

Definition has_sign (sx : bool) (x : spec_float) : Prop :=
  match x with
  | S754_zero s | S754_infinity s | S754_finite s _ _ => s = sx
  | S754_nan => False
  end.

Definition nonneg (s : spec_float) : Prop :=
  match s with
  | S754_zero _ => True
  | S754_infinity sg | S754_finite sg _ _ => sg = false
  | S754_nan => False
  end.

Definition mul_ready (u v : spec_float) : Prop :=
  match u, v with
  | S754_finite su _ _, S754_finite sv _ _ =>
      su = sv -> valid_binary 24 128 u = true /\ valid_binary 24 128 v = true
  | _, _ => True
  end.

(** What is known of a uniform value. *)
Definition unit_value (u : float) : Prop :=
  has_sign false u /\ (u <=? F32.one)%f32 = true /\ F32.valid u = true.

(** The smallest positive number of the format, [2^-149]. *)
Definition tiny : float := S754_finite false 1 (-149).

(** ** Data model *)

Record ray : Type := mk_ray {
  (* Origin *)
  ox : float; oy : float; oz : float;
  (* Direction *)
  dx : float; dy : float; dz : float;
  (* Intersection distance *)
  maxt : float
}.

Record sphere : Type := mk_sphere {
  (* Center *)
  cx : float; cy : float; cz : float;
  (* Radius *)
  radius : float;
  (* Sphere color *)
  r : float; g : float; b : float
}.

Definition set_maxt (ry : ray) (t : float) : ray :=
  mk_ray (ox ry) (oy ry) (oz ry) (dx ry) (dy ry) (dz ry) t.

(* Output image dimensions *)
Definition kImageWidth : Z := 2048.
Definition kImageHeight : Z := 2048.
(* Number of spheres to render *)
Definition kNumSpheres : Z := 512.

Definition LEFT : float := (- F32.of_Z 10)%f32.
Definition BOTTOM : float := (- F32.of_Z 10)%f32.
Definition WIDTH : float := F32.of_Z 20.
Definition HEIGHT : float := F32.of_Z 20.
Definition NEAR : float := (- F32.of_Z 10)%f32.
Definition FAR : float := F32.of_Z 10.

(** ** Quadratic solver *)

(** [bool solve_quadratic(float a, float b, float c, float& x1, float& x2)]:
    [None] is the return of [false] (the out-parameters are not written),
    [Some (x1, x2)] the return of [true] with both roots written. *)
Definition solve_quadratic (a b c : float) : option (float * float) :=
  let d := (b * b - F32.of_Z 4 * a * c)%f32 in
  if (d <? F32.zero)%f32 then None
  else
    let den := (F32.of_Z 1 / (F32.of_Z 2 * a))%f32 in
    let x1 := ((- b - F32.sqrt d) * den)%f32 in
    let x2 := ((- b + F32.sqrt d) * den)%f32 in
    Some (x1, x2).

(** ** Ray-sphere intersector *)

(** The three coefficients formed from the ray translated by the centre. *)
Definition translate (s : sphere) (ry : ray) : ray :=
  mk_ray (ox ry - cx s)%f32 (oy ry - cy s)%f32 (oz ry - cz s)%f32
         (dx ry) (dy ry) (dz ry) (maxt ry).

Definition quad_a (rtemp : ray) : float :=
  (dx rtemp * dx rtemp + dy rtemp * dy rtemp + dz rtemp * dz rtemp)%f32.

Definition quad_b (rtemp : ray) : float :=
  (F32.of_Z 2 * (ox rtemp * dx rtemp + oy rtemp * dy rtemp + oz rtemp * dz rtemp))%f32.

Definition quad_c (s : sphere) (rtemp : ray) : float :=
  (ox rtemp * ox rtemp + oy rtemp * oy rtemp + oz rtemp * oz rtemp
   - radius s * radius s)%f32.

(** [bool intersect_sphere(sphere const& sphere, ray& r)]: the returned pair is
    the boolean result and the ray [r] as the call leaves it. *)
Definition intersect_sphere (s : sphere) (ry : ray) : bool * ray :=
  let rtemp := translate s ry in
  let a := quad_a rtemp in
  let b := quad_b rtemp in
  let c := quad_c s rtemp in
  match solve_quadratic a b c with
  | Some (t0, t1) =>
      if ((t0 >? maxt ry) || (t1 <? F32.zero))%f32 then (false, ry)
      else (true, set_maxt ry (if (t0 >? F32.zero)%f32 then t0 else t1))
  | None => (false, ry)
  end.

(** What a call [intersect_sphere(s, r)] hands to and gets from
    [solve_quadratic]: the discriminant [b*b - 4*a*c] and the returned roots. *)
Definition discriminant (s : sphere) (ry : ray) : float :=
  let rtemp := translate s ry in
  (quad_b rtemp * quad_b rtemp - F32.of_Z 4 * quad_a rtemp * quad_c s rtemp)%f32.

Definition roots (s : sphere) (ry : ray) : option (float * float) :=
  let rtemp := translate s ry in
  solve_quadratic (quad_a rtemp) (quad_b rtemp) (quad_c s rtemp).

(** ** Per-pixel resolver *)

(** Arithmetic on [std::uint32_t] / [unsigned] wraps modulo 2^32; the
    conversion of an [unsigned] to [int] keeps the low 32 bits. *)
Definition u32 (z : Z) : Z := z mod 2 ^ 32.

Definition int_of_u32 (k : Z) : Z :=
  if k <? 2 ^ 31 then k else k - 2 ^ 32.

(** The ray through the centre of pixel [(i, j)] of an image of
    [width] x [height] pixels. *)
Definition pixel_ray_at (width height i j : Z) : ray :=
  mk_ray (LEFT + (WIDTH / F32.of_Z width) * (F32.of_Z i + F32.half))%f32
         (BOTTOM + (HEIGHT / F32.of_Z height) * (F32.of_Z j + F32.half))%f32
         NEAR
         F32.zero F32.zero F32.one
         (FAR - NEAR)%f32.

Definition pixel_ray : Z -> Z -> ray := pixel_ray_at kImageWidth kImageHeight.

(** The loop over the spheres: [k] is the loop counter, [idx] the index
    recorded so far and [ry] the ray as the calls so far left it.  The array
    [spheres] with its length [num_spheres] is the list of its elements. *)
Fixpoint scan (spheres : list sphere) (k : Z) (idx : Z) (ry : ray) : Z * ray :=
  match spheres with
  | [] => (idx, ry)
  | s :: rest =>
      let '(hit, ry') := intersect_sphere s ry in
      scan rest (k + 1) (if hit then int_of_u32 k else idx) ry'
  end.

(** The index left in [idx] when the loop of pixel [(i, j)] ends. *)
Definition hit_index (width height : Z) (spheres : list sphere) (i j : Z) : Z :=
  fst (scan spheres 0 (-1) (pixel_ray_at width height i j)).

Definition color : Type := float * float * float.

Definition background : color := (F32.tenth, F32.tenth, F32.tenth).

Definition sphere_color (s : sphere) : color := (r s, g s, b s).

(** The colour chosen after the loop.  The read [spheres[idx]] is in bounds
    whenever [idx > 0] (lemma [scan_index_in_bounds]); the [None] branch is
    never taken. *)
Definition resolve (spheres : list sphere) (idx : Z) : color :=
  if 0 <? idx then
    match spheres !! Z.to_nat idx with
    | Some s => sphere_color s
    | None => background
    end
  else background.

Definition pixel_color (width height : Z) (spheres : list sphere) (i j : Z) : color :=
  resolve spheres (hit_index width height spheres i j).

(** ** Trace driver *)

(** [(j * kImageWidth + i) * 3], computed on [unsigned]. *)
Definition pixel_offset (width i j : Z) : Z :=
  u32 (u32 (u32 (j * width) + i) * 3).

Definition write_color (img : list float) (off : Z) (c : color) : list float :=
  let '(cr, cg, cb) := c in
  <[Z.to_nat (u32 (off + 2)) := cb]>
    (<[Z.to_nat (u32 (off + 1)) := cg]>
       (<[Z.to_nat off := cr]> img)).

(** The body of the two loops of [trace] for pixel [(i, j)]. *)
Definition trace_pixel (width height : Z) (spheres : list sphere)
    (img : list float) (i j : Z) : list float :=
  write_color img (pixel_offset width i j) (pixel_color width height spheres i j).

Definition trace_column (width height : Z) (spheres : list sphere)
    (img : list float) (i : Z) : list float :=
  fold_left (fun im j => trace_pixel width height spheres im i j)
            (seqZ 0 height) img.

(** [trace] for an image of [width] x [height] pixels. *)
Definition trace_at (width height : Z) (spheres : list sphere)
    (img : list float) : list float :=
  fold_left (trace_column width height spheres) (seqZ 0 width) img.

(** [void trace(sphere const* spheres, std::uint32_t num_spheres, float* img)] *)
Definition trace (spheres : list sphere) (img : list float) : list float :=
  trace_at kImageWidth kImageHeight spheres img.


(** The pixels in the order the two loops of [trace] visit them. *)
Definition pixels (width height : Z) : list (Z * Z) :=
  i ← seqZ 0 width; (fun j => (i, j)) <$> seqZ 0 height.

(** The pixel whose colour the float at index [o] of the buffer belongs to. *)
Definition pixel_of_cell (width o : Z) : Z * Z :=
  ((o / 3) mod width, (o / 3) / width).

(** The float that belongs at index [o] of the image: the red, green or blue
    component (by [o mod 3]) of the colour resolved for its pixel. *)
Definition rendered_cell (width height : Z) (spheres : list sphere) (o : Z) : float :=
  let p := pixel_of_cell width o in
  let '(cr, cg, cb) := pixel_color width height spheres (fst p) (snd p) in
  if o mod 3 =? 0 then cr else if o mod 3 =? 1 then cg else cb.

(** The buffer [img] with the [width * height * 3] floats of the image
    replaced by the rendered ones, the rest kept. *)
Definition rendered_image (width height : Z) (spheres : list sphere)
    (img : list float) : list float :=
  imap (fun o x => if Z.of_nat o <? width * height * 3
                   then rendered_cell width height spheres (Z.of_nat o) else x) img.

(** The calls of [intersect_sphere] made by the loop that returned [true],
    in scan order: the loop counter and the distance the call stored in
    [maxt]. *)
Fixpoint accepted_hits (spheres : list sphere) (k : Z) (ry : ray) : list (Z * float) :=
  match spheres with
  | [] => []
  | s :: rest =>
      let '(hit, ry') := intersect_sphere s ry in
      (if hit then [(k, maxt ry')] else []) ++ accepted_hits rest (k + 1) ry'
  end.

(** Whether every call of the loop that returns [true] stores its first
    root: [t0 > 0] at each of them, the ray entering the sphere in front of
    its origin.  The ray is threaded through the calls as the loop does. *)
Fixpoint first_root_hits (spheres : list sphere) (ry : ray) : bool :=
  match spheres with
  | [] => true
  | s :: rest =>
      let '(hit, ry') := intersect_sphere s ry in
      (if hit
       then match roots s ry with
            | Some (t0, _) => (t0 >? F32.zero)%f32
            | None => false
            end
       else true)
      && first_root_hits rest ry'
  end.

(** The same calls with the distance at which the ray enters the sphere: the
    loop counter and the first root [t0] that [solve_quadratic] returned to
    the call. *)
Fixpoint entry_hits (spheres : list sphere) (k : Z) (ry : ray) : list (Z * float) :=
  match spheres with
  | [] => []
  | s :: rest =>
      let '(hit, ry') := intersect_sphere s ry in
      (if hit
       then match roots s ry with
            | Some (t0, _) => [(k, t0)]
            | None => []
            end
       else [])
      ++ entry_hits rest (k + 1) ry'
  end.

(** ** Scene generator *)

(** How a call that can throw ends: it returns a value, or it leaves by an
    exception that nothing in the program catches. *)
Inductive outcome (A : Type) : Type :=
| Returned (a : A)
| Thrown.

Arguments Returned {A} a.
Arguments Thrown {A}.

(** [std::srand(0x88e8fff4)] *)
Definition seed : Z := 0x88e8fff4.

Definition set_cx (v : float) (s : sphere) : sphere :=
  mk_sphere v (cy s) (cz s) (radius s) (r s) (g s) (b s).
Definition set_cy (v : float) (s : sphere) : sphere :=
  mk_sphere (cx s) v (cz s) (radius s) (r s) (g s) (b s).
Definition set_cz (v : float) (s : sphere) : sphere :=
  mk_sphere (cx s) (cy s) v (radius s) (r s) (g s) (b s).
Definition set_radius (v : float) (s : sphere) : sphere :=
  mk_sphere (cx s) (cy s) (cz s) v (r s) (g s) (b s).
Definition set_r (v : float) (s : sphere) : sphere :=
  mk_sphere (cx s) (cy s) (cz s) (radius s) v (g s) (b s).
Definition set_g (v : float) (s : sphere) : sphere :=
  mk_sphere (cx s) (cy s) (cz s) (radius s) (r s) v (b s).
Definition set_b (v : float) (s : sphere) : sphere :=
  mk_sphere (cx s) (cy s) (cz s) (radius s) (r s) (g s) v.

(** The C library's pseudo-random generator is not part of the program: its
    hidden state, [std::srand], [std::rand] and [RAND_MAX] are parameters. *)
Section Generator.

Variable rand_state : Type.
Variable RAND_MAX : Z.
(** [std::srand(seed)] replaces the hidden state. *)
Variable srand : Z -> rand_state.
(** [std::rand()] returns a number and advances the hidden state. *)
Variable rand : rand_state -> Z * rand_state.

(** *** rt.original *)

(** [#define RAND_FLOAT (((float)std::rand()) / RAND_MAX)] *)
Definition RAND_FLOAT (st : rand_state) : float * rand_state :=
  let '(z, st) := rand st in
  ((F32.of_Z z / F32.of_Z RAND_MAX)%f32, st).

(** The body of the loop of [generate_spheres]: the seven assignments to the
    fields of [spheres[i]]. *)
Definition generate_sphere_at (spheres : list sphere) (i : Z) (st : rand_state)
    : list sphere * rand_state :=
  let n := Z.to_nat i in
  let '(u, st) := RAND_FLOAT st in
  let spheres := alter (set_cx (u * F32.of_Z 20 - F32.of_Z 10)%f32) n spheres in
  let '(u, st) := RAND_FLOAT st in
  let spheres := alter (set_cy (u * F32.of_Z 20 - F32.of_Z 10)%f32) n spheres in
  let '(u, st) := RAND_FLOAT st in
  let spheres := alter (set_cz (u * F32.of_Z 20 - F32.of_Z 5)%f32) n spheres in
  let '(u, st) := RAND_FLOAT st in
  let spheres := alter (set_radius ((u + F32.tenth) * F32.one_and_half)%f32) n spheres in
  let '(u, st) := RAND_FLOAT st in
  let spheres := alter (set_r u) n spheres in
  let '(u, st) := RAND_FLOAT st in
  let spheres := alter (set_g u) n spheres in
  let '(u, st) := RAND_FLOAT st in
  let spheres := alter (set_b u) n spheres in
  (spheres, st).

(** [for (auto i = 0U; i < num_spheres; ++i)], with [todo] iterations left. *)
Fixpoint generate_loop (todo : nat) (i : Z) (spheres : list sphere)
    (st : rand_state) : list sphere * rand_state :=
  match todo with
  | O => (spheres, st)
  | S todo' =>
      let '(spheres, st) := generate_sphere_at spheres i st in
      generate_loop todo' (i + 1) spheres st
  end.

(** [void generate_spheres(sphere* spheres, std::uint32_t num_spheres)]: the
    array on entry and the hidden state of the generator go in, the array
    and the state on return come out.  The state on entry is overwritten by
    [std::srand]. *)
Definition generate_spheres (spheres : list sphere) (num_spheres : Z)
    (st : rand_state) : list sphere * rand_state :=
  let st := srand seed in
  generate_loop (Z.to_nat num_spheres) 0 spheres st.

(** [main] of rt.original up to the image it hands to the image writer:
    [std::vector<sphere> spheres(kNumSpheres)] and
    [std::vector<float> img(kImageWidth * kImageHeight * 3)] are filled with
    zeros, then [generate_spheres] and [trace] run. *)
Definition original_main (st : rand_state) : list float :=
  let spheres :=
    replicate (Z.to_nat kNumSpheres)
      (mk_sphere F32.zero F32.zero F32.zero F32.zero F32.zero F32.zero F32.zero) in
  let '(spheres, st) := generate_spheres spheres kNumSpheres st in
  let img :=
    replicate (Z.to_nat (u32 (u32 (kImageWidth * kImageHeight) * 3))) F32.zero in
  trace spheres img.

(** *** rt.reworked *)

(** [std::vector<sphere>]: the elements and the capacity. *)
Record vector : Type := mk_vector { v_data : list sphere; v_capacity : nat }.

(** What [emplace_back] does with a full vector is left to the library:
    [grow c] is the capacity that a full vector of capacity [c] gets when it
    is reallocated, and [None] when it cannot grow, in which case the call
    leaves by an exception ([std::length_error] at [max_size()],
    [std::bad_alloc] when the allocation fails). *)
Variable grow : nat -> option nat.

Definition reserve (n : nat) (v : vector) : vector :=
  if (v_capacity v <? n)%nat then mk_vector (v_data v) n else v.

(** [sphere::rand_float()] *)
Definition rand_float (st : rand_state) : float * rand_state :=
  let '(z, st) := rand st in
  ((F32.of_Z z / F32.of_Z RAND_MAX)%f32, st).

(** [sphere::sphere()] *)
Definition sphere_ctor (st : rand_state) : sphere * rand_state :=
  let '(u, st) := rand_float st in
  let cx := (u * F32.of_Z 20 - F32.of_Z 10)%f32 in
  let '(u, st) := rand_float st in
  let cy := (u * F32.of_Z 20 - F32.of_Z 10)%f32 in
  let '(u, st) := rand_float st in
  let cz := (u * F32.of_Z 20 - F32.of_Z 5)%f32 in
  let '(u, st) := rand_float st in
  let radius := ((u + F32.tenth) * F32.one_and_half)%f32 in
  let '(r, st) := rand_float st in
  let '(g, st) := rand_float st in
  let '(b, st) := rand_float st in
  (mk_sphere cx cy cz radius r g b, st).

(** [spheres.emplace_back()]: with room left the sphere is constructed in
    place; a full vector is reallocated first, and the sphere is constructed
    only when that succeeded. *)
Definition emplace_back (v : vector) (st : rand_state)
    : outcome (vector * rand_state) :=
  if (length (v_data v) <? v_capacity v)%nat then
    let '(s, st) := sphere_ctor st in
    Returned (mk_vector (v_data v ++ [s]) (v_capacity v), st)
  else
    match grow (v_capacity v) with
    | Some cap =>
        let '(s, st) := sphere_ctor st in
        Returned (mk_vector (v_data v ++ [s]) cap, st)
    | None => Thrown
    end.

(** [for (size_t i = 0; i < spheres.capacity(); ++i) spheres.emplace_back();]
    The bound is read again at every iteration, so the loop need not end;
    [fuel] bounds the number of iterations and [None] is running out of
    it.  An exception of [emplace_back] is not caught and ends the loop. *)
Fixpoint generate_spheres_loop (fuel : nat) (i : nat) (v : vector)
    (st : rand_state) : option (outcome (vector * rand_state)) :=
  if (i <? v_capacity v)%nat then
    match fuel with
    | O => None
    | S fuel' =>
        match emplace_back v st with
        | Returned (v, st) => generate_spheres_loop fuel' (S i) v st
        | Thrown => Some Thrown
        end
    end
  else Some (Returned (v, st)).

(** [void generate_spheres(std::vector<sphere>& spheres)] *)
Definition generate_spheres_reworked (fuel : nat) (v : vector) (st : rand_state)
    : option (outcome (vector * rand_state)) :=
  generate_spheres_loop fuel 0 v st.

(** The scene set-up of [main]: [std::srand(0x88e8fff4)], an empty vector,
    [spheres.reserve(num_spheres)], [generate_spheres(spheres)]. *)
Definition reworked_scene (fuel : nat) (num_spheres : nat) (st : rand_state)
    : option (outcome (vector * rand_state)) :=
  let st := srand seed in
  let spheres := reserve num_spheres (mk_vector [] 0) in
  generate_spheres_reworked fuel spheres st.

(** *** The generator as the specification words it *)

(** The hidden state after [k] calls of [rand] since [srand]. *)
Definition state_after (k : nat) : rand_state :=
  Nat.iter k (fun st => snd (rand st)) (srand seed).

(** The [k]-th uniform value drawn since [srand], counting from 0. *)
Definition uniform (k : nat) : float :=
  (F32.of_Z (fst (rand (state_after k))) / F32.of_Z RAND_MAX)%f32.

(** Sphere [i]: one uniform value per field, in the order cx, cy, cz, radius,
    r, g, b. *)
Definition spec_sphere (i : nat) : sphere :=
  let u (f : nat) := uniform (7 * i + f) in
  mk_sphere (u 0%nat * F32.of_Z 20 - F32.of_Z 10)%f32
            (u 1%nat * F32.of_Z 20 - F32.of_Z 10)%f32
            (u 2%nat * F32.of_Z 20 - F32.of_Z 5)%f32
            ((u 3%nat + F32.tenth) * F32.one_and_half)%f32
            (u 4%nat) (u 5%nat) (u 6%nat).

Definition spec_scene (n : nat) : list sphere := map spec_sphere (seq 0 n).

End Generator.

(** The ranges of the generated values: a uniform value lies from 0 to 1, a
    centre in the box from (-10, -10, -5) to (10, 10, 15), a radius from
    0.1 * 1.5 to (1 + 0.1) * 1.5, both computed in single precision, and the
    components of a colour are uniform values. *)
Definition between (lo hi x : float) : bool := (lo <=? x)%f32 && (x <=? hi)%f32.

Definition in_unit_range (x : float) : bool := between F32.zero F32.one x.

Definition sphere_in_range (s : sphere) : bool :=
  between (F32.of_Z (-10)) (F32.of_Z 10) (cx s) &&
  between (F32.of_Z (-10)) (F32.of_Z 10) (cy s) &&
  between (F32.of_Z (-5)) (F32.of_Z 15) (cz s) &&
  between (F32.tenth * F32.one_and_half)%f32
          ((F32.one + F32.tenth) * F32.one_and_half)%f32 (radius s) &&
  (F32.zero <? radius s)%f32 &&
  in_unit_range (r s) && in_unit_range (g s) && in_unit_range (b s).

(** A sphere whose colour components are uniform values. *)
Definition colour_in_range (s : sphere) : bool :=
  in_unit_range (r s) && in_unit_range (g s) && in_unit_range (b s).

(** The generator of the Microsoft C runtime, for which the project files of
    the program are written: a linear congruential generator on 32 bits whose
    [rand] returns bits 16 to 30 of the state. *)
Module MsvcRand.
Definition RAND_MAX : Z := 32767.
Definition srand (seed : Z) : Z := u32 seed.
Definition rand (st : Z) : Z * Z :=
  let st := u32 (st * 214013 + 2531011) in
  (Z.land (Z.shiftr st 16) 32767, st).
End MsvcRand.

(** ** Test scenes *)

Module Scenes.

(** A red sphere of radius 20 around the origin: it covers the whole image. *)
Definition red_cover : sphere :=
  mk_sphere F32.zero F32.zero F32.zero (F32.of_Z 20) F32.one F32.zero F32.zero.

(** A sphere far to the right of the image, which no ray of the camera meets. *)
Definition dummy : sphere :=
  mk_sphere (F32.of_Z 100) F32.zero F32.zero F32.one F32.zero F32.zero F32.one.

(** A green unit sphere around the origin, in front of the camera plane. *)
Definition green_unit : sphere :=
  mk_sphere F32.zero F32.zero F32.zero F32.one F32.zero F32.one F32.zero.

(** A red unit sphere behind the green one, around (0, 0, 5). *)
Definition red_behind : sphere :=
  mk_sphere F32.zero F32.zero (F32.of_Z 5) F32.one F32.one F32.zero F32.zero.

(** The end-to-end scene of the specification: a sphere of radius 20 around
    the origin at index 1, behind a sphere that no ray meets. *)
Definition end_to_end : list sphere := [dummy; red_cover].

(** A green unit sphere around (-2.5, -2.5, 0), which the ray of pixel (1, 1)
    of a 4 x 4 image goes through the centre of. *)
Definition green_front : sphere :=
  mk_sphere (- (F32.of_Z 5 * F32.half))%f32 (- (F32.of_Z 5 * F32.half))%f32 F32.zero
            F32.one F32.zero F32.one F32.zero.

(** The end-to-end scene with the green sphere put in front of the red one. *)
Definition covered : list sphere := [dummy; green_front; red_cover].

(** An image buffer of [n] floats, zero-initialised as [std::vector<float>]
    does. *)
Definition blank (n : nat) : list float := replicate n F32.zero.

End Scenes.

(** ** Intervals of single-precision numbers *)

(** The definitions below serve the bounds proved of the scenes of the
    generator: numbers of the format that are finite, their integer values
    at a common exponent, intervals with the operations of the intersector
    on them, and the cut of the range of depths into pieces. *)

Definition fin_valid (x : float) : Prop :=
  match x with
  | S754_zero _ => True
  | S754_finite _ _ _ => valid_binary 24 128 x = true
  | _ => False
  end.

Definition Zval (E : Z) (x : float) : Z :=
  match x with
  | S754_finite s m e => cond_Zopp s (Z.pos m * 2 ^ (e - E))
  | _ => 0
  end.

Definition below_exponent (E : Z) (x : float) : Prop :=
  match x with
  | S754_finite _ _ e => E <= e
  | _ => True
  end.

Definition zero_like (a b : float) : Prop :=
  a = b \/ exists s s', a = S754_zero s /\ b = S754_zero s'.

Definition expo (x : float) : Z :=
  match x with S754_finite _ _ e => e | _ => 0 end.

Definition fvb (x : float) : bool :=
  match x with
  | S754_zero _ => true
  | S754_finite _ _ _ => valid_binary 24 128 x
  | _ => false
  end.

Record itv : Type := mk_itv { ilo : float; ihi : float }.

Definition iok (I : itv) : bool := fvb (ilo I) && fvb (ihi I).

Definition within (x : float) (I : itv) : Prop :=
  (ilo I <=? x)%f32 = true /\ (x <=? ihi I)%f32 = true /\ F32.valid x = true.

Definition iadd (I J : itv) : itv :=
  mk_itv (ilo I + ilo J)%f32 (ihi I + ihi J)%f32.

Definition isub (I J : itv) : itv :=
  mk_itv (ilo I - ihi J)%f32 (ihi I - ilo J)%f32.

Definition iscale (k : float) (I : itv) : itv :=
  mk_itv (k * ilo I)%f32 (k * ihi I)%f32.

Definition isquare_neg (I : itv) : itv :=
  mk_itv (ihi I * ihi I)%f32 (ilo I * ilo I)%f32.

Definition sixty_four : float := S754_finite false 8388608 (-17).
Definition eight : float := S754_finite false 8388608 (-20).

Definition ineg (I : itv) : itv := mk_itv (- ihi I)%f32 (- ilo I)%f32.

Definition neg_fin (x : float) : bool :=
  match x with S754_finite true _ _ => true | _ => false end.

Fixpoint pieces_from (a : float) (bs : list float) : list itv :=
  match bs with
  | [] => []
  | b :: rest => mk_itv a b :: pieces_from b rest
  end.

Fixpoint final (a : float) (bs : list float) : float :=
  match bs with
  | [] => a
  | b :: rest => final b rest
  end.

Definition two : float := F32.of_Z 2.
Definition four : float := F32.of_Z 4.
Definition twenty : float := F32.of_Z 20.
Definition radius_max : float := ((F32.one + F32.tenth) * F32.one_and_half)%f32.
Definition eighth : float := S754_finite false 8388608 (-26).

Definition I400 : itv := mk_itv F32.zero (twenty * twenty)%f32.
Definition IS : itv := iadd I400 I400.
Definition IRR : itv := mk_itv F32.zero (radius_max * radius_max)%f32.
Definition Isqrt : itv := mk_itv F32.zero eight.

Definition piece_d (IW : itv) : itv :=
  let Ib := iscale two (iscale F32.one IW) in
  isub (isquare_neg Ib) (iscale four (isub (iadd IS (isquare_neg IW)) IRR)).

Definition piece_t0 (IW : itv) : itv :=
  let Ib := iscale two (iscale F32.one IW) in
  iscale F32.half (isub (ineg Ib) Isqrt).

Definition piece_ok (IW : itv) : bool :=
  let IV := iscale F32.one IW in
  let Ib := iscale two IV in
  let IB := isquare_neg Ib in
  let IZ := isquare_neg IW in
  let IT := iadd IS IZ in
  let Ic := isub IT IRR in
  let IC := iscale four Ic in
  iok IW && neg_fin (ihi IW) && iok IV && neg_fin (ihi IV) && iok Ib && neg_fin (ihi Ib)
  && iok IB && iok IZ && iok IT && iok Ic && iok IC
  && (ihi (piece_d IW) <=? sixty_four)%f32
  && iok (ineg Ib) && iok (isub (ineg Ib) Isqrt)
  && (F32.zero <? ilo (piece_t0 IW))%f32.

Definition depth_breaks : list float :=
  map (fun k => (F32.of_Z (k - 200) * eighth)%f32) (seqZ 1 160).

Definition depth_pieces : list itv := pieces_from (F32.of_Z (-25)) depth_breaks.

Definition I10 : itv := mk_itv (F32.of_Z (-10)) (F32.of_Z 10).
Definition Icz : itv := mk_itv (F32.of_Z (-5)) (F32.of_Z 15).

(** A ray of the camera: it starts on the plane [z = NEAR], inside the
    window, and runs along the z axis. *)
Definition camera_ray (ry : ray) : Prop :=
  within (ox ry) I10 /\ within (oy ry) I10 /\ oz ry = NEAR /\
  dx ry = F32.zero /\ dy ry = F32.zero /\ dz ry = F32.one.

(** A sphere of the generator: its fields are numbers of the format, in the
    ranges of the scene. *)
Definition generated_sphere (s : sphere) : Prop :=
  sphere_in_range s = true /\
  F32.valid (cx s) = true /\ F32.valid (cy s) = true /\
  F32.valid (cz s) = true /\ F32.valid (radius s) = true.

Definition withinb (x : float) (I : itv) : bool :=
  (ilo I <=? x)%f32 && (x <=? ihi I)%f32 && F32.valid x.

(** * Properties *)

(** ** The intersector *)

Section Intersector.

Variables (s : sphere) (ry : ray).

(** The discriminant and the two roots as [intersect_sphere] computes them. *)
Let a : float := (dx ry * dx ry + dy ry * dy ry + dz ry * dz ry)%f32.
Let lox : float := (ox ry - cx s)%f32.
Let loy : float := (oy ry - cy s)%f32.
Let loz : float := (oz ry - cz s)%f32.
Let b : float := (F32.of_Z 2 * (lox * dx ry + loy * dy ry + loz * dz ry))%f32.
Let c : float := (lox * lox + loy * loy + loz * loz - radius s * radius s)%f32.
Let d : float := (b * b - F32.of_Z 4 * a * c)%f32.
Let den : float := (F32.of_Z 1 / (F32.of_Z 2 * a))%f32.
Let t0 : float := ((- b - F32.sqrt d) * den)%f32.
Let t1 : float := ((- b + F32.sqrt d) * den)%f32.

(** C4: [intersect_sphere] returns [false] with the ray untouched when the
    discriminant is negative (no real roots) or when [t0 > r.maxt] or
    [t1 < 0]; otherwise it returns [true] and the ray it leaves has [t0] in
    [maxt] if [t0 > 0] and [t1] if not, with its origin and direction as
    they were. *)
Theorem intersect_sphere_cases :
  intersect_sphere s ry =
    if (d <? F32.zero)%f32 then (false, ry)
    else if ((t0 >? maxt ry) || (t1 <? F32.zero))%f32 then (false, ry)
    else (true,
          mk_ray (ox ry) (oy ry) (oz ry) (dx ry) (dy ry) (dz ry)
                 (if (t0 >? F32.zero)%f32 then t0 else t1)).
Proof.
  unfold intersect_sphere, solve_quadratic, quad_a, quad_b, quad_c, translate, set_maxt;
    cbn [ox oy oz dx dy dz maxt].
  fold lox loy loz. fold a. fold b. fold c. fold d.
  destruct (d <? F32.zero)%f32; [reflexivity|].
  fold den. fold t0. fold t1. reflexivity.
Qed.

(** C10: whatever it returns, [intersect_sphere] leaves the origin and the
    direction of the ray as they were: the ray it leaves is the ray it got
    with at most [maxt] replaced, and on a return of [false] it is the ray
    it got, [maxt] included. *)
Theorem intersect_sphere_frame :
  let '(hit, ry') := intersect_sphere s ry in
  (ox ry' = ox ry /\ oy ry' = oy ry /\ oz ry' = oz ry) /\
  (dx ry' = dx ry /\ dy ry' = dy ry /\ dz ry' = dz ry) /\
  ry' = (if hit then set_maxt ry (maxt ry') else ry).
Proof.
  unfold intersect_sphere.
  destruct (solve_quadratic _ _ _) as [[x1 x2]|]; [|tauto].
  destruct ((x1 >? maxt ry) || (x2 <? F32.zero))%f32; [tauto|].
  cbn. tauto.
Qed.

End Intersector.

(** ** The scan of the spheres *)

Lemma intersect_sphere_miss_unchanged s ry :
  fst (intersect_sphere s ry) = false -> snd (intersect_sphere s ry) = ry.
Proof.
  unfold intersect_sphere.
  destruct (solve_quadratic _ _ _) as [[x1 x2]|]; [|reflexivity].
  destruct ((x1 >? maxt ry) || (x2 <? F32.zero))%f32; [reflexivity|discriminate].
Qed.

Lemma intersect_sphere_direction s ry :
  dx (snd (intersect_sphere s ry)) = dx ry /\
  dy (snd (intersect_sphere s ry)) = dy ry /\
  dz (snd (intersect_sphere s ry)) = dz ry.
Proof.
  unfold intersect_sphere.
  destruct (solve_quadratic _ _ _) as [[x1 x2]|]; [|tauto].
  destruct ((x1 >? maxt ry) || (x2 <? F32.zero))%f32; cbn; tauto.
Qed.

Lemma scan_direction spheres : forall k idx ry,
  dx (snd (scan spheres k idx ry)) = dx ry /\
  dy (snd (scan spheres k idx ry)) = dy ry /\
  dz (snd (scan spheres k idx ry)) = dz ry.
Proof.
  induction spheres as [|s rest IH]; intros k idx ry; cbn; [tauto|].
  pose proof (intersect_sphere_direction s ry) as Hd.
  destruct (intersect_sphere s ry) as [hit ry']; cbn in Hd.
  specialize (IH (k + 1) (if hit then int_of_u32 k else idx) ry').
  intuition congruence.
Qed.

(** The recorded index is the counter of the last accepted call, and the
    initial value when no call was accepted. *)
Lemma scan_last_accepted spheres : forall k idx ry,
  fst (scan spheres k idx ry) =
    default idx (last (map (fun h => int_of_u32 (fst h)) (accepted_hits spheres k ry))).
Proof.
  induction spheres as [|s rest IH]; intros k idx ry; cbn; [reflexivity|].
  destruct (intersect_sphere s ry) as [[|] ry']; rewrite IH; cbn [app map].
  - rewrite last_cons. destruct (last _); reflexivity.
  - reflexivity.
Qed.


(** The recorded index is the initial one or a counter of the loop. *)
Lemma scan_index_range spheres : forall k idx ry,
  0 <= k -> k + Z.of_nat (length spheres) <= 2 ^ 32 ->
  let idx' := fst (scan spheres k idx ry) in
  idx' = idx \/
  exists k', k <= k' < k + Z.of_nat (length spheres) /\ idx' = int_of_u32 k'.
Proof.
  induction spheres as [|s rest IH]; intros k idx ry Hk Hlen; cbn; [left; reflexivity|].
  cbn [length] in Hlen.
  destruct (intersect_sphere s ry) as [hit ry'].
  destruct (IH (k + 1) (if hit then int_of_u32 k else idx) ry') as [E|(k' & Hk' & E)];
    [lia|lia| |].
  - cbn in E. rewrite E. destruct hit; [right; exists k; split; [lia|reflexivity]|left; reflexivity].
  - right. exists k'. split; [lia|exact E].
Qed.

(** The read [spheres[idx]] made after the loop when [idx > 0] is in bounds. *)
Lemma scan_index_in_bounds spheres ry :
  Z.of_nat (length spheres) <= 2 ^ 32 ->
  let idx := fst (scan spheres 0 (-1) ry) in
  0 < idx -> is_Some (spheres !! Z.to_nat idx).
Proof.
  intros Hlen idx Hpos.
  destruct (scan_index_range spheres 0 (-1) ry) as [E|(k' & Hk' & E)]; [lia|lia| |].
  - fold idx in E. lia.
  - fold idx in E. apply lookup_lt_is_Some.
    unfold int_of_u32 in E. destruct (k' <? 2 ^ 31) eqn:Hlt; lia.
Qed.

(** ** The trace driver *)

Lemma u32_small z : 0 <= z < 2 ^ 32 -> u32 z = z.
Proof. intros H. unfold u32. apply Z.mod_small. exact H. Qed.

Section Driver.

Variables (width height : Z) (spheres : list sphere).
Hypothesis width_pos : 0 < width.
Hypothesis height_pos : 0 < height.
(** The offsets of the image fit [unsigned]. *)
Hypothesis image_fits : width * height * 3 <= 2 ^ 32.

Definition in_image (p : Z * Z) : Prop :=
  0 <= fst p < width /\ 0 <= snd p < height.

Lemma pixel_offset_exact i j :
  in_image (i, j) ->
  pixel_offset width i j = (j * width + i) * 3 /\
  0 <= (j * width + i) * 3 /\ (j * width + i) * 3 + 2 < width * height * 3.
Proof.
  intros [Hi Hj]; cbn in Hi, Hj.
  assert (Hjw : 0 <= j * width <= (height - 1) * width) by nia.
  assert (Hb : (j * width + i) * 3 + 2 < width * height * 3) by nia.
  unfold pixel_offset.
  rewrite (u32_small (j * width)) by lia.
  rewrite (u32_small (j * width + i)) by lia.
  rewrite u32_small by lia. lia.
Qed.


Lemma write_color_length img off c :
  length (write_color img off c) = length img.
Proof. destruct c as [[cr cg] cb]. unfold write_color. rewrite !length_insert. reflexivity. Qed.



Definition trace_step (img : list float) (p : Z * Z) : list float :=
  trace_pixel width height spheres img (fst p) (snd p).

Lemma trace_at_pixels img :
  trace_at width height spheres img = fold_left trace_step (pixels width height) img.
Proof.
  unfold trace_at, pixels. generalize (seqZ 0 width) as cols. intros cols; revert img.
  induction cols as [|i cols IH]; intros img; cbn; [reflexivity|].
  rewrite fold_left_app, IH. f_equal.
  unfold trace_column. generalize (seqZ 0 height) as rows. intros rows; revert img.
  induction rows as [|j rows IHr]; intros img; cbn; [reflexivity|].
  apply IHr.
Qed.

Lemma elem_of_pixels p : p ∈ pixels width height <-> in_image p.
Proof.
  unfold pixels, in_image. rewrite list_elem_of_bind. split.
  - intros (i & Hp & Hi). apply list_elem_of_fmap in Hp as (j & -> & Hj).
    apply elem_of_seqZ in Hi, Hj. cbn. lia.
  - intros [Hi Hj]. exists (fst p). split.
    + apply list_elem_of_fmap. exists (snd p). split; [destruct p; reflexivity|].
      apply elem_of_seqZ. lia.
    + apply elem_of_seqZ. lia.
Qed.

Lemma trace_fold_length ps : forall img,
  length (fold_left trace_step ps img) = length img.
Proof.
  induction ps as [|p ps IH]; intros img; cbn; [reflexivity|].
  rewrite IH. apply write_color_length.
Qed.



End Driver.

(** ** The resolver *)


Lemma resolve_sphere spheres idx s :
  0 < idx -> spheres !! Z.to_nat idx = Some s -> resolve spheres idx = sphere_color s.
Proof. intros H E. unfold resolve. rewrite E. destruct (0 <? idx) eqn:E'; [reflexivity|lia]. Qed.







(** C8: every call of [intersect_sphere] made for a pixel gets a ray of
    direction (0, 0, 1), whatever calls came before, so the coefficient [a]
    it forms is exactly 1 and the call is the call of [solve_quadratic] with
    [a = 1] followed by the two tests; and [solve_quadratic] with [a = 1]
    divides by [2 * a = 2], not by zero: its factor [den = 1 / (2 * a)] is
    0.5, and the roots are [(-b - sqrt d) * 0.5] and [(-b + sqrt d) * 0.5]. *)
Theorem resolver_rays_have_unit_a (width height i j : Z)
    (before : list sphere) (s : sphere) :
  let ry := snd (scan before 0 (-1) (pixel_ray_at width height i j)) in
  let lox := (ox ry - cx s)%f32 in
  let loy := (oy ry - cy s)%f32 in
  let loz := (oz ry - cz s)%f32 in
  let b := (F32.of_Z 2 * (lox * dx ry + loy * dy ry + loz * dz ry))%f32 in
  let c := (lox * lox + loy * loy + loz * loz - radius s * radius s)%f32 in
  (dx ry = F32.zero /\ dy ry = F32.zero /\ dz ry = F32.one) /\
  (dx ry * dx ry + dy ry * dy ry + dz ry * dz ry)%f32 = F32.one /\
  intersect_sphere s ry =
    match solve_quadratic F32.one b c with
    | Some (t0, t1) =>
        if ((t0 >? maxt ry) || (t1 <? F32.zero))%f32 then (false, ry)
        else (true,
              mk_ray (ox ry) (oy ry) (oz ry) (dx ry) (dy ry) (dz ry)
                     (if (t0 >? F32.zero)%f32 then t0 else t1))
    | None => (false, ry)
    end /\
  (forall b c : float,
     F32.eqb (F32.of_Z 2 * F32.one) F32.zero = false /\
     (F32.of_Z 1 / (F32.of_Z 2 * F32.one))%f32 = F32.half /\
     solve_quadratic F32.one b c =
       let d := (b * b - F32.of_Z 4 * F32.one * c)%f32 in
       if (d <? F32.zero)%f32 then None
       else Some (((- b - F32.sqrt d) * F32.half)%f32,
                  ((- b + F32.sqrt d) * F32.half)%f32)).
Proof.
  intros ry lox loy loz b c.
  destruct (scan_direction before 0 (-1) (pixel_ray_at width height i j))
    as (Hx & Hy & Hz).
  fold ry in Hx, Hy, Hz. cbn [pixel_ray_at dx dy dz] in Hx, Hy, Hz.
  assert (Ha : (dx ry * dx ry + dy ry * dy ry + dz ry * dz ry)%f32 = F32.one).
  { rewrite Hx, Hy, Hz. vm_compute. reflexivity. }
  split; [auto|]. split; [exact Ha|]. split.
  - unfold intersect_sphere, quad_a, quad_b, quad_c, translate, set_maxt;
      cbn [ox oy oz dx dy dz maxt].
    rewrite Ha. reflexivity.
  - intros b' c'. split; [vm_compute; reflexivity|]. split; [vm_compute; reflexivity|].
    unfold solve_quadratic.
    change (F32.of_Z 1 / (F32.of_Z 2 * F32.one))%f32 with F32.half. reflexivity.
Qed.

(** ** The two generators *)

Section GeneratorFacts.

Variable rand_state : Type.
Variable RAND_MAX : Z.
Variable srand : Z -> rand_state.
Variable rand : rand_state -> Z * rand_state.
Variable grow : nat -> option nat.

Local Abbreviation state_after := (state_after rand_state srand rand).
Local Abbreviation uniform := (uniform rand_state RAND_MAX srand rand).
Local Abbreviation spec_sphere := (spec_sphere rand_state RAND_MAX srand rand).
Local Abbreviation spec_scene := (spec_scene rand_state RAND_MAX srand rand).

Lemma state_after_S k : state_after (S k) = snd (rand (state_after k)).
Proof. reflexivity. Qed.

Lemma RAND_FLOAT_draw k :
  RAND_FLOAT rand_state RAND_MAX rand (state_after k) = (uniform k, state_after (S k)).
Proof.
  unfold RAND_FLOAT, uniform. rewrite state_after_S.
  destruct (rand (state_after k)) as [z st]. reflexivity.
Qed.

Lemma rand_float_draw k :
  rand_float rand_state RAND_MAX rand (state_after k) = (uniform k, state_after (S k)).
Proof.
  unfold rand_float, uniform. rewrite state_after_S.
  destruct (rand (state_after k)) as [z st]. reflexivity.
Qed.

Lemma spec_scene_S n : spec_scene (S n) = spec_scene n ++ [spec_sphere n].
Proof. unfold spec_scene. rewrite seq_S, map_app. reflexivity. Qed.

Lemma length_spec_scene n : length (spec_scene n) = n.
Proof. unfold spec_scene. rewrite length_map, length_seq. reflexivity. Qed.

Lemma alter_after_prefix (f : sphere -> sphere) i pre s rest :
  length pre = i -> alter f i (pre ++ s :: rest) = pre ++ f s :: rest.
Proof.
  intros <-. replace (length pre) with (length pre + 0)%nat by lia.
  rewrite alter_app_r. reflexivity.
Qed.

(** One iteration of the original loop overwrites element [i] with the
    sphere of the specification, whatever it held. *)
Lemma generate_sphere_at_spec i s rest :
  generate_sphere_at rand_state RAND_MAX rand
      (spec_scene i ++ s :: rest) (Z.of_nat i) (state_after (7 * i))
    = (spec_scene (S i) ++ rest, state_after (7 * S i)).
Proof.
  unfold generate_sphere_at. rewrite Nat2Z.id. cbv zeta.
  rewrite !RAND_FLOAT_draw.
  rewrite !alter_after_prefix by apply length_spec_scene.
  rewrite spec_scene_S, <- app_assoc. cbn [app].
  replace (7 * S i)%nat with (S (S (S (S (S (S (S (7 * i))))))))%nat by lia.
  unfold spec_sphere.
  replace (7 * i + 0)%nat with (7 * i)%nat by lia.
  replace (7 * i + 1)%nat with (S (7 * i)) by lia.
  replace (7 * i + 2)%nat with (S (S (7 * i))) by lia.
  replace (7 * i + 3)%nat with (S (S (S (7 * i)))) by lia.
  replace (7 * i + 4)%nat with (S (S (S (S (7 * i))))) by lia.
  replace (7 * i + 5)%nat with (S (S (S (S (S (7 * i)))))) by lia.
  replace (7 * i + 6)%nat with (S (S (S (S (S (S (7 * i))))))) by lia.
  reflexivity.
Qed.

Lemma generate_loop_spec todo : forall i rest,
  length rest = todo ->
  generate_loop rand_state RAND_MAX rand todo (Z.of_nat i)
      (spec_scene i ++ rest) (state_after (7 * i))
    = (spec_scene (i + todo), state_after (7 * (i + todo))).
Proof.
  induction todo as [|todo IH]; intros i rest Hlen.
  - destruct rest; [|discriminate]. rewrite app_nil_r, Nat.add_0_r. reflexivity.
  - destruct rest as [|s rest]; [discriminate|]. cbn [generate_loop].
    rewrite generate_sphere_at_spec.
    replace (Z.of_nat i + 1) with (Z.of_nat (S i)) by lia.
    rewrite IH by (cbn in Hlen; lia).
    replace (S i + todo)%nat with (i + S todo)%nat by lia. reflexivity.
Qed.

Lemma sphere_ctor_spec i :
  sphere_ctor rand_state RAND_MAX rand (state_after (7 * i))
    = (spec_sphere i, state_after (7 * S i)).
Proof.
  unfold sphere_ctor. rewrite !rand_float_draw.
  replace (7 * S i)%nat with (S (S (S (S (S (S (S (7 * i))))))))%nat by lia.
  unfold spec_sphere.
  replace (7 * i + 0)%nat with (7 * i)%nat by lia.
  replace (7 * i + 1)%nat with (S (7 * i)) by lia.
  replace (7 * i + 2)%nat with (S (S (7 * i))) by lia.
  replace (7 * i + 3)%nat with (S (S (S (7 * i)))) by lia.
  replace (7 * i + 4)%nat with (S (S (S (S (7 * i))))) by lia.
  replace (7 * i + 5)%nat with (S (S (S (S (S (7 * i)))))) by lia.
  replace (7 * i + 6)%nat with (S (S (S (S (S (S (7 * i))))))) by lia.
  reflexivity.
Qed.

(** With [todo] elements still to come before the capacity [i + todo] is
    reached and at least as much fuel, the reworked loop ends, and it leaves
    the spheres of the specification. *)
Lemma generate_spheres_loop_spec todo : forall fuel i,
  (todo <= fuel)%nat ->
  generate_spheres_loop rand_state RAND_MAX rand grow fuel i
      (mk_vector (spec_scene i) (i + todo)) (state_after (7 * i))
    = Some (Returned (mk_vector (spec_scene (i + todo)) (i + todo),
                      state_after (7 * (i + todo)))).
Proof.
  induction todo as [|todo IH]; intros fuel i Hfuel.
  - rewrite Nat.add_0_r. destruct fuel; cbn [generate_spheres_loop v_capacity];
      rewrite Nat.ltb_irrefl; reflexivity.
  - destruct fuel as [|fuel]; [lia|]. cbn [generate_spheres_loop v_capacity].
    destruct (i <? i + S todo)%nat eqn:E; [|apply Nat.ltb_ge in E; lia].
    unfold emplace_back. cbn [v_data v_capacity].
    rewrite length_spec_scene, E, sphere_ctor_spec, <- spec_scene_S.
    replace (i + S todo)%nat with (S i + todo)%nat by lia.
    apply IH. lia.
Qed.

(** C5: with the same seed and the same number [n] of spheres, the original
    generator (on an array of [n] spheres) and the reworked one (on a vector
    reserved for [n] spheres, with enough fuel for its [n] iterations) both
    end with the sequence of the specification: sphere by sphere in index
    order, one uniform value per field in the order cx, cy, cz, radius, r, g,
    b, with cx, cy = u*20-10, cz = u*20-5, radius = (u+0.1)*1.5 and
    r, g, b = u.  They also leave the random generator in the same state. *)
Theorem generators_agree (n : nat) (spheres : list sphere)
    (st st' : rand_state) (fuel : nat) :
  length spheres = n -> (n <= fuel)%nat ->
  let original :=
    generate_spheres rand_state RAND_MAX srand rand spheres (Z.of_nat n) st in
  let reworked :=
    reworked_scene rand_state RAND_MAX srand rand grow fuel n st' in
  fst original = spec_scene n /\
  exists v, reworked = Some (Returned (v, snd original)) /\ v_data v = fst original.
Proof.
  intros Hlen Hfuel original reworked.
  assert (Ho : original = (spec_scene n, state_after (7 * n))).
  { subst original. unfold generate_spheres. rewrite Nat2Z.id.
    apply (generate_loop_spec n 0 spheres Hlen). }
  assert (Hr : reworked
               = Some (Returned (mk_vector (spec_scene n) n, state_after (7 * n)))).
  { subst reworked. unfold reworked_scene, generate_spheres_reworked, reserve.
    cbn [v_capacity v_data].
    destruct n as [|n]; [destruct fuel; reflexivity|].
    cbn [Nat.ltb Nat.leb].
    apply (generate_spheres_loop_spec (S n) fuel 0 Hfuel). }
  rewrite Ho, Hr. cbn [fst snd]. split; [reflexivity|].
  eexists. split; reflexivity.
Qed.

End GeneratorFacts.

Lemma generators_agree_witness :
  exists v,
    reworked_scene Z MsvcRand.RAND_MAX MsvcRand.srand MsvcRand.rand
        (fun c => Some (2 * c + 1)%nat) 2 2 0
      = Some (Returned
                (v, snd (generate_spheres Z MsvcRand.RAND_MAX MsvcRand.srand
                           MsvcRand.rand (replicate 2 Scenes.dummy) 2 0))) /\
    v_data v = fst (generate_spheres Z MsvcRand.RAND_MAX MsvcRand.srand
                      MsvcRand.rand (replicate 2 Scenes.dummy) 2 0).
Proof.
  assert (Hlen : length (replicate 2 Scenes.dummy) = 2%nat) by reflexivity.
  assert (Hfuel : (2 <= 2)%nat) by lia.
  exact (proj2 (generators_agree Z MsvcRand.RAND_MAX MsvcRand.srand MsvcRand.rand
                  (fun c => Some (2 * c + 1)%nat) 2 (replicate 2 Scenes.dummy) 0 0 2
                  Hlen Hfuel)).
Defined.

(** ** The image as a whole *)

Section WholeImage.

Variables (width height : Z) (spheres : list sphere).
Hypothesis width_pos : 0 < width.
Hypothesis height_pos : 0 < height.
Hypothesis image_fits : width * height * 3 <= 2 ^ 32.

Local Abbreviation inside := (in_image width height).
Local Abbreviation step := (trace_step width height spheres).

Lemma pixel_of_cell_iff i j o :
  inside (i, j) -> 0 <= o ->
  pixel_of_cell width o = (i, j) <->
  o = (j * width + i) * 3 \/ o = (j * width + i) * 3 + 1 \/ o = (j * width + i) * 3 + 2.
Proof.
  intros [Hi Hj] Ho; cbn in Hi, Hj. unfold pixel_of_cell. split.
  - intros E. injection E as Emod Ediv.
    pose proof (Z.div_mod (o / 3) width ltac:(lia)) as Hdm.
    rewrite Emod, Ediv in Hdm.
    assert (o / 3 = j * width + i) by lia.
    Z.div_mod_to_equations. lia.
  - intros Hcell.
    assert (E3 : o / 3 = j * width + i) by (Z.div_mod_to_equations; lia).
    rewrite E3. f_equal.
    + symmetry. apply (Z.mod_unique _ _ j); lia.
    + symmetry. apply (Z.div_unique _ _ _ i); lia.
  Qed.

Lemma pixel_of_cell_in_image o :
  0 <= o < width * height * 3 -> inside (pixel_of_cell width o).
Proof.
  intros Ho. unfold pixel_of_cell, in_image. cbn [fst snd].
  assert (H3 : 0 <= o / 3 < width * height) by (Z.div_mod_to_equations; lia).
  pose proof (Z.mod_pos_bound (o / 3) width width_pos).
  split; [lia|]. split.
  - apply Z.div_pos; lia.
  - apply Z.div_lt_upper_bound; lia.
Qed.

Lemma write_color_lookup img off c (o : nat) :
  0 <= off -> off + 2 < 2 ^ 32 -> off + 2 < Z.of_nat (length img) ->
  write_color img off c !! o =
    if decide (Z.of_nat o = off) then Some (fst (fst c))
    else if decide (Z.of_nat o = off + 1) then Some (snd (fst c))
    else if decide (Z.of_nat o = off + 2) then Some (snd c)
    else img !! o.
Proof.
  intros H0 H32 Hlen. destruct c as [[cr cg] cb]. unfold write_color. cbn [fst snd].
  rewrite !u32_small by lia.
  repeat case_decide.
  - subst off. rewrite !list_lookup_insert_ne by lia.
    rewrite Nat2Z.id. apply list_lookup_insert_eq. lia.
  - rewrite list_lookup_insert_ne by lia.
    replace (Z.to_nat (off + 1)) with o by lia.
    apply list_lookup_insert_eq. rewrite length_insert. lia.
  - replace (Z.to_nat (off + 2)) with o by lia.
    apply list_lookup_insert_eq. rewrite !length_insert. lia.
  - rewrite !list_lookup_insert_ne by lia. reflexivity.
Qed.

(** The buffer after any list of pixels of the image has been processed: the
    cells of the processed pixels hold their rendered floats, every other
    cell is as it was. *)
Lemma trace_fold_lookup ps : forall (img : list float) (o : nat),
  Forall inside ps ->
  width * height * 3 <= Z.of_nat (length img) ->
  fold_left step ps img !! o =
    if decide (pixel_of_cell width (Z.of_nat o) ∈ ps)
    then Some (rendered_cell width height spheres (Z.of_nat o))
    else img !! o.
Proof.
  induction ps as [|q ps IH] using rev_ind; intros img o Hall Hlen.
  - cbn. case_decide as Hin; [inversion Hin|reflexivity].
  - rewrite Forall_app, Forall_singleton in Hall. destruct Hall as [Hps Hq].
    rewrite fold_left_app. cbn [fold_left]. unfold trace_step at 1, trace_pixel.
    destruct q as [i j]; cbn [fst snd].
    destruct (pixel_offset_exact width height width_pos image_fits i j Hq)
      as (-> & Hoff0 & Hoff2).
    pose proof (pixel_of_cell_iff i j (Z.of_nat o) Hq ltac:(lia)) as Hcell.
    rewrite write_color_lookup by (rewrite ?trace_fold_length; lia).
    rewrite IH by assumption.
    destruct (decide (pixel_of_cell width (Z.of_nat o) = (i, j))) as [E|Hne].
    + assert (Hin : pixel_of_cell width (Z.of_nat o) ∈ ps ++ [(i, j)])
        by (rewrite E; apply elem_of_app; right; apply list_elem_of_singleton; reflexivity).
      rewrite (decide_True _ _ Hin).
      unfold rendered_cell. rewrite E. cbn [fst snd].
      destruct (pixel_color width height spheres i j) as [[cr cg] cb]. cbn [fst snd].
      apply Hcell in E.
      repeat case_decide; try lia.
      * replace (Z.of_nat o mod 3) with 0 by (Z.div_mod_to_equations; lia). reflexivity.
      * replace (Z.of_nat o mod 3) with 1 by (Z.div_mod_to_equations; lia). reflexivity.
      * replace (Z.of_nat o mod 3) with 2 by (Z.div_mod_to_equations; lia). reflexivity.
    + assert (Hno : ~ (Z.of_nat o = (j * width + i) * 3 \/
                       Z.of_nat o = (j * width + i) * 3 + 1 \/
                       Z.of_nat o = (j * width + i) * 3 + 2)) by (rewrite <- Hcell; exact Hne).
      rewrite decide_False by lia. rewrite decide_False by lia. rewrite decide_False by lia.
      destruct (decide (pixel_of_cell width (Z.of_nat o) ∈ ps)) as [Hin|Hnin].
      * rewrite decide_True by (apply elem_of_app; left; exact Hin). reflexivity.
      * rewrite decide_False; [reflexivity|].
        rewrite elem_of_app, list_elem_of_singleton. tauto.
Qed.

Lemma trace_fold_rendered ps (img : list float) :
  Forall inside ps ->
  (forall p, inside p -> p ∈ ps) ->
  width * height * 3 <= Z.of_nat (length img) ->
  fold_left step ps img = rendered_image width height spheres img.
Proof.
  intros Hall Hcover Hlen. apply list_eq. intros o.
  rewrite trace_fold_lookup by assumption.
  unfold rendered_image. rewrite list_lookup_imap.
  destruct (Z.of_nat o <? width * height * 3) eqn:Hlt.
  - apply Z.ltb_lt in Hlt.
    rewrite decide_True by (apply Hcover, pixel_of_cell_in_image; lia).
    assert (Ho : (o < length img)%nat) by lia.
    destruct (lookup_lt_is_Some_2 img o Ho) as [x ->]. reflexivity.
  - apply Z.ltb_ge in Hlt. rewrite decide_False.
    + destruct (img !! o); reflexivity.
    + intros Hin. rewrite Forall_forall in Hall. apply Hall in Hin.
      destruct Hin as [Hi Hj]. unfold pixel_of_cell in Hi, Hj. cbn [fst snd] in Hi, Hj.
      assert (Z.of_nat o / 3 < width * height).
      { pose proof (Z.div_mod (Z.of_nat o / 3) width ltac:(lia)).
        pose proof (Z.mod_pos_bound (Z.of_nat o / 3) width width_pos). nia. }
      Z.div_mod_to_equations. lia.
Qed.

End WholeImage.

Lemma length_rendered_image width height spheres (img : list float) :
  length (rendered_image width height spheres img) = length img.
Proof. unfold rendered_image. apply length_imap. Qed.

Lemma trace_renders_image_aux (width height : Z) (spheres : list sphere)
    (img : list float) :
  0 < width -> 0 < height -> width * height * 3 <= 2 ^ 32 ->
  width * height * 3 <= Z.of_nat (length img) ->
  trace_at width height spheres img = rendered_image width height spheres img.
Proof.
  intros Hw Hh Hfit Hlen. rewrite trace_at_pixels.
  apply trace_fold_rendered; try assumption.
  - apply Forall_forall. intros p Hp. apply elem_of_pixels. exact Hp.
  - intros p Hp. apply elem_of_pixels. exact Hp.
Qed.

(** The driver as a function: once [trace] has run over an image of
    [width] x [height] pixels whose offsets fit [unsigned], in a buffer that
    holds it, every float of the image is the component of the colour resolved
    for its pixel, and every float behind the image is as it was.  [trace] of
    the program is the case of 2048 x 2048 pixels. *)
Theorem trace_renders_image (width height : Z) (spheres : list sphere)
    (img : list float) :
  0 < width -> 0 < height -> width * height * 3 <= 2 ^ 32 ->
  width * height * 3 <= Z.of_nat (length img) ->
  trace_at width height spheres img = rendered_image width height spheres img.
Proof.
  intros Hw Hh Hfit Hlen. apply trace_renders_image_aux; assumption.
Qed.

Lemma trace_renders_image_witness :
  trace_at 2 2 [Scenes.dummy; Scenes.red_cover] (Scenes.blank 13)
    = rendered_image 2 2 [Scenes.dummy; Scenes.red_cover] (Scenes.blank 13).
Proof.
  apply trace_renders_image; cbn; lia.
Defined.

(** The pixels can be processed in any order, and more than once: whatever
    list of pixels of the image is run through the body of the loops of
    [trace], as long as every pixel of the image is in it, the buffer ends as
    [trace] leaves it. *)
Theorem trace_schedule_irrelevant (width height : Z) (spheres : list sphere)
    (img : list float) (schedule : list (Z * Z)) :
  0 < width -> 0 < height -> width * height * 3 <= 2 ^ 32 ->
  width * height * 3 <= Z.of_nat (length img) ->
  Forall (in_image width height) schedule ->
  (forall p, in_image width height p -> p ∈ schedule) ->
  fold_left (fun im p => trace_pixel width height spheres im (fst p) (snd p))
            schedule img
    = trace_at width height spheres img.
Proof.
  intros Hw Hh Hfit Hlen Hall Hcover.
  rewrite trace_renders_image_aux by assumption.
  apply (trace_fold_rendered width height spheres Hw Hh Hfit schedule); assumption.
Qed.

Lemma trace_schedule_irrelevant_witness :
  fold_left (fun im p => trace_pixel 2 2 [Scenes.dummy; Scenes.red_cover] im (fst p) (snd p))
            [(1, 1); (0, 1); (1, 0); (0, 0); (1, 1)] (Scenes.blank 12)
    = trace_at 2 2 [Scenes.dummy; Scenes.red_cover] (Scenes.blank 12).
Proof.
  apply trace_schedule_irrelevant; try (cbn; lia).
  - unfold in_image. repeat constructor; cbn; lia.
  - intros [i j] [Hi Hj]; cbn in Hi, Hj.
    assert (Ei : i = 0 \/ i = 1) by lia. assert (Ej : j = 0 \/ j = 1) by lia.
    destruct Ei, Ej; subst; rewrite !elem_of_cons; auto 6.
Defined.

(** Rendering is idempotent, and what the image holds afterwards does not
    depend on what the buffer held before: two buffers of exactly
    [width * height * 3] floats end equal. *)
Theorem trace_overwrites_image (width height : Z) (spheres : list sphere)
    (img img' : list float) :
  0 < width -> 0 < height -> width * height * 3 <= 2 ^ 32 ->
  Z.of_nat (length img) = width * height * 3 ->
  Z.of_nat (length img') = width * height * 3 ->
  trace_at width height spheres (trace_at width height spheres img)
    = trace_at width height spheres img /\
  trace_at width height spheres img = trace_at width height spheres img'.
Proof.
  intros Hw Hh Hfit Hlen Hlen'.
  assert (Hr : forall im : list float, Z.of_nat (length im) = width * height * 3 ->
            forall o : nat, rendered_image width height spheres im !! o =
              if decide (Z.of_nat o < width * height * 3)
              then Some (rendered_cell width height spheres (Z.of_nat o)) else None).
  { intros im Him o. unfold rendered_image. rewrite list_lookup_imap.
    case_decide as Ho.
    - assert (Ho' : (o < length im)%nat) by lia.
      destruct (lookup_lt_is_Some_2 im o Ho') as [x ->]. cbn.
      destruct (Z.ltb_spec (Z.of_nat o) (width * height * 3)); [reflexivity|lia].
    - rewrite lookup_ge_None_2 by lia. reflexivity. }
  rewrite (trace_renders_image_aux width height spheres img) by (assumption || lia).
  rewrite (trace_renders_image_aux width height spheres img') by (assumption || lia).
  rewrite (trace_renders_image_aux width height spheres) by
    (try assumption; rewrite length_rendered_image; lia).
  split; apply list_eq; intros o; rewrite !Hr by (rewrite ?length_rendered_image; lia);
    reflexivity.
Qed.

(** ** More on the intersector and the scan *)

Lemma ltb_irrefl (x : float) : (x <? x)%f32 = false.
Proof.
  destruct x as [sx|sx| |sx m e]; try destruct sx; try reflexivity;
    unfold F32.ltb, SFltb; cbn; rewrite Z.compare_refl, Pos.compare_cont_refl; reflexivity.
Qed.

Lemma set_maxt_set_maxt ry t t' : set_maxt (set_maxt ry t) t' = set_maxt ry t'.
Proof. reflexivity. Qed.

Lemma set_maxt_same ry : set_maxt ry (maxt ry) = ry.
Proof. destruct ry; reflexivity. Qed.

Lemma intersect_sphere_result s ry :
  snd (intersect_sphere s ry) =
    if fst (intersect_sphere s ry)
    then set_maxt ry (maxt (snd (intersect_sphere s ry))) else ry.
Proof.
  unfold intersect_sphere.
  destruct (solve_quadratic _ _ _) as [[x1 x2]|]; [|reflexivity].
  destruct ((x1 >? maxt ry) || (x2 <? F32.zero))%f32; reflexivity.
Qed.

(** A discriminant that is not a number counts as a hit: when the computed
    [b*b - 4*a*c] is NaN (a NaN field of the sphere, or an overflow to
    infinity minus infinity), [d < 0] is false, both roots are NaN, neither
    rejection test fires, and [intersect_sphere] returns [true] with NaN
    stored in [maxt]. *)
Theorem nan_discriminant_is_a_hit (s : sphere) (ry : ray) :
  F32.is_nan (discriminant s ry) = true ->
  fst (intersect_sphere s ry) = true /\
  maxt (snd (intersect_sphere s ry)) = S754_nan /\
  snd (intersect_sphere s ry)
    = mk_ray (ox ry) (oy ry) (oz ry) (dx ry) (dy ry) (dz ry) S754_nan.
Proof.
  unfold discriminant, intersect_sphere, solve_quadratic, set_maxt.
  destruct (_ - _)%f32 eqn:Ed; try discriminate. intros _.
  cbn [F32.ltb SFltb SFcompare F32.zero F32.sqrt SFsqrt].
  change (F32.ltb S754_nan F32.zero) with false. cbv iota.
  assert (Hsub : forall x, (x - S754_nan)%f32 = S754_nan) by (intros []; reflexivity).
  assert (Hadd : forall x, (x + S754_nan)%f32 = S754_nan) by (intros []; reflexivity).
  rewrite Hsub, Hadd.
  change (S754_nan * ?y)%f32 with S754_nan.
  assert (Hgt : forall x, (S754_nan >? x)%f32 = false) by (intros []; reflexivity).
  rewrite !Hgt. cbn. repeat split; reflexivity.
Qed.

Lemma nan_discriminant_is_a_hit_witness :
  fst (intersect_sphere
         (mk_sphere (F32.of_Z (2 ^ 100)) F32.zero F32.zero (F32.of_Z (2 ^ 100))
                    F32.one F32.zero F32.zero)
         (pixel_ray 0 0)) = true /\
  maxt (snd (intersect_sphere
               (mk_sphere (F32.of_Z (2 ^ 100)) F32.zero F32.zero (F32.of_Z (2 ^ 100))
                          F32.one F32.zero F32.zero)
               (pixel_ray 0 0))) = S754_nan.
Proof.
  destruct (nan_discriminant_is_a_hit
              (mk_sphere (F32.of_Z (2 ^ 100)) F32.zero F32.zero (F32.of_Z (2 ^ 100))
                         F32.one F32.zero F32.zero)
              (pixel_ray 0 0)) as (Hhit & Hmaxt & _).
  - vm_compute. reflexivity.
  - split; [exact Hhit|exact Hmaxt].
Defined.

(** A sphere that has just been hit from outside is hit again, with the same
    distance: when a call returned [true] and stored the first root
    ([t0 > 0]), a second call on the same sphere with the ray as the first one
    left it returns [true] and leaves the ray as it is.  So of two equal
    spheres in the array the later one is the one recorded. *)
Theorem hit_again_on_same_sphere (s : sphere) (ry : ray) (t0 t1 : float) :
  roots s ry = Some (t0, t1) ->
  fst (intersect_sphere s ry) = true ->
  (t0 >? F32.zero)%f32 = true ->
  intersect_sphere s (snd (intersect_sphere s ry))
    = (true, snd (intersect_sphere s ry)).
Proof.
  unfold roots. intros Hroots Hhit Hpos.
  assert (E1 : intersect_sphere s ry = (true, set_maxt ry t0)).
  { revert Hhit. unfold intersect_sphere. rewrite Hroots.
    destruct ((t0 >? maxt ry) || (t1 <? F32.zero))%f32; [discriminate|].
    rewrite Hpos. reflexivity. }
  assert (Ht1 : (t1 <? F32.zero)%f32 = false).
  { revert Hhit. unfold intersect_sphere. rewrite Hroots.
    destruct (t1 <? F32.zero)%f32; [rewrite orb_true_r; discriminate|reflexivity]. }
  rewrite E1. cbn [snd].
  unfold intersect_sphere.
  change (translate s (set_maxt ry t0)) with (set_maxt (translate s ry) t0).
  change (quad_a (set_maxt (translate s ry) t0)) with (quad_a (translate s ry)).
  change (quad_b (set_maxt (translate s ry) t0)) with (quad_b (translate s ry)).
  change (quad_c s (set_maxt (translate s ry) t0)) with (quad_c s (translate s ry)).
  rewrite Hroots. cbn [maxt set_maxt].
  unfold F32.gtb at 1. fold (F32.ltb t0 t0). rewrite ltb_irrefl, Ht1, Hpos.
  reflexivity.
Qed.

Lemma hit_again_on_same_sphere_witness :
  intersect_sphere Scenes.green_unit
      (snd (intersect_sphere Scenes.green_unit (pixel_ray 1024 1024)))
    = (true, snd (intersect_sphere Scenes.green_unit (pixel_ray 1024 1024))).
Proof.
  eapply hit_again_on_same_sphere; vm_compute; reflexivity.
Defined.

Lemma scan_result_from_log (spheres : list sphere) (k idx : Z) (ry : ray) :
  let hits := accepted_hits spheres k ry in
  scan spheres k idx ry =
    (default idx (last ((fun h => int_of_u32 (fst h)) <$> hits)),
     set_maxt ry (default (maxt ry) (last (snd <$> hits)))).
Proof.
  revert k idx ry. induction spheres as [|s rest IH]; intros k idx ry; cbn.
  - rewrite set_maxt_same. reflexivity.
  - pose proof (intersect_sphere_result s ry) as Hres.
    destruct (intersect_sphere s ry) as [hit ry']. cbn [fst snd] in Hres.
    rewrite IH. destruct hit; cbn [app fmap list_fmap].
    + assert (Hset : forall t, set_maxt ry' t = set_maxt ry t)
        by (intros t; rewrite Hres; reflexivity).
      rewrite !last_cons, Hset.
      destruct (last (_ <$> accepted_hits rest (k + 1) ry')),
               (last (snd <$> accepted_hits rest (k + 1) ry')); reflexivity.
    + subst ry'. reflexivity.
Qed.

(** What the scan leaves behind comes from its last accepted call: the index
    is the counter of the last call that returned [true] and [maxt] is the
    distance that call stored; with no accepted call both are as they were.
    The origin and the direction of the ray are never touched. *)
Theorem scan_keeps_last_accepted (spheres : list sphere) (k idx : Z) (ry : ray) :
  let hits := accepted_hits spheres k ry in
  scan spheres k idx ry =
    (default idx (last ((fun h => int_of_u32 (fst h)) <$> hits)),
     set_maxt ry (default (maxt ry) (last (snd <$> hits)))).
Proof. apply scan_result_from_log. Qed.

Lemma accepted_hits_shift spheres : forall k ry,
  accepted_hits spheres (k + 1) ry =
    (fun h => (fst h + 1, snd h)) <$> accepted_hits spheres k ry.
Proof.
  induction spheres as [|s rest IH]; intros k ry; cbn; [reflexivity|].
  destruct (intersect_sphere s ry) as [hit ry'].
  rewrite fmap_app, <- IH. destruct hit; reflexivity.
Qed.

Lemma accepted_hits_range spheres : forall k ry h,
  h ∈ accepted_hits spheres k ry ->
  k <= fst h < k + Z.of_nat (length spheres).
Proof.
  induction spheres as [|s rest IH]; intros k ry h; cbn [accepted_hits length].
  - intros Hin. inversion Hin.
  - destruct (intersect_sphere s ry) as [hit ry']. rewrite elem_of_app.
    intros [Hin|Hin].
    + destruct hit; [|inversion Hin].
      apply list_elem_of_singleton in Hin. subst h. cbn. lia.
    + apply IH in Hin. lia.
Qed.

(** A sphere in front of the array that the ray of a pixel misses moves every
    recorded index up by one, past the index 0 that the resolver treats as no
    hit: the pixel then gets the colour of the last sphere of the rest of the
    array whose test returned [true], the first one of the rest included, and
    the background only when none did. *)
Theorem leading_miss_shifts_index (width height : Z) (s0 : sphere)
    (spheres : list sphere) (i j : Z) :
  fst (intersect_sphere s0 (pixel_ray_at width height i j)) = false ->
  Z.of_nat (length spheres) < 2 ^ 31 ->
  let idx := hit_index width height spheres i j in
  let c := pixel_color width height (s0 :: spheres) i j in
  hit_index width height (s0 :: spheres) i j = (if idx <? 0 then -1 else idx + 1) /\
  (idx < 0 -> c = background) /\
  (0 <= idx -> exists s, spheres !! Z.to_nat idx = Some s /\ c = sphere_color s).
Proof.
  intros Hmiss Hlen idx c. subst c. unfold pixel_color.
  set (ry := pixel_ray_at width height i j) in *.
  assert (Hidx : idx = default (-1) (last ((fun h => int_of_u32 (fst h)) <$>
                                             accepted_hits spheres 0 ry))).
  { subst idx. unfold hit_index. fold ry. apply scan_last_accepted. }
  assert (Hnew : hit_index width height (s0 :: spheres) i j =
                 default (-1) (last ((fun h => int_of_u32 (fst h + 1)) <$>
                                       accepted_hits spheres 0 ry))).
  { unfold hit_index. fold ry. cbn [scan].
    pose proof (intersect_sphere_miss_unchanged s0 ry Hmiss) as Hry.
    destruct (intersect_sphere s0 ry) as [hit ry']. cbn in Hmiss, Hry. subst hit ry'.
    rewrite scan_last_accepted, accepted_hits_shift, <- list_fmap_compose.
    reflexivity. }
  rewrite Hnew. rewrite !fmap_last in *.
  destruct (last (accepted_hits spheres 0 ry)) as [h|] eqn:Elast; cbn [fmap option_fmap option_map default] in *.
  - apply last_Some_elem_of, accepted_hits_range in Elast.
    assert (E0 : int_of_u32 (fst h) = fst h)
      by (unfold int_of_u32; destruct (Z.ltb_spec (fst h) (2 ^ 31)); lia).
    assert (E1 : int_of_u32 (fst h + 1) = fst h + 1)
      by (unfold int_of_u32; destruct (Z.ltb_spec (fst h + 1) (2 ^ 31)); lia).
    rewrite E0 in Hidx. rewrite E1. unfold id in *.
    destruct (Z.ltb_spec idx 0); [lia|]. split; [lia|]. split; [lia|].
    intros _. destruct (lookup_lt_is_Some_2 spheres (Z.to_nat idx) ltac:(lia)) as [s Hs].
    exists s. split; [exact Hs|]. apply resolve_sphere; [lia|].
    replace (Z.to_nat (fst h + 1)) with (S (Z.to_nat idx)) by lia. exact Hs.
  - rewrite Hidx. cbn. split; [reflexivity|]. split; [reflexivity|lia].
Qed.

Lemma leading_miss_shifts_index_witness :
  hit_index 2 2 [Scenes.dummy; Scenes.red_cover] 0 1 = 1 /\
  pixel_color 2 2 [Scenes.dummy; Scenes.red_cover] 0 1 = sphere_color Scenes.red_cover.
Proof.
  assert (Hmiss : fst (intersect_sphere Scenes.dummy (pixel_ray_at 2 2 0 1)) = false)
    by (vm_compute; reflexivity).
  assert (Hlen : Z.of_nat (length [Scenes.red_cover]) < 2 ^ 31) by (cbn; lia).
  destruct (leading_miss_shifts_index 2 2 Scenes.dummy [Scenes.red_cover] 0 1 Hmiss Hlen)
    as (Hidx & _ & Hcol).
  split.
  - rewrite Hidx. vm_compute. reflexivity.
  - destruct Hcol as (s & Hs & ->); [vm_compute; discriminate|].
    vm_compute in Hs. injection Hs as <-. reflexivity.
Defined.

(** ** More on the generators *)

Section GeneratorBounds.

Variable rand_state : Type.
Variable RAND_MAX : Z.
Variable srand : Z -> rand_state.
Variable rand : rand_state -> Z * rand_state.
Variable grow : nat -> option nat.

Local Abbreviation state_after := (state_after rand_state srand rand).
Local Abbreviation spec_sphere := (spec_sphere rand_state RAND_MAX srand rand).
Local Abbreviation spec_scene := (spec_scene rand_state RAND_MAX srand rand).

Lemma generate_loop_prefix todo : forall i rest,
  (todo <= length rest)%nat ->
  generate_loop rand_state RAND_MAX rand todo (Z.of_nat i)
      (spec_scene i ++ rest) (state_after (7 * i))
    = (spec_scene (i + todo) ++ drop todo rest, state_after (7 * (i + todo))).
Proof.
  induction todo as [|todo IH]; intros i rest Hlen.
  - rewrite Nat.add_0_r. reflexivity.
  - destruct rest as [|s rest]; [cbn in Hlen; lia|]. cbn [generate_loop].
    rewrite generate_sphere_at_spec.
    replace (Z.of_nat i + 1) with (Z.of_nat (S i)) by lia.
    rewrite IH by (cbn in Hlen; lia).
    replace (S i + todo)%nat with (i + S todo)%nat by lia. reflexivity.
Qed.

(** The original generator writes the first [n] elements of the array and
    nothing else: on an array of at least [n] spheres it leaves the [n]
    spheres of the specification followed by the old elements from index [n]
    on, so the length is kept; it draws exactly [7 * n] random numbers; and
    neither the old first [n] elements nor the state of the random generator
    on entry matter. *)
Theorem generate_spheres_writes_prefix (n : nat) (spheres : list sphere)
    (st : rand_state) :
  (n <= length spheres)%nat ->
  generate_spheres rand_state RAND_MAX srand rand spheres (Z.of_nat n) st
    = (spec_scene n ++ drop n spheres, state_after (7 * n)).
Proof.
  intros Hlen. unfold generate_spheres. rewrite Nat2Z.id.
  apply (generate_loop_prefix n 0 spheres Hlen).
Qed.

(** On a vector that already holds an element the loop of the reworked
    generator has no normal exit: the counter stays behind the size and the
    size never exceeds the capacity, so the test [i < spheres.capacity()]
    holds at every iteration. *)
Lemma generate_spheres_loop_no_return fuel : forall i v st r,
  (forall c c', grow c = Some c' -> c < c')%nat ->
  (i < length (v_data v) <= v_capacity v)%nat ->
  generate_spheres_loop rand_state RAND_MAX rand grow fuel i v st <> Some (Returned r).
Proof.
  induction fuel as [|fuel IH]; intros i v st r Hgrow Hinv; cbn [generate_spheres_loop];
    (destruct (Nat.ltb_spec i (v_capacity v)); [|lia]).
  { discriminate. }
  unfold emplace_back.
  destruct (Nat.ltb_spec (length (v_data v)) (v_capacity v)).
  - destruct (sphere_ctor _ _ _ st) as [s st'].
    apply IH; [exact Hgrow|]. cbn [v_data v_capacity]. rewrite length_app. cbn [length]. lia.
  - destruct (grow (v_capacity v)) as [cap|] eqn:Eg; [|discriminate].
    destruct (sphere_ctor _ _ _ st) as [s st'].
    apply IH; [exact Hgrow|]. cbn [v_data v_capacity]. rewrite length_app. cbn [length].
    pose proof (Hgrow _ _ Eg). lia.
Qed.

(** When the capacity cannot pass [limit], the loop leaves by the exception
    of [emplace_back] after at most [limit - size + 1] iterations. *)
Lemma generate_spheres_loop_throws limit fuel : forall i v st,
  (forall c c', grow c = Some c' -> c < c' <= limit)%nat ->
  (i < length (v_data v) <= v_capacity v)%nat -> (v_capacity v <= limit)%nat ->
  (limit - length (v_data v) < fuel)%nat ->
  generate_spheres_loop rand_state RAND_MAX rand grow fuel i v st = Some Thrown.
Proof.
  induction fuel as [|fuel IH]; intros i v st Hgrow Hinv Hcap Hfuel; [lia|].
  cbn [generate_spheres_loop].
  destruct (Nat.ltb_spec i (v_capacity v)); [|lia].
  unfold emplace_back.
  destruct (Nat.ltb_spec (length (v_data v)) (v_capacity v)).
  - destruct (sphere_ctor _ _ _ st) as [s st'].
    apply IH; [exact Hgrow| | |]; cbn [v_data v_capacity];
      rewrite ?length_app; cbn [length]; lia.
  - destruct (grow (v_capacity v)) as [cap|] eqn:Eg; [|reflexivity].
    destruct (sphere_ctor _ _ _ st) as [s st'].
    pose proof (Hgrow _ _ Eg).
    apply IH; [exact Hgrow| | |]; cbn [v_data v_capacity];
      rewrite ?length_app; cbn [length]; lia.
Qed.

(** [generate_spheres] of rt.reworked never returns when the vector it gets
    already holds an element (the capacity being at least the size, and a
    reallocation, when it succeeds, giving a larger capacity): the loop test
    [i < spheres.capacity()] holds at every iteration, so the call cannot end
    normally, whatever the fuel.  It ends by the exception that
    [emplace_back] throws when the vector cannot grow: when no capacity
    passes [limit], that happens within [limit - size + 1] iterations. *)
Theorem generate_spheres_reworked_never_returns (v : vector) (fuel : nat)
    (st : rand_state) :
  (forall c c', grow c = Some c' -> c < c')%nat ->
  (1 <= length (v_data v) <= v_capacity v)%nat ->
  (forall r, generate_spheres_reworked rand_state RAND_MAX rand grow fuel v st
               <> Some (Returned r)) /\
  (forall limit,
     (forall c c', grow c = Some c' -> c' <= limit)%nat ->
     (v_capacity v <= limit)%nat ->
     (limit - length (v_data v) < fuel)%nat ->
     generate_spheres_reworked rand_state RAND_MAX rand grow fuel v st = Some Thrown).
Proof.
  intros Hgrow Hv. unfold generate_spheres_reworked. split.
  - intros r. apply generate_spheres_loop_no_return; [exact Hgrow|lia].
  - intros limit Hlim Hcap Hfuel.
    apply (generate_spheres_loop_throws limit); try assumption; try lia.
    intros c c' E. split; [exact (Hgrow c c' E)|exact (Hlim c c' E)].
Qed.

Lemma original_main_rendered (st : rand_state) :
  original_main rand_state RAND_MAX srand rand st
    = rendered_image kImageWidth kImageHeight (spec_scene 512)
        (replicate (Z.to_nat 12582912) F32.zero).
Proof.
  unfold original_main.
  change kNumSpheres with (Z.of_nat 512).
  change (u32 (u32 (kImageWidth * kImageHeight) * 3)) with 12582912.
  unfold generate_spheres. rewrite Nat2Z.id.
  set (zeros := replicate 512 _).
  assert (Hlen : (512 <= length zeros)%nat) by (unfold zeros; rewrite length_replicate; lia).
  pose proof (generate_loop_prefix 512 0 zeros Hlen) as E.
  change (spec_scene 0 ++ zeros) with zeros in E.
  change (state_after (7 * 0)) with (srand seed) in E.
  change (Z.of_nat 0) with 0 in E. rewrite E. clear E.
  unfold zeros. rewrite drop_replicate. replace (512 - 512)%nat with 0%nat by lia.
  cbn [replicate]. rewrite app_nil_r.
  unfold trace. apply trace_renders_image_aux.
  - reflexivity.
  - reflexivity.
  - discriminate.
  - rewrite length_replicate, Z2Nat.id by lia. discriminate.
Qed.

(** The image that [main] of rt.original hands to the image writer: the
    2048 x 2048 x 3 floats rendered from the 512 spheres of the specification,
    whatever the state of the random generator at the start. *)
Theorem original_main_image (st : rand_state) :
  original_main rand_state RAND_MAX srand rand st
    = rendered_image kImageWidth kImageHeight (spec_scene 512)
        (replicate (Z.to_nat 12582912) F32.zero).
Proof. apply original_main_rendered. Qed.

End GeneratorBounds.

Lemma generate_spheres_writes_prefix_witness :
  generate_spheres Z MsvcRand.RAND_MAX MsvcRand.srand MsvcRand.rand
      [Scenes.dummy; Scenes.dummy; Scenes.red_cover] 2 77
    = (spec_scene Z MsvcRand.RAND_MAX MsvcRand.srand MsvcRand.rand 2
         ++ [Scenes.red_cover],
       state_after Z MsvcRand.srand MsvcRand.rand 14).
Proof.
  apply (generate_spheres_writes_prefix Z MsvcRand.RAND_MAX MsvcRand.srand MsvcRand.rand
           2 [Scenes.dummy; Scenes.dummy; Scenes.red_cover] 77).
  cbn. lia.
Defined.

Lemma generate_spheres_reworked_never_returns_witness :
  (forall r,
     generate_spheres_reworked Z MsvcRand.RAND_MAX MsvcRand.rand
         (fun c => if (c <? 8)%nat then Some (S c) else None)
         1000 (mk_vector [Scenes.dummy] 4) 0
       <> Some (Returned r)) /\
  generate_spheres_reworked Z MsvcRand.RAND_MAX MsvcRand.rand
      (fun c => if (c <? 8)%nat then Some (S c) else None)
      1000 (mk_vector [Scenes.dummy] 4) 0
    = Some Thrown.
Proof.
  assert (Hgrow : forall c c' : nat,
             (if (c <? 8)%nat then Some (S c) else None) = Some c' -> (c < c' <= 8)%nat).
  { intros c c'. destruct (Nat.ltb_spec c 8); [|discriminate].
    intros E. injection E as <-. lia. }
  destruct (generate_spheres_reworked_never_returns Z MsvcRand.RAND_MAX MsvcRand.rand
              (fun c => if (c <? 8)%nat then Some (S c) else None)
              (mk_vector [Scenes.dummy] 4) 1000 0) as [Hno Hthrow].
  - intros c c' E. apply (Hgrow c c' E).
  - cbn. lia.
  - split; [exact Hno|]. apply (Hthrow 8%nat).
    + intros c c' E. apply (Hgrow c c' E).
    + cbn. lia.
    + cbn. lia.
Defined.

Lemma trace_overwrites_image_witness :
  trace_at 2 2 [Scenes.dummy; Scenes.red_cover]
      (trace_at 2 2 [Scenes.dummy; Scenes.red_cover] (Scenes.blank 12))
    = trace_at 2 2 [Scenes.dummy; Scenes.red_cover] (Scenes.blank 12) /\
  trace_at 2 2 [Scenes.dummy; Scenes.red_cover] (Scenes.blank 12)
    = trace_at 2 2 [Scenes.dummy; Scenes.red_cover] (replicate 12 F32.one).
Proof.
  apply trace_overwrites_image; cbn; lia.
Defined.

(** * Rounding to binary32 *)

(** How [binary_round_aux], on which every operation of [spec_float] rests,
    rounds: it is monotone, its results are valid numbers, and it does not
    depend on how the input is aligned. *)

Lemma digits2_pos_size p : digits2_pos p = Pos.size p.
Proof. induction p as [p IH|p IH|]; cbn; rewrite ?IH; reflexivity. Qed.

Lemma Zdigits2_log2 m : 0 < m -> Zdigits2 m = Z.log2 m + 1.
Proof.
  destruct m as [|p|p]; try lia. intros _. cbn [Zdigits2].
  rewrite digits2_pos_size.
  destruct p as [p|p|]; cbn; rewrite ?Pos2Z.inj_succ; lia.
Qed.

Lemma Zdigits2_bounds m :
  0 < m -> 2 ^ (Zdigits2 m - 1) <= m < 2 ^ Zdigits2 m.
Proof.
  intros H. rewrite Zdigits2_log2 by exact H.
  replace (Z.log2 m + 1 - 1) with (Z.log2 m) by lia.
  replace (Z.log2 m + 1) with (Z.succ (Z.log2 m)) by lia.
  apply Z.log2_spec. exact H.
Qed.

Lemma Zdigits2_unique m d :
  2 ^ (d - 1) <= m < 2 ^ d -> 0 < m -> Zdigits2 m = d.
Proof.
  intros H Hm. rewrite Zdigits2_log2 by exact Hm.
  assert (0 <= d - 1).
  { destruct (Z.le_gt_cases 1 d) as [Hd|Hd]; [lia|].
    assert (2 ^ d <= 2 ^ 0) by (apply Z.pow_le_mono_r; lia).
    change (2 ^ 0) with 1 in *. lia. }
  assert (Z.log2 m = d - 1); [|lia].
  apply Z.log2_unique; [lia|]. replace (Z.succ (d - 1)) with d by lia. exact H.
Qed.

Lemma Zdigits2_nonneg m : 0 <= Zdigits2 m.
Proof. destruct m; cbn; lia. Qed.

Lemma Zdigits2_pos m : 0 < m -> 0 < Zdigits2 m.
Proof. destruct m; cbn; lia. Qed.

Lemma Zdigits2_le m m' : 0 < m -> m <= m' -> Zdigits2 m <= Zdigits2 m'.
Proof.
  intros H H'. rewrite !Zdigits2_log2 by lia.
  pose proof (Z.log2_le_mono m m' H'). lia.
Qed.

Lemma Zdigits2_mul_pow2 m k :
  0 < m -> 0 <= k -> Zdigits2 (m * 2 ^ k) = Zdigits2 m + k.
Proof.
  intros Hm Hk. pose proof (Zdigits2_bounds m Hm) as [Hl Hu].
  pose proof (Zdigits2_pos m Hm).
  assert (0 < 2 ^ k) by (apply Z.pow_pos_nonneg; lia).
  apply Zdigits2_unique; [|nia].
  replace (Zdigits2 m + k - 1) with (Zdigits2 m - 1 + k) by lia.
  rewrite !Z.pow_add_r by lia. nia.
Qed.

Lemma record_code_of_loc m l :
  record_code (shr_record_of_loc m l) = 4 * m + loc_code l.
Proof.
  destruct l as [|[| |]]; unfold record_code;
    cbn [shr_record_of_loc shr_m shr_r shr_s loc_code]; lia.
Qed.

Lemma shr_1_spec m r s :
  0 <= m ->
  shr_1 (Build_shr_record m r s) = Build_shr_record (m / 2) (Z.odd m) (r || s).
Proof.
  intros Hm. destruct m as [|p|p]; [reflexivity| |lia].
  destruct p as [p|p|]; cbn [shr_1].
  - replace (Z.pos p~1 / 2) with (Z.pos p); [reflexivity|].
    apply Z.div_unique with (r := 1); lia.
  - replace (Z.pos p~0 / 2) with (Z.pos p); [reflexivity|].
    apply Z.div_unique with (r := 0); lia.
  - reflexivity.
Qed.

Lemma sh_code m (r s : bool) :
  0 <= m ->
  sh (4 * m + (if r then 2 else 0) + (if s then 1 else 0)) =
    4 * (m / 2) + (if Z.odd m then 2 else 0) + (if r || s then 1 else 0).
Proof.
  intros Hm. unfold sh.
  pose proof (Z.div_mod m 2 ltac:(lia)) as Hdm.
  pose proof (Z.mod_pos_bound m 2 ltac:(lia)) as Hb.
  rewrite (Zmod_odd m) in Hdm, Hb.
  set (q := m / 2) in *. clearbody q.
  destruct (Z.odd m), r, s; cbn [orb]; subst m;
    match goal with |- context [?K mod 4 =? 1] =>
      destruct (Z.eqb_spec (K mod 4) 1) end;
    Z.div_mod_to_equations; lia.
Qed.

Lemma shr_1_code mrs :
  0 <= shr_m mrs ->
  record_code (shr_1 mrs) = sh (record_code mrs) /\ 0 <= shr_m (shr_1 mrs).
Proof.
  destruct mrs as [m r s]. cbn [shr_m]. intros Hm.
  rewrite shr_1_spec by exact Hm. unfold record_code. cbn [shr_m shr_r shr_s].
  rewrite sh_code by exact Hm. split; [reflexivity|].
  apply Z.div_pos; lia.
Qed.
Lemma iter_pos_nat {A} (f : A -> A) p x :
  SpecFloat.iter_pos f p x = Nat.iter (Pos.to_nat p) f x.
Proof.
  revert x. induction p as [p IH|p IH|]; intros x; cbn [SpecFloat.iter_pos].
  - rewrite !IH, Pos2Nat.inj_xI.
    replace (S (2 * Pos.to_nat p)) with (Pos.to_nat p + (Pos.to_nat p + 1))%nat by lia.
    rewrite !Nat.iter_add. reflexivity.
  - rewrite !IH, Pos2Nat.inj_xO.
    replace (2 * Pos.to_nat p)%nat with (Pos.to_nat p + Pos.to_nat p)%nat by lia.
    rewrite Nat.iter_add. reflexivity.
  - reflexivity.
Qed.

Lemma iter_shr_1_code n mrs :
  0 <= shr_m mrs ->
  record_code (Nat.iter n shr_1 mrs) = Nat.iter n sh (record_code mrs) /\
  0 <= shr_m (Nat.iter n shr_1 mrs).
Proof.
  intros Hm. induction n as [|n [IH1 IH2]]; [split; [reflexivity|exact Hm]|].
  rewrite !Nat.iter_succ.
  destruct (shr_1_code _ IH2) as [E1 E2]. rewrite E1, IH1. split; [reflexivity|exact E2].
Qed.

Lemma round_nearest_even_code mrs :
  0 <= shr_m mrs ->
  round_nearest_even (shr_m mrs) (loc_of_shr_record mrs) = rne (record_code mrs).
Proof.
  destruct mrs as [m r s]. cbn [shr_m]. intros Hm. unfold rne, record_code.
  cbn [shr_m shr_r shr_s].
  destruct r, s; cbn [loc_of_shr_record round_nearest_even].
  - replace ((4 * m + 2 + 1) / 4) with m by (Z.div_mod_to_equations; lia).
    replace ((4 * m + 2 + 1) mod 4) with 3 by (Z.div_mod_to_equations; lia).
    reflexivity.
  - replace ((4 * m + 2 + 0) / 4) with m by (Z.div_mod_to_equations; lia).
    replace ((4 * m + 2 + 0) mod 4) with 2 by (Z.div_mod_to_equations; lia).
    cbn. rewrite <- Z.negb_even. destruct (Z.even m); cbn; lia.
  - replace ((4 * m + 0 + 1) / 4) with m by (Z.div_mod_to_equations; lia).
    replace ((4 * m + 0 + 1) mod 4) with 1 by (Z.div_mod_to_equations; lia).
    cbn. lia.
  - replace ((4 * m + 0 + 0) / 4) with m by (Z.div_mod_to_equations; lia).
    replace ((4 * m + 0 + 0) mod 4) with 0 by (Z.div_mod_to_equations; lia).
    cbn. lia.
Qed.

(** ** The sticky shift *)

Lemma sh_nonneg K : 0 <= K -> 0 <= sh K.
Proof.
  intros H. unfold sh. destruct (K mod 4 =? 1); Z.div_mod_to_equations; lia.
Qed.

Lemma sh_mono K K' : 0 <= K -> K <= K' -> sh K <= sh K'.
Proof.
  intros H H'. unfold sh.
  destruct (Z.eqb_spec (K mod 4) 1), (Z.eqb_spec (K' mod 4) 1);
    Z.div_mod_to_equations; lia.
Qed.

Lemma sh_double X : sh (2 * X) = X.
Proof.
  unfold sh. destruct (Z.eqb_spec ((2 * X) mod 4) 1); Z.div_mod_to_equations; lia.
Qed.

Lemma pow2_pos a : 0 <= a -> 0 < 2 ^ a.
Proof. intros H. apply Z.pow_pos_nonneg; lia. Qed.

Lemma pow2_S a : 0 <= a -> 2 ^ (a + 1) = 2 * 2 ^ a.
Proof. intros H. rewrite Z.pow_add_r by lia. change (2 ^ 1) with 2. lia. Qed.

Lemma pow2_le a b : 0 <= a <= b -> 2 ^ a <= 2 ^ b.
Proof. intros H. apply Z.pow_le_mono_r; lia. Qed.

Lemma pow2_lt a b : 0 <= a < b -> 2 ^ a < 2 ^ b.
Proof. intros H. apply Z.pow_lt_mono_r; lia. Qed.

Lemma sh_upper K a : 0 <= K < 2 ^ (a + 1) -> 1 <= a -> sh K < 2 ^ a.
Proof.
  intros H Ha. rewrite pow2_S in H by lia.
  replace a with ((a - 1) + 1) in * by lia. rewrite pow2_S in * by lia.
  pose proof (pow2_pos (a - 1) ltac:(lia)).
  set (P := 2 ^ (a - 1)) in *. clearbody P.
  unfold sh. destruct (Z.eqb_spec (K mod 4) 1); Z.div_mod_to_equations; lia.
Qed.

Lemma sh_small K : 0 <= K < 2 -> sh K < 2.
Proof.
  intros H. unfold sh. destruct (Z.eqb_spec (K mod 4) 1); Z.div_mod_to_equations; lia.
Qed.

Lemma sh_lower K a : 2 ^ (a + 1) <= K -> 0 <= a -> 2 ^ a <= sh K.
Proof.
  intros H Ha. rewrite pow2_S in H by lia.
  pose proof (pow2_pos a Ha).
  unfold sh. destruct (Z.eqb_spec (K mod 4) 1); Z.div_mod_to_equations; lia.
Qed.

Lemma shn_S n K : shn (S n) K = sh (shn n K).
Proof. reflexivity. Qed.

Lemma shn_S_r n K : shn (S n) K = shn n (sh K).
Proof. unfold shn. apply Nat.iter_succ_r. Qed.

Lemma shn_nonneg n K : 0 <= K -> 0 <= shn n K.
Proof.
  intros H. induction n as [|n IH]; [exact H|]. rewrite shn_S. apply sh_nonneg, IH.
Qed.

Lemma shn_mono n K K' : 0 <= K -> K <= K' -> shn n K <= shn n K'.
Proof.
  intros H H'. induction n as [|n IH]; [exact H'|]. rewrite !shn_S.
  apply sh_mono; [apply shn_nonneg, H|exact IH].
Qed.

Lemma sh_le K : 0 <= K -> sh K <= K.
Proof.
  intros H. unfold sh. destruct (Z.eqb_spec (K mod 4) 1); Z.div_mod_to_equations; lia.
Qed.

Lemma shn_le n K : 0 <= K -> shn n K <= K.
Proof.
  intros H. induction n as [|n IH]; [change (shn 0 K) with K; lia|].
  rewrite shn_S. pose proof (sh_le (shn n K) (shn_nonneg n K H)). lia.
Qed.

Lemma shn_pow2 n X : shn n (X * 2 ^ Z.of_nat n) = X.
Proof.
  revert X. induction n as [|n IH]; intros X.
  - change (shn 0 (X * 2 ^ Z.of_nat 0)) with (X * 1). lia.
  - rewrite shn_S_r. replace (Z.of_nat (S n)) with (Z.of_nat n + 1) by lia.
    rewrite pow2_S by lia.
    replace (X * (2 * 2 ^ Z.of_nat n)) with (2 * (X * 2 ^ Z.of_nat n)) by lia.
    rewrite sh_double. apply IH.
Qed.

Lemma shn_add n n' K : shn (n + n') K = shn n (shn n' K).
Proof. unfold shn. apply Nat.iter_add. Qed.

Lemma shn_upper n K a :
  0 <= K < 2 ^ a -> 1 <= a - Z.of_nat n -> shn n K < 2 ^ (a - Z.of_nat n).
Proof.
  revert a. induction n as [|n IH]; intros a H Ha.
  - change (shn 0 K) with K. change (Z.of_nat 0) with 0. rewrite Z.sub_0_r. lia.
  - rewrite shn_S.
    apply sh_upper.
    + split; [apply shn_nonneg; lia|].
      replace (a - Z.of_nat (S n) + 1) with (a - Z.of_nat n) by lia.
      apply IH; lia.
    + lia.
Qed.

(** Shifted far enough, everything ends below 2. *)
Lemma shn_upper_small n K a :
  0 <= K < 2 ^ a -> 0 <= a -> a - Z.of_nat n <= 1 -> shn n K < 2.
Proof.
  revert a. induction n as [|n IH]; intros a H Ha0 Ha.
  - change (shn 0 K) with K. change (Z.of_nat 0) with 0 in Ha.
    assert (2 ^ a <= 2 ^ 1) by (apply pow2_le; lia). change (2 ^ 1) with 2 in *. lia.
  - rewrite shn_S.
    destruct (Z.le_gt_cases (a - Z.of_nat n) 1) as [Hle|Hgt].
    + apply sh_small. split; [apply shn_nonneg; lia|]. apply (IH a); lia.
    + assert (E : a - Z.of_nat n = 2) by lia.
      pose proof (shn_upper n K a H ltac:(lia)) as Hu. rewrite E in Hu.
      apply (sh_upper _ 1); [|lia].
      split; [apply shn_nonneg; lia|exact Hu].
Qed.

Lemma shn_lower n K a :
  2 ^ a <= K -> 0 <= a - Z.of_nat n -> 2 ^ (a - Z.of_nat n) <= shn n K.
Proof.
  revert a. induction n as [|n IH]; intros a H Ha.
  - change (shn 0 K) with K. change (Z.of_nat 0) with 0. rewrite Z.sub_0_r. lia.
  - rewrite shn_S. apply sh_lower; [|lia].
    replace (a - Z.of_nat (S n) + 1) with (a - Z.of_nat n) by lia.
    apply IH; lia.
Qed.

(** ** Rounding to nearest, ties to even *)

Lemma rne_bounds K : K / 4 <= rne K <= K / 4 + 1.
Proof. unfold rne. destruct (_ || _); lia. Qed.

Lemma rne_exact m : rne (4 * m) = m.
Proof.
  unfold rne.
  replace (4 * m / 4) with m by (Z.div_mod_to_equations; lia).
  replace ((4 * m) mod 4) with 0 by (Z.div_mod_to_equations; lia).
  cbn. lia.
Qed.

Lemma rne_mono K K' : K <= K' -> rne K <= rne K'.
Proof.
  intros H. unfold rne.
  destruct (Z.eq_dec (K / 4) (K' / 4)) as [E|E].
  - rewrite E.
    destruct (Z.eqb_spec (K mod 4) 3), (Z.eqb_spec (K mod 4) 2),
             (Z.eqb_spec (K' mod 4) 3), (Z.eqb_spec (K' mod 4) 2);
      cbn [orb andb]; destruct (Z.odd (K' / 4)); cbn [orb andb];
      Z.div_mod_to_equations; lia.
  - assert (K / 4 + 1 <= K' / 4) by (Z.div_mod_to_equations; lia).
    destruct (_ || _), (_ || _); lia.
Qed.

Lemma rne_upper K X : K < 4 * X -> rne K <= X.
Proof.
  intros H. pose proof (rne_bounds K). assert (K / 4 < X) by (Z.div_mod_to_equations; lia). lia.
Qed.

Lemma rne_lower K X : 4 * X <= K -> X <= rne K.
Proof.
  intros H. pose proof (rne_bounds K). assert (X <= K / 4) by (Z.div_mod_to_equations; lia). lia.
Qed.

(** ** binary_round_aux on codes *)

Lemma record_code_div4 mrs : record_code mrs / 4 = shr_m mrs.
Proof.
  destruct mrs as [m r s]. unfold record_code. cbn [shr_m shr_r shr_s].
  destruct r, s; Z.div_mod_to_equations; lia.
Qed.

Lemma shr_code mrs e n :
  0 <= shr_m mrs ->
  record_code (fst (shr mrs e n)) = fst (shift_code (record_code mrs) e n) /\
  snd (shr mrs e n) = snd (shift_code (record_code mrs) e n) /\
  0 <= shr_m (fst (shr mrs e n)).
Proof.
  intros Hm. unfold shr, shift_code. destruct n as [|p|p]; cbn [Z.ltb Z.compare fst snd].
  - auto.
  - rewrite iter_pos_nat. destruct (iter_shr_1_code (Pos.to_nat p) mrs Hm) as [E1 E2].
    cbn [Z.to_nat]. unfold shn. auto.
  - auto.
Qed.

Lemma binary_round_aux_code sx m e l :
  0 <= m ->
  binary_round_aux 24 128 sx m e l = decode_float sx (round_core (4 * m + loc_code l) e).
Proof.
  intros Hm. unfold binary_round_aux, shr_fexp, round_core.
  change (fexp 24 128) with fexp32.
  replace ((4 * m + loc_code l) / 4) with m
    by (destruct l as [|[| |]]; cbn [loc_code]; Z.div_mod_to_equations; lia).
  rewrite <- record_code_of_loc.
  assert (Hm0 : 0 <= shr_m (shr_record_of_loc m l)) by (destruct l as [|[| |]]; exact Hm).
  destruct (shr_code (shr_record_of_loc m l) e (fexp32 (Zdigits2 m + e) - e) Hm0)
    as (E1 & E2 & E3).
  destruct (shr (shr_record_of_loc m l) e (fexp32 (Zdigits2 m + e) - e)) as [mrs' e'].
  destruct (shift_code (record_code (shr_record_of_loc m l)) e
              (fexp32 (Zdigits2 m + e) - e)) as [K1 e1].
  cbn [fst snd] in E1, E2, E3. subst K1 e1.
  rewrite round_nearest_even_code by exact E3.
  set (m1 := rne (record_code mrs')).
  assert (Hm1 : 0 <= m1).
  { subst m1. pose proof (rne_bounds (record_code mrs')).
    rewrite record_code_div4 in H. lia. }
  assert (Hm1' : 0 <= shr_m (shr_record_of_loc m1 loc_Exact)) by exact Hm1.
  destruct (shr_code (shr_record_of_loc m1 loc_Exact) e' (fexp32 (Zdigits2 m1 + e') - e') Hm1')
    as (F1 & F2 & F3).
  rewrite record_code_of_loc in F1, F2. cbn [loc_code] in F1, F2.
  rewrite Z.add_0_r in F1, F2.
  destruct (shr (shr_record_of_loc m1 loc_Exact) e' (fexp32 (Zdigits2 m1 + e') - e'))
    as [mrs'' e''].
  destruct (shift_code (4 * m1) e' (fexp32 (Zdigits2 m1 + e') - e')) as [K2 e2].
  cbn [fst snd] in F1, F2, F3. subst K2 e2.
  rewrite record_code_div4. unfold decode_float. cbn [fst snd]. reflexivity.
Qed.

(** ** The two stages of rounding *)

Lemma round_core_stages K e : round_core K e = normalize (stage1 K e).
Proof.
  unfold round_core, normalize, stage1.
  destruct (shift_code K e _) as [K1 e1]. reflexivity.
Qed.

Lemma code_bounds K :
  4 <= K ->
  let d := Zdigits2 (K / 4) in
  1 <= d /\ 2 ^ (d + 1) <= K < 2 ^ (d + 2).
Proof.
  intros HK d.
  assert (Hm : 0 < K / 4) by (Z.div_mod_to_equations; lia).
  pose proof (Zdigits2_pos _ Hm). pose proof (Zdigits2_bounds _ Hm) as [Hl Hu].
  fold d in H, Hl, Hu.
  replace (d + 1) with ((d - 1) + 1 + 1) by lia.
  replace (d + 2) with (d + 1 + 1) by lia.
  rewrite !pow2_S by lia.
  split; [lia|]. Z.div_mod_to_equations; lia.
Qed.

Lemma stage1_bounds_large K e :
  4 <= K ->
  let te := fexp32 (Zdigits2 (K / 4) + e) in
  0 <= fst (stage1 K e) <= 2 ^ 24 /\
  snd (stage1 K e) = Z.max e te /\
  (e < te -> -149 < te -> 2 ^ 23 <= fst (stage1 K e)).
Proof.
  intros HK te. destruct (code_bounds K HK) as (Hd & Hl & Hu).
  set (d := Zdigits2 (K / 4)) in *.
  unfold stage1, shift_code. fold d. fold te.
  assert (Hte : te = Z.max (d + e - 24) (-149)) by reflexivity.
  destruct (Z.ltb_spec 0 (te - e)) as [Hn|Hn]; cbn [fst snd].
  - assert (Hnn : Z.of_nat (Z.to_nat (te - e)) = te - e) by lia.
    assert (H0 : 0 <= shn (Z.to_nat (te - e)) K) by (apply shn_nonneg; lia).
    split; [|split; [lia|]].
    + split; [pose proof (rne_bounds (shn (Z.to_nat (te - e)) K));
              assert (0 <= shn (Z.to_nat (te - e)) K / 4) by (apply Z.div_pos; lia); lia|].
      destruct (Z.le_gt_cases (d + 2 - (te - e)) 1) as [Hs|Hs].
      * pose proof (shn_upper_small (Z.to_nat (te - e)) K (d + 2) ltac:(lia) ltac:(lia)
                      ltac:(lia)).
        apply rne_upper. change (2 ^ 24) with 16777216. lia.
      * pose proof (shn_upper (Z.to_nat (te - e)) K (d + 2) ltac:(lia) ltac:(lia)) as Hup.
        rewrite Hnn in Hup.
        assert (2 ^ (d + 2 - (te - e)) <= 2 ^ 26) by (apply pow2_le; lia).
        apply rne_upper. change (4 * 2 ^ 24) with (2 ^ 26). lia.
    + intros _ Hnorm.
      assert (Ete : te - e = d - 24) by lia.
      pose proof (shn_lower (Z.to_nat (te - e)) K (d + 1) Hl ltac:(lia)) as Hlo.
      rewrite Hnn in Hlo. replace (d + 1 - (te - e)) with 25 in Hlo by lia.
      apply rne_lower. change (4 * 2 ^ 23) with (2 ^ 25). exact Hlo.
  - split; [|split; [lia|lia]].
    assert (d <= 24) by lia.
    assert (2 ^ (d + 2) <= 2 ^ 26) by (apply pow2_le; lia).
    pose proof (rne_bounds K).
    assert (0 <= K / 4) by (apply Z.div_pos; lia).
    split; [lia|]. apply rne_upper. change (4 * 2 ^ 24) with (2 ^ 26). lia.
Qed.

Lemma stage1_bounds K e :
  0 <= K ->
  let te := fexp32 (Zdigits2 (K / 4) + e) in
  0 <= fst (stage1 K e) <= 2 ^ 24 /\
  snd (stage1 K e) = Z.max e te /\
  (e < te -> -149 < te -> 2 ^ 23 <= fst (stage1 K e)).
Proof.
  intros HK. destruct (Z.le_gt_cases 4 K) as [H4|H4]; [apply stage1_bounds_large, H4|].
  intros te. unfold te.
  replace (K / 4) with 0 by (Z.div_mod_to_equations; lia).
  unfold stage1, shift_code.
  replace (K / 4) with 0 by (Z.div_mod_to_equations; lia).
  change (Zdigits2 0) with 0. rewrite Z.add_0_l.
  assert (Hr : forall K1, 0 <= K1 <= 3 -> 0 <= rne K1 <= 2 ^ 24).
  { intros K1 H1. pose proof (rne_bounds K1).
    assert (K1 / 4 = 0) by (Z.div_mod_to_equations; lia).
    change (2 ^ 24) with 16777216. lia. }
  destruct (Z.ltb_spec 0 (fexp32 e - e)) as [Hn|Hn]; cbn [fst snd].
  - split; [|split; [lia|unfold fexp32 in *; lia]].
    apply Hr. pose proof (shn_nonneg (Z.to_nat (fexp32 e - e)) K HK).
    pose proof (shn_le (Z.to_nat (fexp32 e - e)) K HK). lia.
  - split; [apply Hr; lia|]. split; [lia|unfold fexp32 in *; lia].
Qed.

Lemma stage1_exponent_ge K e : 0 <= K -> -149 <= snd (stage1 K e).
Proof.
  intros HK. destruct (stage1_bounds K e HK) as (_ & -> & _). unfold fexp32. lia.
Qed.

Lemma normalize_small m1 e1 :
  0 <= m1 < 2 ^ 24 -> -149 <= e1 -> normalize (m1, e1) = (m1, e1).
Proof.
  intros Hm He. unfold normalize, shift_code.
  assert (Hd : Zdigits2 m1 <= 24).
  { destruct (Z.eq_dec m1 0) as [->|Hne]; [cbn; lia|].
    pose proof (Zdigits2_bounds m1 ltac:(lia)) as [Hl _].
    destruct (Z.le_gt_cases (Zdigits2 m1) 24) as [H|H]; [exact H|].
    assert (2 ^ 24 <= 2 ^ (Zdigits2 m1 - 1)) by (apply pow2_le; lia). lia. }
  destruct (Z.ltb_spec 0 (fexp32 (Zdigits2 m1 + e1) - e1)) as [Hn|Hn].
  - unfold fexp32 in Hn. lia.
  - f_equal. Z.div_mod_to_equations; lia.
Qed.

Lemma normalize_carry e1 :
  -149 <= e1 -> normalize (2 ^ 24, e1) = (2 ^ 23, e1 + 1).
Proof.
  intros He. unfold normalize, shift_code.
  change (Zdigits2 (2 ^ 24)) with 25.
  replace (fexp32 (25 + e1) - e1) with 1 by (unfold fexp32; lia).
  reflexivity.
Qed.

(** ** Rounding is monotone *)

Lemma stage1_mono K K' e :
  0 <= K -> K <= K' -> pre_le (stage1 K e) (stage1 K' e).
Proof.
  intros HK HKK'.
  assert (HK' : 0 <= K') by lia.
  destruct (stage1_bounds K e HK) as (Hb & He & _).
  destruct (stage1_bounds K' e HK') as (Hb' & He' & Hn').
  assert (Hdd : Zdigits2 (K / 4) <= Zdigits2 (K' / 4)).
  { destruct (Z.le_gt_cases 4 K) as [H4|H4].
    - apply Zdigits2_le; Z.div_mod_to_equations; lia.
    - replace (K / 4) with 0 by (Z.div_mod_to_equations; lia).
      apply Zdigits2_nonneg. }
  set (d := Zdigits2 (K / 4)) in *. set (d' := Zdigits2 (K' / 4)) in *.
  set (te := fexp32 (d + e)) in *. set (te' := fexp32 (d' + e)) in *.
  assert (Hte : te = Z.max (d + e - 24) (-149)) by reflexivity.
  assert (Hte' : te' = Z.max (d' + e - 24) (-149)) by reflexivity.
  destruct (Z.eq_dec te te') as [E|E].
  - left. split; [lia|].
    unfold stage1, shift_code. fold d d' te te'. rewrite <- E.
    destruct (0 <? te - e); cbn [fst].
    + apply rne_mono, shn_mono; lia.
    + apply rne_mono; lia.
  - destruct (Z.le_gt_cases te' e) as [Hle|Hgt].
    + left. split; [lia|].
      unfold stage1, shift_code. fold d d' te te'.
      destruct (Z.ltb_spec 0 (te - e)); [lia|].
      destruct (Z.ltb_spec 0 (te' - e)); [lia|].
      cbn [fst]. apply rne_mono; lia.
    + right. split; [lia|]. apply Hn'; lia.
Qed.

Lemma normalize_le a b :
  pre_le a b ->
  0 <= fst a <= 2 ^ 24 -> -149 <= snd a ->
  0 <= fst b <= 2 ^ 24 -> -149 <= snd b ->
  lex_le (normalize a) (normalize b).
Proof.
  destruct a as [ma ea], b as [mb eb]. unfold pre_le. cbn [fst snd].
  change (2 ^ 24) with 16777216. change (2 ^ 23) with 8388608.
  intros Hle Ha Hea Hb Heb.
  assert (Na : normalize (ma, ea) = (if ma <? 16777216 then (ma, ea) else (8388608, ea + 1))).
  { destruct (Z.ltb_spec ma 16777216).
    - apply normalize_small; [change (2 ^ 24) with 16777216; lia|lia].
    - replace ma with (2 ^ 24) by (change (2 ^ 24) with 16777216; lia).
      apply normalize_carry; lia. }
  assert (Nb : normalize (mb, eb) = (if mb <? 16777216 then (mb, eb) else (8388608, eb + 1))).
  { destruct (Z.ltb_spec mb 16777216).
    - apply normalize_small; [change (2 ^ 24) with 16777216; lia|lia].
    - replace mb with (2 ^ 24) by (change (2 ^ 24) with 16777216; lia).
      apply normalize_carry; lia. }
  rewrite Na, Nb. unfold lex_le.
  destruct (Z.ltb_spec ma 16777216), (Z.ltb_spec mb 16777216); cbn [fst snd]; lia.
Qed.

Lemma decode_le a b :
  lex_le a b -> 0 <= fst a -> 0 <= fst b ->
  SFleb (decode_float false a) (decode_float false b) = true /\
  SFleb (decode_float true b) (decode_float true a) = true.
Proof.
  destruct a as [ma ea], b as [mb eb]. unfold lex_le, decode_float. cbn [fst snd].
  intros Hle Ha Hb.
  destruct ma as [|pa|pa]; [|destruct mb as [|pb|pb]|]; try lia.
  - destruct mb as [|pb|pb]; try lia.
    + split; reflexivity.
    + destruct (eb <=? 104); split; reflexivity.
  - destruct Hle as [Hle|(_ & _ & Hle)]; [lia|].
    destruct (Z.leb_spec ea 104), (Z.leb_spec eb 104); try lia; try (split; reflexivity).
    unfold SFleb, SFcompare.
    destruct Hle as [Hlt|[-> Hm]].
    + rewrite (proj2 (Z.compare_lt_iff ea eb) Hlt).
      rewrite (proj2 (Z.compare_gt_iff eb ea) Hlt). split; reflexivity.
    + rewrite Z.compare_refl.
      change (Pos.compare_cont Eq pa pb) with (Pos.compare pa pb).
      change (Pos.compare_cont Eq pb pa) with (Pos.compare pb pa).
      rewrite (Pos.compare_antisym pa pb).
      destruct (Pos.compare_spec pa pb); cbn; try (split; reflexivity). lia.
Qed.

Lemma round_core_mono K K' e :
  0 <= K -> K <= K' ->
  SFleb (decode_float false (round_core K e)) (decode_float false (round_core K' e)) = true /\
  SFleb (decode_float true (round_core K' e)) (decode_float true (round_core K e)) = true.
Proof.
  intros HK HKK'. assert (HK' : 0 <= K') by lia.
  rewrite !round_core_stages.
  pose proof (stage1_mono K K' e HK HKK') as Hpre.
  destruct (stage1_bounds K e HK) as (Hb & _ & _).
  destruct (stage1_bounds K' e HK') as (Hb' & _ & _).
  pose proof (stage1_exponent_ge K e HK) as He.
  pose proof (stage1_exponent_ge K' e HK') as He'.
  pose proof (normalize_le _ _ Hpre Hb He Hb' He') as Hlex.
  apply decode_le; [exact Hlex| |].
  - destruct Hlex as [->|(? & _)]; lia.
  - destruct (stage1 K' e) as [m e1]. cbn [fst snd] in *.
    destruct (Z.ltb_spec m (2 ^ 24)).
    + rewrite normalize_small by lia. cbn. lia.
    + replace m with (2 ^ 24) by lia. rewrite normalize_carry by lia. cbn. lia.
Qed.

(** ** Aligned inputs: validity, invariance, no underflow *)

Lemma stage1_normal K e :
  4 <= K ->
  let te := fexp32 (Zdigits2 (K / 4) + e) in
  e <= te -> -149 < te -> 2 ^ 23 <= fst (stage1 K e).
Proof.
  intros HK te Hal Hnorm.
  destruct (Z.eq_dec e te) as [E|E].
  - destruct (code_bounds K HK) as (Hd & Hl & Hu).
    unfold stage1, shift_code. fold te.
    destruct (Z.ltb_spec 0 (te - e)); [lia|]. cbn [fst].
    assert (Zdigits2 (K / 4) = 24) by (unfold te, fexp32 in *; lia).
    rewrite H0 in Hl. apply rne_lower. change (4 * 2 ^ 23) with (2 ^ (24 + 1)). exact Hl.
  - destruct (stage1_bounds_large K e HK) as (_ & _ & Hn). apply Hn; fold te; lia.
Qed.

Lemma round_core_exponent K e :
  4 <= K ->
  let te := fexp32 (Zdigits2 (K / 4) + e) in
  let m1 := fst (stage1 K e) in
  round_core K e =
    if m1 <? 2 ^ 24 then (m1, Z.max e te) else (2 ^ 23, Z.max e te + 1).
Proof.
  intros HK te m1. rewrite round_core_stages.
  destruct (stage1_bounds_large K e HK) as (Hb & He & _). fold te in He. fold m1 in Hb.
  pose proof (stage1_exponent_ge K e ltac:(lia)) as Hge.
  destruct (stage1 K e) as [m e1] eqn:Es. cbn [fst snd] in *. subst m1 e1.
  destruct (Z.ltb_spec m (2 ^ 24)).
  - apply normalize_small; lia.
  - replace m with (2 ^ 24) by lia. apply normalize_carry. lia.
Qed.

Lemma Zdigits2_range m lo :
  0 <= lo -> 2 ^ lo <= m < 2 ^ (lo + 1) -> Zdigits2 m = lo + 1.
Proof.
  intros Hlo H. apply Zdigits2_unique.
  - replace (lo + 1 - 1) with lo by lia. exact H.
  - pose proof (pow2_pos lo Hlo). lia.
Qed.

Lemma round_core_valid sx K e :
  4 <= K -> e <= fexp32 (Zdigits2 (K / 4) + e) ->
  valid_binary 24 128 (decode_float sx (round_core K e)) = true.
Proof.
  intros HK Hal. rewrite (round_core_exponent K e HK).
  destruct (stage1_bounds_large K e HK) as (Hb & _ & _).
  pose proof (stage1_normal K e HK Hal) as Hnorm.
  set (te := fexp32 (Zdigits2 (K / 4) + e)) in *.
  set (m1 := fst (stage1 K e)) in *.
  assert (Hte : -149 <= te) by (unfold te, fexp32; lia).
  replace (Z.max e te) with te by lia.
  assert (Hcanon : forall m ex, 0 < m < 2 ^ 24 -> -149 <= ex ->
            (-149 < ex -> 2 ^ 23 <= m) -> fexp32 (Zdigits2 m + ex) = ex).
  { intros m ex Hm Hex Hn.
    destruct (Z.eq_dec ex (-149)) as [->|Hne].
    - assert (Zdigits2 m <= 24).
      { pose proof (Zdigits2_bounds m ltac:(lia)) as [Hl _].
        destruct (Z.le_gt_cases (Zdigits2 m) 24) as [H|H]; [exact H|].
        assert (2 ^ 24 <= 2 ^ (Zdigits2 m - 1)) by (apply pow2_le; lia). lia. }
      unfold fexp32. lia.
    - rewrite (Zdigits2_range m 23) by (change (2 ^ (23 + 1)) with (2 ^ 24); lia).
      unfold fexp32. lia. }
  unfold decode_float.
  destruct (Z.ltb_spec m1 (2 ^ 24)); cbn [fst snd].
  - destruct m1 as [|p|p] eqn:Em; try reflexivity.
    destruct (Z.leb_spec te 104); [|reflexivity].
    cbn [valid_binary]. unfold bounded, canonical_mantissa.
    change (fexp 24 128) with fexp32.
    change (Z.pos (digits2_pos p)) with (Zdigits2 (Z.pos p)).
    rewrite Hcanon by lia. rewrite Z.eqb_refl. cbn. apply Z.leb_le. lia.
  - change (2 ^ 23) with 8388608.
    destruct (Z.leb_spec (te + 1) 104); [|reflexivity].
    cbn [valid_binary]. unfold bounded, canonical_mantissa.
    change (fexp 24 128) with fexp32.
    change (Z.pos (digits2_pos 8388608)) with 24.
    replace (fexp32 (24 + (te + 1))) with (te + 1) by (unfold fexp32; lia).
    rewrite Z.eqb_refl. cbn. apply Z.leb_le. lia.
Qed.

Lemma stage1_shift m e k :
  0 < m -> 0 <= k -> e <= fexp32 (Zdigits2 m + e) ->
  stage1 (4 * (m * 2 ^ k)) (e - k) = stage1 (4 * m) e.
Proof.
  intros Hm Hk Hal. unfold stage1, shift_code.
  replace (4 * (m * 2 ^ k) / 4) with (m * 2 ^ k) by (Z.div_mod_to_equations; lia).
  replace (4 * m / 4) with m by (Z.div_mod_to_equations; lia).
  rewrite Zdigits2_mul_pow2 by lia.
  replace (Zdigits2 m + k + (e - k)) with (Zdigits2 m + e) by lia.
  set (te := fexp32 (Zdigits2 m + e)) in *.
  assert (Hsh : shn (Z.to_nat k) (4 * (m * 2 ^ k)) = 4 * m).
  { replace (4 * (m * 2 ^ k)) with (4 * m * 2 ^ Z.of_nat (Z.to_nat k))
      by (rewrite Z2Nat.id by lia; lia).
    apply shn_pow2. }
  destruct (Z.ltb_spec 0 (te - e)) as [Hn|Hn].
  - destruct (Z.ltb_spec 0 (te - (e - k))); [|lia].
    replace (Z.to_nat (te - (e - k))) with (Z.to_nat (te - e) + Z.to_nat k)%nat by lia.
    rewrite shn_add, Hsh. f_equal. lia.
  - clearbody te. assert (te = e) by lia. subst e.
    destruct (Z.ltb_spec 0 (te - (te - k))) as [Hk'|Hk'].
    + replace (te - (te - k)) with k by lia. rewrite Hsh. f_equal. lia.
    + assert (k = 0) by lia. subst k. rewrite Z.mul_1_r, Z.sub_0_r. reflexivity.
Qed.

Lemma round_core_shift m e k :
  0 < m -> 0 <= k -> e <= fexp32 (Zdigits2 m + e) ->
  round_core (4 * (m * 2 ^ k)) (e - k) = round_core (4 * m) e.
Proof.
  intros. rewrite !round_core_stages, stage1_shift by assumption. reflexivity.
Qed.

Lemma round_core_nonzero m e :
  0 < m -> -149 <= e -> e <= fexp32 (Zdigits2 m + e) ->
  0 < fst (round_core (4 * m) e).
Proof.
  intros Hm He Hal.
  assert (HK : 4 <= 4 * m) by lia.
  rewrite (round_core_exponent _ e HK).
  replace (4 * m / 4) with m by (Z.div_mod_to_equations; lia).
  set (te := fexp32 (Zdigits2 m + e)) in *.
  destruct (Z.ltb_spec (fst (stage1 (4 * m) e)) (2 ^ 24)); cbn [fst]; [|reflexivity].
  destruct (Z.eq_dec e te) as [E|E].
  - unfold stage1, shift_code.
    replace (4 * m / 4) with m by (Z.div_mod_to_equations; lia). fold te.
    destruct (Z.ltb_spec 0 (te - e)); [lia|]. cbn [fst]. rewrite rne_exact. exact Hm.
  - pose proof (stage1_normal (4 * m) e HK) as Hn. cbv zeta in Hn.
    replace (4 * m / 4) with m in Hn by (Z.div_mod_to_equations; lia). fold te in Hn.
    specialize (Hn Hal ltac:(lia)). change (2 ^ 23) with 8388608 in Hn. lia.
Qed.

(** ** binary_round and binary_normalize *)

Lemma round_core_nonneg K e : 0 <= K -> 0 <= fst (round_core K e).
Proof.
  intros HK. unfold round_core, shift_code.
  assert (H1 : 0 <= fst (if 0 <? fexp32 (Zdigits2 (K / 4) + e) - e
                         then (shn (Z.to_nat (fexp32 (Zdigits2 (K / 4) + e) - e)) K,
                               e + (fexp32 (Zdigits2 (K / 4) + e) - e))
                         else (K, e))).
  { destruct (0 <? _); cbn [fst]; [apply shn_nonneg|]; lia. }
  destruct (if 0 <? fexp32 (Zdigits2 (K / 4) + e) - e then _ else _) as [K1 e1].
  cbn [fst] in H1.
  assert (Hm1 : 0 <= rne K1).
  { pose proof (rne_bounds K1). assert (0 <= K1 / 4) by (apply Z.div_pos; lia). lia. }
  destruct (0 <? _); cbn [fst]; apply Z.div_pos; try lia.
  apply shn_nonneg. lia.
Qed.

Lemma decode_has_sign sx me : 0 <= fst me -> has_sign sx (decode_float sx me).
Proof.
  destruct me as [m e]. unfold decode_float. cbn [fst snd]. intros H.
  destruct m; try lia; [reflexivity|]. destruct (e <=? 104); reflexivity.
Qed.

Lemma binary_round_aux_has_sign sx m e l :
  0 <= m -> has_sign sx (binary_round_aux 24 128 sx m e l).
Proof.
  intros Hm. rewrite binary_round_aux_code by exact Hm.
  apply decode_has_sign, round_core_nonneg.
  destruct l as [|[| |]]; cbn [loc_code]; lia.
Qed.

Lemma pos_iter_xO m d : Z.pos (Pos.iter xO m d) = Z.pos m * 2 ^ Z.pos d.
Proof.
  induction d as [|d IH] using Pos.peano_ind.
  - cbn [Pos.iter]. rewrite Pos2Z.inj_xO. change (2 ^ 1) with 2. lia.
  - rewrite Pos.iter_succ, Pos2Z.inj_xO, IH, Pos2Z.inj_succ.
    replace (Z.succ (Z.pos d)) with (Z.pos d + 1) by lia.
    rewrite pow2_S by lia. lia.
Qed.

Lemma binary_round_code sx m e j :
  Z.max 0 (e - fexp32 (Zdigits2 (Z.pos m) + e)) <= j ->
  binary_round 24 128 sx m e =
    decode_float sx (round_core (4 * (Z.pos m * 2 ^ j)) (e - j)).
Proof.
  intros Hj. unfold binary_round, shl_align.
  change (fexp 24 128) with fexp32.
  change (Z.pos (digits2_pos m)) with (Zdigits2 (Z.pos m)).
  set (te := fexp32 (Zdigits2 (Z.pos m) + e)) in *.
  destruct (te - e) as [|p|p] eqn:En.
  - rewrite binary_round_aux_code by lia. cbn [loc_code]. rewrite Z.add_0_r.
    rewrite round_core_shift; [reflexivity|lia|lia|fold te; lia].
  - rewrite binary_round_aux_code by lia. cbn [loc_code]. rewrite Z.add_0_r.
    rewrite round_core_shift; [reflexivity|lia|lia|fold te; lia].
  - rewrite binary_round_aux_code by lia. cbn [loc_code]. rewrite Z.add_0_r.
    rewrite pos_iter_xO.
    assert (Ete : e - te = Z.pos p) by lia.
    replace (Z.pos m * 2 ^ j) with (Z.pos m * 2 ^ Z.pos p * 2 ^ (j - Z.pos p))
      by (rewrite <- Z.mul_assoc, <- Z.pow_add_r by lia; f_equal; f_equal; lia).
    replace (e - j) with (te - (j - Z.pos p)) by lia.
    rewrite round_core_shift; [reflexivity| | |].
    + pose proof (pow2_pos (Z.pos p) ltac:(lia)). nia.
    + lia.
    + rewrite Zdigits2_mul_pow2 by lia.
      replace (Zdigits2 (Z.pos m) + Z.pos p + te) with (Zdigits2 (Z.pos m) + e) by lia.
      fold te. lia.
Qed.

Lemma binary_round_has_sign sx m e : has_sign sx (binary_round 24 128 sx m e).
Proof.
  rewrite (binary_round_code sx m e _ (Z.le_refl _)).
  apply decode_has_sign, round_core_nonneg.
  assert (0 < 2 ^ Z.max 0 (e - fexp32 (Zdigits2 (Z.pos m) + e))) by (apply pow2_pos; lia).
  nia.
Qed.

Lemma binary_round_valid sx m e : valid_binary 24 128 (binary_round 24 128 sx m e) = true.
Proof.
  rewrite (binary_round_code sx m e _ (Z.le_refl _)).
  set (j := Z.max 0 (e - fexp32 (Zdigits2 (Z.pos m) + e))).
  assert (Hp : 0 < 2 ^ j) by (apply pow2_pos; lia).
  apply round_core_valid; [nia|].
  replace (4 * (Z.pos m * 2 ^ j) / 4) with (Z.pos m * 2 ^ j) by (Z.div_mod_to_equations; lia).
  rewrite Zdigits2_mul_pow2 by lia.
  replace (Zdigits2 (Z.pos m) + j + (e - j)) with (Zdigits2 (Z.pos m) + e) by lia.
  lia.
Qed.

Lemma binary_round_mono m m' e :
  (m <= m')%positive ->
  SFleb (binary_round 24 128 false m e) (binary_round 24 128 false m' e) = true /\
  SFleb (binary_round 24 128 true m' e) (binary_round 24 128 true m e) = true.
Proof.
  intros Hmm.
  set (j := Z.max (Z.max 0 (e - fexp32 (Zdigits2 (Z.pos m) + e)))
                  (Z.max 0 (e - fexp32 (Zdigits2 (Z.pos m') + e)))).
  rewrite !(binary_round_code _ m e j) by lia.
  rewrite !(binary_round_code _ m' e j) by lia.
  assert (Hp : 0 < 2 ^ j) by (apply pow2_pos; lia).
  apply round_core_mono; nia.
Qed.

Lemma binary_round_nonzero sx m e :
  -149 <= e ->
  match binary_round 24 128 sx m e with S754_zero _ => False | _ => True end.
Proof.
  intros He. rewrite (binary_round_code sx m e _ (Z.le_refl _)).
  set (j := Z.max 0 (e - fexp32 (Zdigits2 (Z.pos m) + e))).
  assert (Hp : 0 < 2 ^ j) by (apply pow2_pos; lia).
  assert (Hnz : 0 < fst (round_core (4 * (Z.pos m * 2 ^ j)) (e - j))).
  { apply round_core_nonzero; [nia|unfold fexp32 in *; lia|].
    rewrite Zdigits2_mul_pow2 by lia.
    replace (Zdigits2 (Z.pos m) + j + (e - j)) with (Zdigits2 (Z.pos m) + e) by lia.
    lia. }
  unfold decode_float. destruct (fst _); try lia. destruct (_ <=? _); exact I.
Qed.

(** ** Order facts on [spec_float] *)

Lemma SFleb_refl x : x <> S754_nan -> SFleb x x = true.
Proof.
  destruct x as [s|s| |s m e]; intros H; try congruence; try (destruct s; reflexivity).
  unfold SFleb, SFcompare. rewrite Z.compare_refl, Pos.compare_cont_refl.
  destruct s; reflexivity.
Qed.

Lemma sign_le x y : has_sign true x -> has_sign false y -> SFleb x y = true.
Proof.
  destruct x as [s|s| |s m e], y as [s'|s'| |s' m' e']; cbn [has_sign];
    intros Hx Hy; try contradiction; subst; reflexivity.
Qed.

Lemma zero_le_nonneg s y : has_sign false y -> SFleb (S754_zero s) y = true.
Proof. destruct y as [s'|s'| |s' m' e']; cbn [has_sign]; intros Hy; try contradiction; subst; reflexivity. Qed.

Lemma nonpos_le_zero x s : has_sign true x -> SFleb x (S754_zero s) = true.
Proof. destruct x as [s'|s'| |s' m' e']; cbn [has_sign]; intros Hy; try contradiction; subst; reflexivity. Qed.

Lemma binary_normalize_has_sign M e :
  match M with
  | Z0 => binary_normalize 24 128 M e false = S754_zero false
  | Zpos _ => has_sign false (binary_normalize 24 128 M e false)
  | Zneg _ => has_sign true (binary_normalize 24 128 M e false)
  end.
Proof. destruct M; cbn [binary_normalize]; [reflexivity| |]; apply binary_round_has_sign. Qed.

Lemma binary_normalize_nonnan M e : binary_normalize 24 128 M e false <> S754_nan.
Proof.
  pose proof (binary_normalize_has_sign M e) as H.
  destruct M; [rewrite H; discriminate| |]; intros E; rewrite E in H; exact H.
Qed.

Lemma binary_normalize_valid M e :
  valid_binary 24 128 (binary_normalize 24 128 M e false) = true.
Proof. destruct M; cbn [binary_normalize]; [reflexivity| |]; apply binary_round_valid. Qed.

Lemma binary_normalize_mono M M' e :
  M <= M' ->
  SFleb (binary_normalize 24 128 M e false) (binary_normalize 24 128 M' e false) = true.
Proof.
  intros H.
  pose proof (binary_normalize_has_sign M e) as HM.
  pose proof (binary_normalize_has_sign M' e) as HM'.
  destruct M as [|p|p], M' as [|p'|p']; try lia.
  - reflexivity.
  - rewrite HM. apply zero_le_nonneg, HM'.
  - cbn [binary_normalize]. apply binary_round_mono. lia.
  - rewrite HM'. apply nonpos_le_zero, HM.
  - apply sign_le; assumption.
  - cbn [binary_normalize]. apply binary_round_mono. lia.
Qed.

(** ** Subtracting is below adding *)

Lemma mul_ready_valid u v :
  valid_binary 24 128 u = true -> valid_binary 24 128 v = true -> mul_ready u v.
Proof. intros Hu Hv. destruct u, v; cbn [mul_ready]; auto. Qed.

Lemma sub_le_add x s :
  nonneg s ->
  SFsub 24 128 x s <> S754_nan -> SFadd 24 128 x s <> S754_nan ->
  SFleb (SFsub 24 128 x s) (SFadd 24 128 x s) = true /\
  (SFsub 24 128 x s = SFadd 24 128 x s \/
   mul_ready (SFsub 24 128 x s) (SFadd 24 128 x s)).
Proof.
  intros Hs Hsub Hadd.
  destruct s as [ss|ss| |ss ms es]; cbn [nonneg] in Hs; try contradiction; subst.
  - (* s is a zero *)
    destruct x as [sx|sx| |sx mx ex]; cbn [SFsub SFadd] in *.
    + destruct sx, ss; cbn; auto.
    + split; [destruct sx; reflexivity|auto].
    + congruence.
    + split; [|auto]. apply SFleb_refl. discriminate.
  - (* s is +infinity *)
    destruct x as [sx|sx| |sx mx ex]; cbn [SFsub SFadd negb] in *; try congruence.
    + split; [reflexivity|right; exact I].
    + destruct sx; congruence.
    + split; [reflexivity|right; exact I].
  - (* s is finite and positive *)
    destruct x as [sx|sx| |sx mx ex]; cbn [SFsub SFadd negb] in *.
    + split; [reflexivity|right; cbn; discriminate].
    + split; [destruct sx; reflexivity|auto].
    + congruence.
    + cbn [cond_Zopp]. split.
      * apply binary_normalize_mono. lia.
      * right. apply mul_ready_valid; apply binary_normalize_valid.
Qed.

(** ** Multiplying by a non-negative number is monotone *)

Lemma valid_finite s m e :
  valid_binary 24 128 (S754_finite s m e) = true ->
  -149 <= e /\ Z.pos m < 2 ^ 24 /\ (-149 < e -> 2 ^ 23 <= Z.pos m).
Proof.
  cbn [valid_binary]. unfold bounded, canonical_mantissa.
  change (fexp 24 128) with fexp32.
  change (Z.pos (digits2_pos m)) with (Zdigits2 (Z.pos m)).
  intros H. apply andb_prop in H as [Hc _]. apply Z.eqb_eq in Hc.
  pose proof (Zdigits2_bounds (Z.pos m) ltac:(lia)) as [Hl Hu].
  unfold fexp32 in Hc.
  split; [lia|]. split.
  - assert (2 ^ Zdigits2 (Z.pos m) <= 2 ^ 24); [|lia].
    apply pow2_le. pose proof (Zdigits2_nonneg (Z.pos m)). lia.
  - intros He. assert (Zdigits2 (Z.pos m) = 24) by lia.
    rewrite H in Hl. exact Hl.
Qed.

Lemma finite_le_pos mu eu mv ev :
  SFleb (S754_finite false mu eu) (S754_finite false mv ev) = true ->
  eu < ev \/ (eu = ev /\ (mu <= mv)%positive).
Proof.
  unfold SFleb, SFcompare.
  destruct (Z.compare_spec eu ev) as [E|E|E]; intros H; try discriminate.
  - right. split; [exact E|].
    change (Pos.compare_cont Eq mu mv) with (Pos.compare mu mv) in H.
    destruct (Pos.compare_spec mu mv); try discriminate; lia.
  - left. exact E.
Qed.

Lemma finite_le_neg mu eu mv ev :
  SFleb (S754_finite true mu eu) (S754_finite true mv ev) = true ->
  SFleb (S754_finite false mv ev) (S754_finite false mu eu) = true.
Proof.
  unfold SFleb, SFcompare. rewrite (Z.compare_antisym eu ev).
  change (Pos.compare_cont Eq mv mu) with (Pos.compare mv mu).
  change (Pos.compare_cont Eq mu mv) with (Pos.compare mu mv).
  rewrite (Pos.compare_antisym mu mv).
  destruct (eu ?= ev); cbn; try (intros; reflexivity || discriminate).
  destruct (mu ?= mv)%positive; cbn; intros; reflexivity || discriminate.
Qed.

Lemma finite_mul_mono mu eu mv ev md ed :
  valid_binary 24 128 (S754_finite false mu eu) = true ->
  valid_binary 24 128 (S754_finite false mv ev) = true ->
  SFleb (S754_finite false mu eu) (S754_finite false mv ev) = true ->
  SFleb (binary_round_aux 24 128 false (Z.pos (mu * md)) (eu + ed) loc_Exact)
        (binary_round_aux 24 128 false (Z.pos (mv * md)) (ev + ed) loc_Exact) = true /\
  SFleb (binary_round_aux 24 128 true (Z.pos (mv * md)) (ev + ed) loc_Exact)
        (binary_round_aux 24 128 true (Z.pos (mu * md)) (eu + ed) loc_Exact) = true.
Proof.
  intros Hu Hv Hle.
  rewrite !binary_round_aux_code by lia. cbn [loc_code]. rewrite !Z.add_0_r.
  rewrite !Pos2Z.inj_mul.
  destruct (finite_le_pos _ _ _ _ Hle) as [Hlt|[-> Hm]].
  - apply valid_finite in Hu as (Heu & Hmu & _).
    apply valid_finite in Hv as (Hev & Hmv & Hnv).
    specialize (Hnv ltac:(lia)).
    set (k := ev - eu).
    assert (Hsh : round_core (4 * (Z.pos mv * Z.pos md)) (ev + ed)
                  = round_core (4 * (Z.pos mv * Z.pos md * 2 ^ k)) (eu + ed)).
    { replace (eu + ed) with (ev + ed - k) by (unfold k; lia).
      symmetry. apply round_core_shift; [nia|unfold k; lia|].
      assert (Hd : 24 <= Zdigits2 (Z.pos mv * Z.pos md)).
      { replace 24 with (Zdigits2 (2 ^ 23)) by reflexivity.
        apply Zdigits2_le; [reflexivity|nia]. }
      unfold fexp32. lia. }
    rewrite Hsh.
    assert (Hk : 2 <= 2 ^ k).
    { change 2 with (2 ^ 1) at 1. apply pow2_le. unfold k. lia. }
    apply round_core_mono; [nia|].
    change (2 ^ 24) with 16777216 in *. change (2 ^ 23) with 8388608 in *.
    assert (Z.pos mu <= Z.pos mv * 2 ^ k) by nia. nia.
  - apply round_core_mono; nia.
Qed.

Lemma mul_mono u v den :
  SFleb u v = true -> mul_ready u v -> has_sign false den ->
  SFmul 24 128 u den <> S754_nan -> SFmul 24 128 v den <> S754_nan ->
  SFleb (SFmul 24 128 u den) (SFmul 24 128 v den) = true.
Proof.
  intros Hle Hready Hden Hu Hv.
  destruct den as [sd|sd| |sd md ed]; cbn [has_sign] in Hden; try contradiction; subst sd.
  - (* den = +0 *)
    destruct u as [su|su| |su mu eu], v as [sv|sv| |sv mv ev];
      cbn [SFmul] in *; try congruence; reflexivity.
  - (* den = +infinity *)
    destruct u as [su|su| |su mu eu], v as [sv|sv| |sv mv ev];
      cbn [SFmul] in *; try congruence;
      destruct su, sv; try reflexivity; discriminate.
  - (* den finite and positive *)
    destruct u as [su|su| |su mu eu]; [| | discriminate |].
    + (* u is a zero *)
      destruct v as [sv|sv| |sv mv ev]; [reflexivity| |discriminate|].
      * destruct sv; [discriminate|reflexivity].
      * destruct sv; [discriminate|]. cbn [SFmul xorb].
        apply zero_le_nonneg, binary_round_aux_has_sign. lia.
    + (* u is an infinity *)
      destruct su.
      * change (SFmul 24 128 (S754_infinity true) (S754_finite false md ed))
          with (S754_infinity true).
        destruct (SFmul 24 128 v (S754_finite false md ed)) as [|s| |] eqn:E;
          try reflexivity; [destruct s; reflexivity|congruence].
      * destruct v as [sv|sv| |sv mv ev]; try discriminate.
        destruct sv; [discriminate|reflexivity].
    + (* u is finite *)
      destruct v as [sv|sv| |sv mv ev]; [| |discriminate|].
      * destruct su; [|discriminate]. cbn [SFmul xorb].
        apply nonpos_le_zero, binary_round_aux_has_sign. lia.
      * destruct sv; [destruct su; discriminate|]. cbn [SFmul xorb].
        pose proof (binary_round_aux_has_sign (xorb su false) (Z.pos (mu * md)) (eu + ed)
                      loc_Exact ltac:(lia)) as Hs.
        destruct (binary_round_aux 24 128 (xorb su false) _ _ _) as [s|s| |s m e];
          try reflexivity; try contradiction.
        destruct s; reflexivity.
      * cbn [SFmul]. destruct su, sv; cbn [xorb].
        -- destruct (Hready eq_refl) as [Vu Vv].
           apply finite_le_neg in Hle.
           apply (finite_mul_mono mv ev mu eu md ed); assumption.
        -- apply sign_le; apply binary_round_aux_has_sign; lia.
        -- discriminate.
        -- destruct (Hready eq_refl) as [Vu Vv].
           apply (finite_mul_mono mu eu mv ev md ed); assumption.
Qed.

(** ** The quadratic solver *)

Lemma has_sign_nonneg x : has_sign false x -> nonneg x.
Proof. destruct x; cbn; auto. Qed.

Lemma sqrt_nonneg d : SFsqrt 24 128 d = S754_nan \/ nonneg (SFsqrt 24 128 d).
Proof.
  destruct d as [s|s| |s m e]; cbn [SFsqrt].
  - right. exact I.
  - destruct s; [left|right]; reflexivity.
  - left. reflexivity.
  - destruct s; [left; reflexivity|right].
    destruct (SFsqrt_core_binary 24 128 (Z.pos m) e) as [[mz ez] lz] eqn:E.
    apply has_sign_nonneg, binary_round_aux_has_sign.
    unfold SFsqrt_core_binary in E.
    set (m' := match e - 2 * _ with Z.pos _ => _ | 0 => _ | Z.neg _ => _ end) in E.
    pose proof (Z.sqrtrem_spec m') as Hs.
    assert (Hm' : 0 <= m').
    { unfold m'. destruct (e - 2 * _); [lia| |lia]. apply Z.shiftl_nonneg. lia. }
    specialize (Hs Hm'). destruct (Z.sqrtrem m') as [q r]. injection E as <- _ _. lia.
Qed.

Lemma div_has_sign x y :
  has_sign false x -> has_sign false y ->
  SFdiv 24 128 x y = S754_nan \/ has_sign false (SFdiv 24 128 x y).
Proof.
  destruct x as [sx|sx| |sx mx ex], y as [sy|sy| |sy my ey]; cbn [has_sign];
    intros Hx Hy; try contradiction; subst; cbn [SFdiv xorb has_sign]; auto.
  right.
  destruct (SFdiv_core_binary 24 128 (Z.pos mx) ex (Z.pos my) ey) as [[mz ez] lz] eqn:E.
  apply binary_round_aux_has_sign.
  unfold SFdiv_core_binary in E.
  set (m' := match _ - _ - _ with Z.pos _ => _ | 0 => _ | Z.neg _ => _ end) in E.
  assert (Hm' : 0 <= m').
  { unfold m'. destruct (_ - _ - _); [lia| |lia]. apply Z.shiftl_nonneg. lia. }
  pose proof (Z_div_mod m' (Z.pos my) ltac:(lia)) as Hdm.
  destruct (Z.div_eucl m' (Z.pos my)) as [q r]. injection E as <- _ _. nia.
Qed.

Lemma mul_has_sign x y :
  has_sign false x -> has_sign false y ->
  SFmul 24 128 x y = S754_nan \/ has_sign false (SFmul 24 128 x y).
Proof.
  destruct x as [sx|sx| |sx mx ex], y as [sy|sy| |sy my ey]; cbn [has_sign];
    intros Hx Hy; try contradiction; subst; cbn [SFmul xorb has_sign]; auto.
  right. apply binary_round_aux_has_sign. lia.
Qed.

Lemma positive_has_sign a : (F32.zero <? a)%f32 = true -> has_sign false a.
Proof.
  destruct a as [s|s| |s m e]; try discriminate; destruct s; try discriminate; reflexivity.
Qed.

(** The factor [1 / (2 * a)] of the solver is never negative when [a > 0]:
    it is a positive number, +0 (when [2 * a] overflows) or +infinity (when
    [2 * a] is so small that its inverse overflows). *)
Lemma den_has_sign a :
  (F32.zero <? a)%f32 = true ->
  has_sign false (F32.of_Z 1 / (F32.of_Z 2 * a))%f32.
Proof.
  intros Ha. apply positive_has_sign in Ha.
  assert (H2 : has_sign false (F32.of_Z 2 * a)%f32).
  { destruct (mul_has_sign (F32.of_Z 2) a eq_refl Ha) as [E|H]; [|exact H].
    destruct a as [s|s| |s m e]; cbn [has_sign] in Ha; try contradiction; subst;
      try discriminate E.
    pose proof (binary_round_aux_has_sign false (Z.pos (8388608 * m)) (-22 + e) loc_Exact
                  ltac:(lia)) as Hs.
    change (SFmul 24 128 (F32.of_Z 2) (S754_finite false m e)) with
      (binary_round_aux 24 128 false (Z.pos (8388608 * m)) (-22 + e) loc_Exact) in E.
    rewrite E in Hs. contradiction. }
  destruct (div_has_sign (F32.of_Z 1) _ eq_refl H2) as [E|H]; [|exact H].
  unfold F32.div in *.
  destruct (F32.of_Z 2 * a)%f32 as [s|s| |s m e]; cbn [has_sign] in H2; try contradiction;
    subst; try discriminate E.
  change (F32.of_Z 1) with (S754_finite false 8388608 (-23)) in E. cbn [SFdiv xorb] in E.
  destruct (SFdiv_core_binary 24 128 (Z.pos 8388608) (-23) (Z.pos m) e) as [[mz ez] lz] eqn:Ec.
  exfalso.
  assert (Hmz : 0 <= mz).
  { unfold SFdiv_core_binary in Ec.
    set (m' := match _ - _ - _ with Z.pos _ => _ | 0 => _ | Z.neg _ => _ end) in Ec.
    assert (Hm' : 0 <= m').
    { unfold m'. destruct (_ - _ - _); [lia| |lia]. apply Z.shiftl_nonneg. lia. }
    pose proof (Z_div_mod m' (Z.pos m) ltac:(lia)) as Hdm.
    destruct (Z.div_eucl m' (Z.pos m)) as [q r]. injection Ec as <- _ _. nia. }
  pose proof (binary_round_aux_has_sign false mz ez lz Hmz) as Hs.
  rewrite E in Hs. exact Hs.
Qed.

Lemma roots_ordered (a b c x1 x2 : float) :
  (F32.zero <? a)%f32 = true ->
  solve_quadratic a b c = Some (x1, x2) ->
  F32.is_nan x1 = false -> F32.is_nan x2 = false ->
  (x1 <=? x2)%f32 = true.
Proof.
  intros Ha Hsolve Hx1 Hx2. unfold solve_quadratic in Hsolve. cbv zeta in Hsolve.
  destruct (_ <? F32.zero)%f32; [discriminate|].
  pose proof (den_has_sign a Ha) as Hden.
  set (den := (F32.of_Z 1 / (F32.of_Z 2 * a))%f32) in *.
  set (s := F32.sqrt (b * b - F32.of_Z 4 * a * c)%f32) in *.
  set (u := (- b - s)%f32) in *. set (v := (- b + s)%f32) in *.
  assert (E1 : (u * den)%f32 = x1)
    by (exact (f_equal (fun o => match o with Some p => fst p | None => x1 end) Hsolve)).
  assert (E2 : (v * den)%f32 = x2)
    by (exact (f_equal (fun o => match o with Some p => snd p | None => x2 end) Hsolve)).
  clear Hsolve.
  assert (Hu : u <> S754_nan) by (intros E; rewrite E in E1; subst x1; discriminate).
  assert (Hv : v <> S754_nan) by (intros E; rewrite E in E2; subst x2; discriminate).
  assert (Hs : nonneg s).
  { destruct (sqrt_nonneg (b * b - F32.of_Z 4 * a * c)%f32) as [E|H]; [|exact H].
    exfalso. apply Hu.
    change (F32.sub (- b)%f32 (SFsqrt 24 128 (b * b - F32.of_Z 4 * a * c)%f32) = S754_nan).
    rewrite E. destruct (- b)%f32; reflexivity. }
  destruct (sub_le_add (- b)%f32 s Hs Hu Hv) as [Hle [Heq|Hready]].
  - subst x1 x2. change u with (SFsub 24 128 (- b)%f32 s). rewrite Heq.
    apply SFleb_refl. intros E.
    change (SFmul 24 128 (SFadd 24 128 (- b)%f32 s) den = S754_nan) in E.
    change (F32.is_nan (SFmul 24 128 (SFadd 24 128 (- b)%f32 s) den) = false) in Hx2.
    rewrite E in Hx2. discriminate.
  - subst x1 x2. apply mul_mono; try assumption.
    + intros E. change (SFmul 24 128 u den) with (u * den)%f32 in E.
      rewrite E in Hx1. discriminate.
    + intros E. change (SFmul 24 128 v den) with (v * den)%f32 in E.
      rewrite E in Hx2. discriminate.
Qed.

(** With [a > 0], the roots [solve_quadratic] returns are in order,
    [x1 <= x2], unless one of them is NaN. *)
Theorem solve_quadratic_roots_ordered (a b c x1 x2 : float) :
  (F32.zero <? a)%f32 = true ->
  solve_quadratic a b c = Some (x1, x2) ->
  F32.is_nan x1 = false -> F32.is_nan x2 = false ->
  (x1 <=? x2)%f32 = true.
Proof. apply roots_ordered. Qed.

Lemma solve_quadratic_roots_ordered_witness :
  exists x1 x2,
    solve_quadratic (F32.of_Z 1) (F32.of_Z 3) (F32.of_Z 2) = Some (x1, x2) /\
    (x1 <=? x2)%f32 = true.
Proof.
  eexists _, _. split; [vm_compute; reflexivity|].
  apply (solve_quadratic_roots_ordered (F32.of_Z 1) (F32.of_Z 3) (F32.of_Z 2));
    vm_compute; reflexivity.
Defined.

Lemma mul_valid x y :
  valid_binary 24 128 x = true -> valid_binary 24 128 y = true ->
  valid_binary 24 128 (SFmul 24 128 x y) = true.
Proof.
  intros Hx Hy.
  destruct x as [sx|sx| |sx mx ex], y as [sy|sy| |sy my ey]; try reflexivity.
  cbn [SFmul]. rewrite binary_round_aux_code by lia. cbn [loc_code]. rewrite Z.add_0_r.
  apply valid_finite in Hx as (Hex & Hmx & Hnx).
  apply valid_finite in Hy as (Hey & Hmy & Hny).
  rewrite Pos2Z.inj_mul.
  apply round_core_valid; [nia|].
  replace (4 * (Z.pos mx * Z.pos my) / 4) with (Z.pos mx * Z.pos my)
    by (Z.div_mod_to_equations; lia).
  destruct (Z.le_gt_cases (ex + ey) (-149)) as [Hle|Hgt]; [unfold fexp32; lia|].
  assert (Hprod : 2 ^ 23 <= Z.pos mx * Z.pos my).
  { change (2 ^ 23) with 8388608 in *.
    destruct (Z.eq_dec ex (-149)) as [->|Hne].
    - specialize (Hny ltac:(lia)). nia.
    - specialize (Hnx ltac:(lia)). nia. }
  assert (Hd : 24 <= Zdigits2 (Z.pos mx * Z.pos my)).
  { replace 24 with (Zdigits2 (2 ^ 23)) by reflexivity.
    apply Zdigits2_le; [reflexivity|exact Hprod]. }
  unfold fexp32. lia.
Qed.

Lemma shl_align_value m e e' :
  e' <= e -> Z.pos (fst (shl_align m e e')) = Z.pos m * 2 ^ (e - e').
Proof.
  intros H. unfold shl_align. destruct (e' - e) as [|p|p] eqn:E.
  - replace (e - e') with 0 by lia. cbn [fst]. lia.
  - lia.
  - cbn [fst]. rewrite pos_iter_xO. f_equal. f_equal. lia.
Qed.

Lemma lt_zero_of_sign x :
  has_sign true x -> match x with S754_zero _ => False | _ => True end ->
  SFltb x (S754_zero false) = true.
Proof.
  destruct x as [s|s| |s m e]; cbn [has_sign]; intros Hs Hz; try contradiction;
    subst; reflexivity.
Qed.

(** Subtracting a larger number gives a negative one: the difference of two
    distinct numbers is never rounded to zero. *)
Lemma sub_negative x y :
  valid_binary 24 128 x = true -> valid_binary 24 128 y = true ->
  SFltb x y = true ->
  SFltb (SFsub 24 128 x y) (S754_zero false) = true.
Proof.
  intros Hx Hy Hlt.
  destruct x as [sx|sx| |sx mx ex], y as [sy|sy| |sy my ey]; try discriminate;
    try (destruct sx; try discriminate; destruct sy; try discriminate; reflexivity);
    try (destruct sx; try discriminate; reflexivity);
    try (destruct sy; try discriminate; reflexivity).
  unfold SFsub.
  apply valid_finite in Hx as (Hex & Hmx & Hnx).
  apply valid_finite in Hy as (Hey & Hmy & Hny).
  rewrite !shl_align_value by lia.
  set (ez := Z.min ex ey).
  assert (Hneg : cond_Zopp sx (Z.pos mx * 2 ^ (ex - ez))
                 - cond_Zopp sy (Z.pos my * 2 ^ (ey - ez)) < 0).
  { pose proof (pow2_pos (ex - ez) ltac:(lia)).
    pose proof (pow2_pos (ey - ez) ltac:(lia)).
    change (2 ^ 24) with 16777216 in *. change (2 ^ 23) with 8388608 in *.
    unfold SFltb, SFcompare in Hlt.
    destruct sx, sy; cbn [cond_Zopp]; try discriminate; [|nia|].
    - destruct (Z.compare_spec ex ey) as [E|E|E]; try discriminate.
      + subst ey. replace (ex - ez) with 0 by lia. change (2 ^ 0) with 1.
        change (Pos.compare_cont Eq mx my) with (Pos.compare mx my) in Hlt.
        destruct (Pos.compare_spec mx my); try discriminate. lia.
      + replace (ey - ez) with 0 by lia. change (2 ^ 0) with 1.
        assert (2 <= 2 ^ (ex - ez)).
        { change 2 with (2 ^ 1) at 1. apply pow2_le. lia. }
        specialize (Hnx ltac:(lia)). nia.
    - destruct (Z.compare_spec ex ey) as [E|E|E]; try discriminate.
      + subst ey. replace (ex - ez) with 0 by lia. change (2 ^ 0) with 1.
        change (Pos.compare_cont Eq mx my) with (Pos.compare mx my) in Hlt.
        destruct (Pos.compare_spec mx my); try discriminate. lia.
      + replace (ex - ez) with 0 by lia. change (2 ^ 0) with 1.
        assert (2 <= 2 ^ (ey - ez)).
        { change 2 with (2 ^ 1) at 1. apply pow2_le. lia. }
        specialize (Hny ltac:(lia)). nia. }
  destruct (cond_Zopp sx _ - cond_Zopp sy _) as [|p|p]; try lia.
  cbn [binary_normalize].
  apply lt_zero_of_sign; [apply binary_round_has_sign|apply binary_round_nonzero; lia].
Qed.

(** When the product [b * b] as computed is less than the product
    [4 * a * c] as computed, [solve_quadratic] reports no root: the rounded
    difference is negative, never zero. *)
Theorem solve_quadratic_no_root (a b c : float) :
  F32.valid a = true -> F32.valid b = true -> F32.valid c = true ->
  (b * b <? F32.of_Z 4 * a * c)%f32 = true ->
  solve_quadratic a b c = None.
Proof.
  intros Va Vb Vc Hlt. unfold solve_quadratic. cbv zeta.
  assert (Hd : ((b * b - F32.of_Z 4 * a * c) <? F32.zero)%f32 = true).
  { apply sub_negative; [| |exact Hlt].
    - apply mul_valid; assumption.
    - apply mul_valid; [apply mul_valid; [reflexivity|assumption]|assumption]. }
  rewrite Hd. reflexivity.
Qed.

Lemma solve_quadratic_no_root_witness :
  solve_quadratic (F32.of_Z 1) (F32.of_Z 1) (F32.of_Z 1) = None.
Proof.
  apply solve_quadratic_no_root; vm_compute; reflexivity.
Defined.

(** ** Division of a number by a larger one *)

Lemma Zdigits2_upper m k : 0 < m < 2 ^ k -> Zdigits2 m <= k.
Proof.
  intros H. pose proof (Zdigits2_bounds m ltac:(lia)) as [Hl _].
  pose proof (Zdigits2_pos m ltac:(lia)).
  destruct (Z.le_gt_cases (Zdigits2 m) k) as [Hle|Hgt]; [exact Hle|].
  assert (0 <= k).
  { destruct (Z.le_gt_cases 0 k) as [Hk|Hk]; [exact Hk|].
    rewrite Z.pow_neg_r in H by lia. lia. }
  assert (Hp : 2 ^ k <= 2 ^ (Zdigits2 m - 1)) by (apply pow2_le; lia). lia.
Qed.

Lemma Zdigits2_lower m k : 0 <= k -> 2 ^ k <= m -> k + 1 <= Zdigits2 m.
Proof.
  intros Hk H. pose proof (pow2_pos k Hk).
  pose proof (Zdigits2_bounds m ltac:(lia)) as [_ Hu].
  destruct (Z.le_gt_cases (k + 1) (Zdigits2 m)) as [Hle|Hgt]; [exact Hle|].
  pose proof (Zdigits2_nonneg m).
  assert (2 ^ Zdigits2 m <= 2 ^ k) by (apply pow2_le; lia). lia.
Qed.

Lemma new_location_code nb k :
  0 <= loc_code (new_location nb k) <= 3 /\ (k = 0 -> new_location nb k = loc_Exact).
Proof.
  unfold new_location, new_location_even, new_location_odd.
  destruct (Z.even nb), (Z.eqb_spec k 0); cbn [loc_code];
    repeat match goal with |- context [match ?c with Eq => _ | Lt => _ | Gt => _ end] =>
             destruct c end;
    cbn [loc_code]; split; (lia || intros; (reflexivity || contradiction)).
Qed.

Lemma one_code k :
  0 <= k ->
  decode_float false (round_core (4 * (2 ^ 23 * 2 ^ k)) (-23 - k)) = F32.one.
Proof.
  intros Hk. rewrite round_core_shift; [reflexivity|reflexivity|exact Hk|].
  vm_compute. discriminate.
Qed.

Lemma div_le_one mx ex my ey :
  valid_binary 24 128 (S754_finite false mx ex) = true ->
  valid_binary 24 128 (S754_finite false my ey) = true ->
  SFleb (S754_finite false mx ex) (S754_finite false my ey) = true ->
  SFleb (SFdiv 24 128 (S754_finite false mx ex) (S754_finite false my ey)) F32.one = true.
Proof.
  intros Vx Vy Hle.
  apply valid_finite in Vx as (Hex & Hmx & Hnx).
  apply valid_finite in Vy as (Hey & Hmy & Hny).
  apply finite_le_pos in Hle.
  cbn [SFdiv xorb]. unfold SFdiv_core_binary.
  change (fexp 24 128) with fexp32.
  set (d1 := Zdigits2 (Z.pos mx)). set (d2 := Zdigits2 (Z.pos my)).
  set (e' := Z.min (fexp32 (d1 + ex - (d2 + ey))) (ex - ey)).
  set (s := ex - ey - e').
  assert (HD : d1 + ex - (d2 + ey) <= 0).
  { destruct Hle as [Hlt|[-> Hm]].
    - specialize (Hny ltac:(lia)).
      pose proof (Zdigits2_upper (Z.pos mx) 24 ltac:(lia)).
      pose proof (Zdigits2_lower (Z.pos my) 23 ltac:(lia) Hny). fold d1 d2 in H, H0. lia.
    - assert (d1 <= d2) by (apply Zdigits2_le; lia). lia. }
  assert (He' : e' <= -24) by (unfold e', fexp32; lia).
  assert (Hs : 0 <= s) by (unfold s, e'; lia).
  set (m' := match s with Z.pos _ => Z.shiftl (Z.pos mx) s | 0 => Z.pos mx | Z.neg _ => 0 end).
  assert (Em' : m' = Z.pos mx * 2 ^ s).
  { unfold m'. destruct s as [|p|p] eqn:Es; [lia| |lia].
    rewrite Z.shiftl_mul_pow2 by lia. reflexivity. }
  set (P := 2 ^ (- e')).
  assert (HP : 0 < P) by (apply pow2_pos; lia).
  assert (Hval : m' <= Z.pos my * P).
  { rewrite Em'. unfold P.
    pose proof (pow2_pos s Hs).
    destruct Hle as [Hlt|[E Hm]].
    - replace (- e') with (s + (ey - ex)) by (unfold s; lia).
      rewrite Z.pow_add_r by lia.
      assert (2 <= 2 ^ (ey - ex)).
      { change 2 with (2 ^ 1) at 1. apply pow2_le. lia. }
      specialize (Hny ltac:(lia)).
      change (2 ^ 24) with 16777216 in *. change (2 ^ 23) with 8388608 in *.
      assert (Z.pos mx <= Z.pos my * 2 ^ (ey - ex)) by nia. nia.
    - replace (- e') with s by (unfold s; lia). nia. }
  pose proof (Z_div_mod m' (Z.pos my) ltac:(lia)) as Hdm.
  destruct (Z.div_eucl m' (Z.pos my)) as [q r].
  destruct Hdm as [Hdm Hr].
  assert (Hq0 : 0 <= q) by nia.
  destruct (new_location_code (Z.pos my) r) as [Hc Hex0].
  rewrite binary_round_aux_code by exact Hq0.
  rewrite <- (one_code (- e' - 23)) by lia.
  replace (-23 - (- e' - 23)) with e' by lia.
  replace (2 ^ 23 * 2 ^ (- e' - 23)) with P
    by (unfold P; rewrite <- Z.pow_add_r by lia; f_equal; lia).
  apply round_core_mono; [lia|].
  destruct (Z.eq_dec q P) as [E|E].
  - assert (r = 0) by nia. rewrite (Hex0 H). cbn [loc_code]. lia.
  - assert (q < P) by nia. lia.
Qed.

(** ** Conversion of integers *)

Lemma of_Z_finite M :
  0 < M < 2 ^ 31 -> exists m e, F32.of_Z M = S754_finite false m e.
Proof.
  intros HM. destruct M as [|p|p]; try lia.
  pose proof (binary_round_has_sign false p 0) as Hs.
  pose proof (binary_round_nonzero false p 0 ltac:(lia)) as Hnz.
  pose proof (binary_normalize_mono (Z.pos p) (2 ^ 31) 0 ltac:(lia)) as Hle.
  change (binary_normalize 24 128 (2 ^ 31) 0 false) with (S754_finite false 8388608 8) in Hle.
  unfold F32.of_Z. change (binary_normalize F32.prec F32.emax (Z.pos p) 0 false)
    with (binary_round 24 128 false p 0).
  change (binary_normalize 24 128 (Z.pos p) 0 false)
    with (binary_round 24 128 false p 0) in Hle.
  destruct (binary_round 24 128 false p 0) as [s|s| |s m e]; cbn [has_sign] in Hs;
    try contradiction; subst.
  - discriminate Hle.
  - exists m, e. reflexivity.
Qed.

(** [(float)z / RAND_MAX] for [0 <= z <= RAND_MAX]: a number from 0 to 1,
    both included. *)
Lemma unit_quotient z M :
  0 < M < 2 ^ 31 -> 0 <= z <= M ->
  has_sign false (F32.of_Z z / F32.of_Z M)%f32 /\
  (F32.of_Z z / F32.of_Z M <=? F32.one)%f32 = true.
Proof.
  intros HM Hz.
  destruct (of_Z_finite M HM) as (my & ey & EM).
  pose proof (binary_normalize_valid M 0) as VM.
  change (binary_normalize 24 128 M 0 false) with (F32.of_Z M) in VM. rewrite EM in VM.
  destruct (Z.eq_dec z 0) as [->|Hnz].
  - rewrite EM. split; reflexivity.
  - destruct (of_Z_finite z ltac:(lia)) as (mx & ex & Ez).
    pose proof (binary_normalize_valid z 0) as Vz.
    change (binary_normalize 24 128 z 0 false) with (F32.of_Z z) in Vz. rewrite Ez in Vz.
    pose proof (binary_normalize_mono z M 0 ltac:(lia)) as Hle.
    change (binary_normalize 24 128 z 0 false) with (F32.of_Z z) in Hle.
    change (binary_normalize 24 128 M 0 false) with (F32.of_Z M) in Hle.
    rewrite Ez, EM in Hle. rewrite Ez, EM.
    pose proof (div_le_one mx ex my ey Vz VM Hle) as Hone.
    split; [|exact Hone].
    destruct (div_has_sign (S754_finite false mx ex) (S754_finite false my ey)
                eq_refl eq_refl) as [E|H]; [|exact H].
    rewrite E in Hone. discriminate.
Qed.

Lemma div_self m e :
  valid_binary 24 128 (S754_finite false m e) = true ->
  SFdiv 24 128 (S754_finite false m e) (S754_finite false m e) = F32.one.
Proof.
  intros V. apply valid_finite in V as (He & Hm & Hn).
  cbn [SFdiv xorb]. unfold SFdiv_core_binary.
  change (fexp 24 128) with fexp32.
  replace (Zdigits2 (Z.pos m) + e - (Zdigits2 (Z.pos m) + e)) with 0 by lia.
  replace (e - e) with 0 by lia.
  change (Z.min (fexp32 0) 0) with (-24). change (0 - -24) with 24.
  cbv iota.
  rewrite Z.shiftl_mul_pow2 by lia.
  pose proof (Z_div_mod (Z.pos m * 2 ^ 24) (Z.pos m) ltac:(lia)) as Hdm.
  destruct (Z.div_eucl (Z.pos m * 2 ^ 24) (Z.pos m)) as [q r].
  destruct Hdm as [Hdm Hr].
  change (2 ^ 24) with 16777216 in *.
  assert (Eq : q = 16777216) by nia.
  assert (Er : r = 0) by nia. subst q r.
  destruct (new_location_code (Z.pos m) 0) as [_ ->]; [|reflexivity].
  rewrite binary_round_aux_code by lia. reflexivity.
Qed.

(** ** Sums and differences at a common exponent *)

Lemma binary_normalize_shift M e k :
  0 <= k ->
  binary_normalize 24 128 (M * 2 ^ k) (e - k) false = binary_normalize 24 128 M e false.
Proof.
  intros Hk. pose proof (pow2_pos k Hk) as Hp.
  destruct M as [|p|p]; [reflexivity| |];
    destruct (2 ^ k) as [|q|q] eqn:Eq; try lia;
    [change (Z.pos p * Z.pos q) with (Z.pos (p * q))
    |change (Z.neg p * Z.pos q) with (Z.neg (p * q))];
    cbn [binary_normalize];
    set (j := Z.max 0 (e - fexp32 (Zdigits2 (Z.pos p) + e)));
    (rewrite (binary_round_code _ (p * q) (e - k) j), (binary_round_code _ p e (j + k));
     [f_equal; f_equal;
      [rewrite Pos2Z.inj_mul, <- Eq, Z.pow_add_r by lia; lia|lia]
     |lia
     |rewrite Pos2Z.inj_mul, <- Eq, Zdigits2_mul_pow2 by lia;
      replace (Zdigits2 (Z.pos p) + k + (e - k)) with (Zdigits2 (Z.pos p) + e) by lia;
      lia]).
Qed.

Lemma pow2_split a b c : a <= b <= c -> 2 ^ (c - b) * 2 ^ (b - a) = 2 ^ (c - a).
Proof. intros H. rewrite <- Z.pow_add_r by lia. f_equal. lia. Qed.

(** The sum [mu * 2^eu + sg * mc * 2^ec], as [SFadd] and [SFsub] hand it to
    [binary_normalize] at the exponent [Z.min eu ec], is rounded to the same
    number when it is written at any smaller exponent. *)
Lemma sum_at_exponent mu eu mc ec sg E :
  E <= Z.min eu ec ->
  binary_normalize 24 128
    (Z.pos (fst (shl_align mu eu (Z.min eu ec)))
       + sg * Z.pos (fst (shl_align mc ec (Z.min eu ec)))) (Z.min eu ec) false
  = binary_normalize 24 128
      (Z.pos mu * 2 ^ (eu - E) + sg * (Z.pos mc * 2 ^ (ec - E))) E false.
Proof.
  intros HE. set (ez := Z.min eu ec) in *.
  rewrite !shl_align_value by lia.
  rewrite <- (binary_normalize_shift _ ez (ez - E)) by lia.
  replace (ez - (ez - E)) with E by lia.
  f_equal.
  rewrite <- (pow2_split E ez eu), <- (pow2_split E ez ec) by lia. ring.
Qed.

Lemma aligned_le mu eu mv ev E :
  valid_binary 24 128 (S754_finite false mu eu) = true ->
  valid_binary 24 128 (S754_finite false mv ev) = true ->
  SFleb (S754_finite false mu eu) (S754_finite false mv ev) = true ->
  E <= eu -> E <= ev ->
  Z.pos mu * 2 ^ (eu - E) <= Z.pos mv * 2 ^ (ev - E).
Proof.
  intros Vu Vv Hle Hu Hv.
  apply valid_finite in Vu as (Heu & Hmu & Hnu).
  apply valid_finite in Vv as (Hev & Hmv & Hnv).
  pose proof (pow2_pos (eu - E) ltac:(lia)) as Hp.
  destruct (finite_le_pos _ _ _ _ Hle) as [Hlt|[-> Hm]]; [|nia].
  specialize (Hnv ltac:(lia)).
  rewrite <- (pow2_split E eu ev) by lia.
  assert (2 <= 2 ^ (ev - eu)).
  { change 2 with (2 ^ 1) at 1. apply pow2_le. lia. }
  change (2 ^ 24) with 16777216 in *. change (2 ^ 23) with 8388608 in *.
  assert (Z.pos mu <= Z.pos mv * 2 ^ (ev - eu)) by nia. nia.
Qed.

(** Adding a positive number to both sides keeps the order. *)
Lemma add_mono mu eu mv ev mc ec :
  valid_binary 24 128 (S754_finite false mu eu) = true ->
  valid_binary 24 128 (S754_finite false mv ev) = true ->
  SFleb (S754_finite false mu eu) (S754_finite false mv ev) = true ->
  SFleb (SFadd 24 128 (S754_finite false mu eu) (S754_finite false mc ec))
        (SFadd 24 128 (S754_finite false mv ev) (S754_finite false mc ec)) = true.
Proof.
  intros Vu Vv Hle. cbn [SFadd cond_Zopp].
  set (E := Z.min (Z.min eu ev) ec).
  pose proof (sum_at_exponent mu eu mc ec 1 E ltac:(lia)) as Eu.
  pose proof (sum_at_exponent mv ev mc ec 1 E ltac:(lia)) as Ev.
  rewrite !Z.mul_1_l in Eu, Ev. rewrite Eu, Ev.
  apply binary_normalize_mono.
  pose proof (aligned_le mu eu mv ev E Vu Vv Hle ltac:(lia) ltac:(lia)). lia.
Qed.

(** Subtracting a positive number from both sides keeps the order. *)
Lemma sub_mono mu eu mv ev mc ec :
  valid_binary 24 128 (S754_finite false mu eu) = true ->
  valid_binary 24 128 (S754_finite false mv ev) = true ->
  SFleb (S754_finite false mu eu) (S754_finite false mv ev) = true ->
  SFleb (SFsub 24 128 (S754_finite false mu eu) (S754_finite false mc ec))
        (SFsub 24 128 (S754_finite false mv ev) (S754_finite false mc ec)) = true.
Proof.
  intros Vu Vv Hle. cbn [SFsub cond_Zopp].
  set (E := Z.min (Z.min eu ev) ec).
  pose proof (sum_at_exponent mu eu mc ec (-1) E ltac:(lia)) as Eu.
  pose proof (sum_at_exponent mv ev mc ec (-1) E ltac:(lia)) as Ev.
  replace (Z.pos (fst (shl_align mu eu (Z.min eu ec)))
             - Z.pos (fst (shl_align mc ec (Z.min eu ec))))
    with (Z.pos (fst (shl_align mu eu (Z.min eu ec)))
             + -1 * Z.pos (fst (shl_align mc ec (Z.min eu ec)))) by lia.
  replace (Z.pos (fst (shl_align mv ev (Z.min ev ec)))
             - Z.pos (fst (shl_align mc ec (Z.min ev ec))))
    with (Z.pos (fst (shl_align mv ev (Z.min ev ec)))
             + -1 * Z.pos (fst (shl_align mc ec (Z.min ev ec)))) by lia.
  rewrite Eu, Ev.
  apply binary_normalize_mono.
  pose proof (aligned_le mu eu mv ev E Vu Vv Hle ltac:(lia) ltac:(lia)). lia.
Qed.

(** ** The generated spheres *)

Lemma of_Z_bounds z :
  0 < z < 2 ^ 31 ->
  exists m e, F32.of_Z z = S754_finite false m e /\
    valid_binary 24 128 (S754_finite false m e) = true /\
    -23 <= e <= 8 /\ 2 ^ 23 <= Z.pos m.
Proof.
  intros Hz. destruct (of_Z_finite z Hz) as (m & e & E).
  pose proof (binary_normalize_valid z 0) as V.
  pose proof (binary_normalize_mono 1 z 0 ltac:(lia)) as Hlo.
  pose proof (binary_normalize_mono z (2 ^ 31) 0 ltac:(lia)) as Hhi.
  change (binary_normalize 24 128 z 0 false) with (F32.of_Z z) in V, Hlo, Hhi.
  change (binary_normalize 24 128 1 0 false) with (S754_finite false 8388608 (-23)) in Hlo.
  change (binary_normalize 24 128 (2 ^ 31) 0 false) with (S754_finite false 8388608 8) in Hhi.
  rewrite E in V, Hlo, Hhi.
  exists m, e. split; [exact E|]. split; [exact V|].
  apply finite_le_pos in Hlo. apply finite_le_pos in Hhi.
  apply valid_finite in V as (He & Hm & Hn).
  assert (Hr : -23 <= e <= 8).
  { clear - Hlo Hhi. destruct Hlo as [?|[? _]], Hhi as [?|[? _]]; lia. }
  split; [exact Hr|]. apply Hn. clear - Hr. lia.
Qed.

(** The quotient of two normal numbers is rounded to a number of the
    format, as long as it is far from the smallest ones. *)
Lemma div_valid mx ex my ey :
  valid_binary 24 128 (S754_finite false mx ex) = true ->
  valid_binary 24 128 (S754_finite false my ey) = true ->
  2 ^ 23 <= Z.pos mx -> 2 ^ 23 <= Z.pos my -> -125 <= ex - ey ->
  valid_binary 24 128 (SFdiv 24 128 (S754_finite false mx ex) (S754_finite false my ey)) = true.
Proof.
  intros Vx Vy Hnx Hny Hd.
  apply valid_finite in Vx as (Hex & Hmx & _).
  apply valid_finite in Vy as (Hey & Hmy & _).
  cbn [SFdiv xorb]. unfold SFdiv_core_binary.
  change (fexp 24 128) with fexp32.
  assert (E1 : Zdigits2 (Z.pos mx) = 24).
  { pose proof (Zdigits2_upper (Z.pos mx) 24 ltac:(lia)).
    pose proof (Zdigits2_lower (Z.pos mx) 23 ltac:(lia) Hnx). lia. }
  assert (E2 : Zdigits2 (Z.pos my) = 24).
  { pose proof (Zdigits2_upper (Z.pos my) 24 ltac:(lia)).
    pose proof (Zdigits2_lower (Z.pos my) 23 ltac:(lia) Hny). lia. }
  rewrite E1, E2.
  replace (Z.min (fexp32 (24 + ex - (24 + ey))) (ex - ey)) with (ex - ey - 24)
    by (unfold fexp32; lia).
  replace (ex - ey - (ex - ey - 24)) with 24 by lia.
  cbv iota. rewrite Z.shiftl_mul_pow2 by lia.
  pose proof (Z_div_mod (Z.pos mx * 2 ^ 24) (Z.pos my) ltac:(lia)) as Hdm.
  destruct (Z.div_eucl (Z.pos mx * 2 ^ 24) (Z.pos my)) as [q r].
  destruct Hdm as [Hdm Hr].
  change (2 ^ 24) with 16777216 in *. change (2 ^ 23) with 8388608 in *.
  assert (Hq : 8388608 <= q) by nia.
  destruct (new_location_code (Z.pos my) r) as [Hc _].
  rewrite binary_round_aux_code by lia.
  apply round_core_valid; [lia|].
  replace ((4 * q + loc_code (new_location (Z.pos my) r)) / 4) with q
    by (Z.div_mod_to_equations; lia).
  pose proof (Zdigits2_lower q 23 ltac:(lia) Hq). unfold fexp32. lia.
Qed.

Lemma unit_quotient_value z M :
  0 < M < 2 ^ 31 -> 0 <= z <= M -> unit_value (F32.of_Z z / F32.of_Z M)%f32.
Proof.
  intros HM Hz. destruct (unit_quotient z M HM Hz) as [Hs Hle].
  split; [exact Hs|]. split; [exact Hle|].
  destruct (of_Z_bounds M HM) as (my & ey & EM & VM & HeM & HnM).
  destruct (Z.eq_dec z 0) as [->|Hnz].
  - rewrite EM. reflexivity.
  - destruct (of_Z_bounds z ltac:(lia)) as (mx & ex & Ez & Vz & Hez & Hnz').
    rewrite Ez, EM. apply div_valid; try assumption. lia.
Qed.

Lemma unit_value_in_range u : unit_value u -> in_unit_range u = true.
Proof.
  intros (Hs & Hle & _). unfold in_unit_range, between.
  rewrite Hle, andb_true_r. apply zero_le_nonneg, Hs.
Qed.

Lemma tiny_le m e :
  valid_binary 24 128 (S754_finite false m e) = true ->
  SFleb tiny (S754_finite false m e) = true.
Proof.
  intros V. apply valid_finite in V as (He & _ & _).
  unfold tiny, SFleb, SFcompare.
  destruct (Z.compare_spec (-149) e) as [E|E|E]; [|reflexivity|lia].
  change (Pos.compare_cont Eq 1 m) with (Pos.compare 1 m).
  destruct (Pos.compare_spec 1 m); try reflexivity; lia.
Qed.

Lemma mul_nonnan x m e :
  x <> S754_nan -> SFmul 24 128 x (S754_finite false m e) <> S754_nan.
Proof.
  intros Hx. destruct x as [s|s| |s mx ex]; cbn [SFmul]; try discriminate; [congruence|].
  intros E.
  pose proof (binary_round_aux_has_sign (xorb s false) (Z.pos (mx * m)) (ex + e) loc_Exact
                ltac:(lia)) as H.
  rewrite E in H. exact H.
Qed.

(** [u * 20] for a uniform value [u]: a number from 0 to 20. *)
Lemma scaled_range u :
  unit_value u ->
  has_sign false (u * F32.of_Z 20)%f32 /\
  F32.valid (u * F32.of_Z 20)%f32 = true /\
  (u * F32.of_Z 20 <=? F32.of_Z 20)%f32 = true.
Proof.
  intros (Hs & Hle & Hv).
  assert (Hn : u <> S754_nan) by (intros ->; exact Hs).
  pose proof (mul_nonnan u 10485760 (-19) Hn) as Hnn.
  change (S754_finite false 10485760 (-19)) with (F32.of_Z 20) in Hnn.
  split; [|split].
  - destruct (mul_has_sign u (F32.of_Z 20) Hs eq_refl) as [E|H]; [contradiction|exact H].
  - apply mul_valid; [exact Hv|reflexivity].
  - change (F32.of_Z 20) with (SFmul 24 128 F32.one (F32.of_Z 20)) at 2.
    apply mul_mono; [exact Hle| |reflexivity|exact Hnn|discriminate].
    destruct u as [s|s| |s m e]; try exact I. intros _. split; [exact Hv|reflexivity].
Qed.

(** [p - c] for [p] from 0 to [top] and a positive [c]: a number from
    [0 - c] to [top - c], when the subtraction rounds [tiny - c] to
    [0 - c]. *)
Lemma shifted_range p mt et mc ec :
  let top := S754_finite false mt et in
  let c := S754_finite false mc ec in
  has_sign false p -> F32.valid p = true -> (p <=? top)%f32 = true ->
  F32.valid top = true ->
  (tiny - c <=? F32.zero - c)%f32 = true ->
  (F32.zero - c <=? top - c)%f32 = true ->
  (tiny - c <=? p - c)%f32 = true /\ (p - c <=? top - c)%f32 = true.
Proof.
  intros top c Hs Hv Hle Vt Hz Hzt.
  destruct p as [s|s| |s m e]; cbn [has_sign] in Hs; try contradiction; subst s.
  - split; assumption.
  - discriminate Hle.
  - split.
    + apply sub_mono; [reflexivity|exact Hv|apply tiny_le, Hv].
    + apply sub_mono; [exact Hv|exact Vt|exact Hle].
Qed.

Lemma centre_range u :
  unit_value u ->
  between (F32.of_Z (-10)) (F32.of_Z 10) (u * F32.of_Z 20 - F32.of_Z 10)%f32 = true /\
  between (F32.of_Z (-5)) (F32.of_Z 15) (u * F32.of_Z 20 - F32.of_Z 5)%f32 = true.
Proof.
  intros Hu. destruct (scaled_range u Hu) as (Hs & Hv & Hle).
  unfold between.
  split.
  - destruct (shifted_range (u * F32.of_Z 20)%f32 10485760 (-19) 10485760 (-20)
                Hs Hv Hle eq_refl eq_refl eq_refl) as [Hlo Hhi].
    change (tiny - S754_finite false 10485760 (-20))%f32 with (F32.of_Z (-10)) in Hlo.
    change (S754_finite false 10485760 (-19) - S754_finite false 10485760 (-20))%f32
      with (F32.of_Z 10) in Hhi.
    change (S754_finite false 10485760 (-20)) with (F32.of_Z 10) in Hlo, Hhi.
    rewrite Hlo, Hhi. reflexivity.
  - destruct (shifted_range (u * F32.of_Z 20)%f32 10485760 (-19) 10485760 (-21)
                Hs Hv Hle eq_refl eq_refl eq_refl) as [Hlo Hhi].
    change (tiny - S754_finite false 10485760 (-21))%f32 with (F32.of_Z (-5)) in Hlo.
    change (S754_finite false 10485760 (-19) - S754_finite false 10485760 (-21))%f32
      with (F32.of_Z 15) in Hhi.
    change (S754_finite false 10485760 (-21)) with (F32.of_Z 5) in Hlo, Hhi.
    rewrite Hlo, Hhi. reflexivity.
Qed.

Lemma above_positive m e x :
  SFleb (S754_finite false m e) x = true -> SFltb (S754_zero false) x = true.
Proof.
  destruct x as [s|s| |s mx ex]; try discriminate; destruct s; try discriminate;
    reflexivity.
Qed.

Lemma radius_range u :
  unit_value u ->
  between (F32.tenth * F32.one_and_half)%f32
          ((F32.one + F32.tenth) * F32.one_and_half)%f32
          ((u + F32.tenth) * F32.one_and_half)%f32 = true /\
  (F32.zero <? (u + F32.tenth) * F32.one_and_half)%f32 = true.
Proof.
  intros (Hs & Hle & Hv).
  assert (Ha : (F32.tenth <=? u + F32.tenth)%f32 = true /\
               (u + F32.tenth <=? F32.one + F32.tenth)%f32 = true /\
               F32.valid (u + F32.tenth)%f32 = true /\
               (u + F32.tenth)%f32 <> S754_nan).
  { destruct u as [s|s| |s m e]; cbn [has_sign] in Hs; try contradiction; subst s.
    - repeat split; discriminate.
    - discriminate Hle.
    - split; [|split; [|split]].
      + change F32.tenth with (SFadd 24 128 tiny F32.tenth) at 1.
        apply add_mono; [reflexivity|exact Hv|apply tiny_le, Hv].
      + apply add_mono; [exact Hv|reflexivity|exact Hle].
      + apply binary_normalize_valid.
      + apply binary_normalize_nonnan. }
  destruct Ha as (Hlo & Hhi & Va & Hn).
  pose proof (mul_nonnan _ 12582912 (-23) Hn) as Hnn.
  assert (H1 : (F32.tenth * F32.one_and_half <=? (u + F32.tenth) * F32.one_and_half)%f32 = true).
  { apply mul_mono; [exact Hlo| |reflexivity|discriminate|exact Hnn].
    unfold F32.tenth at 1. destruct (u + F32.tenth)%f32; try exact I.
    intros _. split; [reflexivity|exact Va]. }
  assert (H2 : ((u + F32.tenth) * F32.one_and_half
                  <=? (F32.one + F32.tenth) * F32.one_and_half)%f32 = true).
  { apply mul_mono; [exact Hhi| |reflexivity|exact Hnn|discriminate].
    change (F32.one + F32.tenth)%f32 with (S754_finite false 9227469 (-23)).
    destruct (u + F32.tenth)%f32; try exact I.
    intros _. split; [exact Va|reflexivity]. }
  unfold between. rewrite H1, H2. split; [reflexivity|].
  change (F32.tenth * F32.one_and_half)%f32 with (S754_finite false 10066330 (-26)) in H1.
  exact (above_positive _ _ _ H1).
Qed.

Lemma fields_in_range u0 u1 u2 u3 u4 u5 u6 :
  unit_value u0 -> unit_value u1 -> unit_value u2 -> unit_value u3 ->
  unit_value u4 -> unit_value u5 -> unit_value u6 ->
  sphere_in_range
    (mk_sphere (u0 * F32.of_Z 20 - F32.of_Z 10)%f32
               (u1 * F32.of_Z 20 - F32.of_Z 10)%f32
               (u2 * F32.of_Z 20 - F32.of_Z 5)%f32
               ((u3 + F32.tenth) * F32.one_and_half)%f32 u4 u5 u6) = true.
Proof.
  intros H0 H1 H2 H3 H4 H5 H6.
  unfold sphere_in_range. cbn [cx cy cz radius r g b].
  rewrite (proj1 (centre_range u0 H0)), (proj1 (centre_range u1 H1)),
    (proj2 (centre_range u2 H2)), (proj1 (radius_range u3 H3)),
    (proj2 (radius_range u3 H3)), !unit_value_in_range by assumption.
  reflexivity.
Qed.

Section GeneratorRanges.

Variable rand_state : Type.
Variable RAND_MAX : Z.
Variable srand : Z -> rand_state.
Variable rand : rand_state -> Z * rand_state.

Hypothesis RAND_MAX_range : 0 < RAND_MAX < 2 ^ 31.
Hypothesis rand_range : forall st, 0 <= fst (rand st) <= RAND_MAX.

Lemma rand_float_range st :
  unit_value (fst (rand_float rand_state RAND_MAX rand st)).
Proof.
  unfold rand_float. pose proof (rand_range st) as Hz.
  destruct (rand st) as [z st']. cbn [fst] in *.
  apply unit_quotient_value; assumption.
Qed.

Lemma uniform_range k : unit_value (uniform rand_state RAND_MAX srand rand k).
Proof. unfold uniform. apply unit_quotient_value; [assumption|apply rand_range]. Qed.

Lemma sphere_ctor_range st :
  sphere_in_range (fst (sphere_ctor rand_state RAND_MAX rand st)) = true.
Proof.
  unfold sphere_ctor.
  repeat match goal with
  | |- context [rand_float rand_state RAND_MAX rand ?s] =>
      let H := fresh "H" in
      pose proof (rand_float_range s) as H; revert H;
      destruct (rand_float rand_state RAND_MAX rand s); intros H; cbn [fst] in H
  end.
  cbn [fst]. apply fields_in_range; assumption.
Qed.

Lemma spec_sphere_range i :
  sphere_in_range (spec_sphere rand_state RAND_MAX srand rand i) = true.
Proof. unfold spec_sphere. apply fields_in_range; apply uniform_range. Qed.

End GeneratorRanges.

(** The uniform values are drawn from 0 to 1 with both ends included: when
    [std::rand()] returns [RAND_MAX], the largest number it can return,
    [sphere::rand_float()] and [RAND_FLOAT] are exactly 1. *)
Theorem rand_float_reaches_one (rand_state : Type) (RAND_MAX : Z)
    (rand : rand_state -> Z * rand_state) (st : rand_state) :
  0 < RAND_MAX < 2 ^ 31 ->
  fst (rand st) = RAND_MAX ->
  fst (rand_float rand_state RAND_MAX rand st) = F32.one /\
  fst (RAND_FLOAT rand_state RAND_MAX rand st) = F32.one.
Proof.
  intros HM Hz. unfold rand_float, RAND_FLOAT.
  destruct (rand st) as [z st']. cbn [fst] in *. subst z.
  destruct (of_Z_finite RAND_MAX HM) as (m & e & E).
  pose proof (binary_normalize_valid RAND_MAX 0) as V.
  change (binary_normalize 24 128 RAND_MAX 0 false) with (F32.of_Z RAND_MAX) in V.
  rewrite E in *. split; apply div_self, V.
Qed.

Lemma rand_float_reaches_one_witness :
  fst (rand_float Z MsvcRand.RAND_MAX MsvcRand.rand 4028364353) = F32.one /\
  fst (RAND_FLOAT Z MsvcRand.RAND_MAX MsvcRand.rand 4028364353) = F32.one.
Proof.
  apply rand_float_reaches_one.
  - unfold MsvcRand.RAND_MAX. lia.
  - reflexivity.
Defined.

Lemma spec_scene_range (rand_state : Type) (RAND_MAX : Z) (srand : Z -> rand_state)
    (rand : rand_state -> Z * rand_state) (n : nat) :
  0 < RAND_MAX < 2 ^ 31 ->
  (forall st, 0 <= fst (rand st) <= RAND_MAX) ->
  forallb sphere_in_range (spec_scene rand_state RAND_MAX srand rand n) = true.
Proof.
  intros HM Hrand. induction n as [|n IH]; [reflexivity|].
  rewrite spec_scene_S, forallb_app, IH. cbn [forallb andb].
  rewrite spec_sphere_range by assumption. reflexivity.
Qed.

Lemma MsvcRand_range st : 0 <= fst (MsvcRand.rand st) <= MsvcRand.RAND_MAX.
Proof.
  unfold MsvcRand.rand, MsvcRand.RAND_MAX. cbn [fst].
  change 32767 with (Z.ones 15). rewrite Z.land_ones by lia.
  pose proof (Z.mod_pos_bound (Z.shiftr (u32 (st * 214013 + 2531011)) 16) (2 ^ 15) ltac:(lia)).
  change (Z.ones 15) with (2 ^ 15 - 1). lia.
Qed.

(** Every sphere that the constructor [sphere::sphere()] of rt.reworked
    builds lies in the ranges of the scene, whatever the state of the random
    generator: centre in the box from (-10, -10, -5) to (10, 10, 15), radius
    positive and from 0.1 * 1.5 to 1.1 * 1.5 as single precision computes
    them, colour components from 0 to 1.  It holds for every [std::rand]
    that returns numbers from 0 to [RAND_MAX], with [RAND_MAX] below
    [2^31]; no field is a NaN or an infinity. *)
Theorem sphere_ctor_in_range (rand_state : Type) (RAND_MAX : Z)
    (rand : rand_state -> Z * rand_state) (st : rand_state) :
  0 < RAND_MAX < 2 ^ 31 ->
  (forall st, 0 <= fst (rand st) <= RAND_MAX) ->
  sphere_in_range (fst (sphere_ctor rand_state RAND_MAX rand st)) = true.
Proof. intros HM Hrand. apply sphere_ctor_range; assumption. Qed.

Lemma sphere_ctor_in_range_witness :
  sphere_in_range (fst (sphere_ctor Z MsvcRand.RAND_MAX MsvcRand.rand 2297036532)) = true.
Proof.
  apply sphere_ctor_in_range.
  - unfold MsvcRand.RAND_MAX. lia.
  - exact MsvcRand_range.
Defined.

(** The first [n] elements of the array that [generate_spheres] of
    rt.original has filled lie in the same ranges, whatever the array held
    and whatever the state of the random generator was. *)
Theorem generate_spheres_in_range (rand_state : Type) (RAND_MAX : Z)
    (srand : Z -> rand_state) (rand : rand_state -> Z * rand_state)
    (n : nat) (spheres : list sphere) (st : rand_state) :
  0 < RAND_MAX < 2 ^ 31 ->
  (forall st, 0 <= fst (rand st) <= RAND_MAX) ->
  (n <= length spheres)%nat ->
  forallb sphere_in_range
    (take n (fst (generate_spheres rand_state RAND_MAX srand rand spheres (Z.of_nat n) st)))
    = true.
Proof.
  intros HM Hrand Hlen. unfold generate_spheres. rewrite Nat2Z.id.
  pose proof (generate_loop_prefix rand_state RAND_MAX srand rand n 0 spheres Hlen) as E.
  change (spec_scene rand_state RAND_MAX srand rand 0 ++ spheres) with spheres in E.
  change (state_after rand_state srand rand (7 * 0)) with (srand seed) in E.
  change (Z.of_nat 0) with 0 in E. rewrite E. cbn [fst].
  rewrite take_app_length' by (rewrite length_spec_scene; reflexivity).
  apply spec_scene_range; assumption.
Qed.

Lemma generate_spheres_in_range_witness :
  forallb sphere_in_range
    (take 2 (fst (generate_spheres Z MsvcRand.RAND_MAX MsvcRand.srand MsvcRand.rand
                    [Scenes.dummy; Scenes.dummy; Scenes.red_cover] 2 77)))
    = true.
Proof.
  apply (generate_spheres_in_range Z MsvcRand.RAND_MAX MsvcRand.srand MsvcRand.rand 2
           [Scenes.dummy; Scenes.dummy; Scenes.red_cover] 77).
  - unfold MsvcRand.RAND_MAX. lia.
  - exact MsvcRand_range.
  - cbn. lia.
Defined.

(** ** The values of the image *)

Lemma forallb_lookup {A} (P : A -> bool) (l : list A) :
  (forall i x, l !! i = Some x -> P x = true) -> forallb P l = true.
Proof.
  intros H. apply forallb_forall. intros x Hx.
  apply list_elem_of_In, list_elem_of_lookup in Hx as [i Hi]. exact (H i x Hi).
Qed.

Lemma forallb_elem {A} (P : A -> bool) (l : list A) (x : A) :
  forallb P l = true -> x ∈ l -> P x = true.
Proof.
  intros H Hx. apply list_elem_of_In in Hx.
  exact (proj1 (forallb_forall P l) H x Hx).
Qed.

Lemma sphere_colour_in_range s : sphere_in_range s = true -> colour_in_range s = true.
Proof.
  unfold sphere_in_range, colour_in_range. intros H.
  apply andb_prop in H as [H Hb]. apply andb_prop in H as [H Hg].
  apply andb_prop in H as [_ Hr]. rewrite Hr, Hg, Hb. reflexivity.
Qed.

Lemma resolve_range spheres idx :
  forallb colour_in_range spheres = true ->
  let c := resolve spheres idx in
  in_unit_range (fst (fst c)) = true /\ in_unit_range (snd (fst c)) = true /\
  in_unit_range (snd c) = true.
Proof.
  intros H. unfold resolve.
  destruct (0 <? idx); [|repeat split; reflexivity].
  destruct (spheres !! Z.to_nat idx) as [s|] eqn:E; [|repeat split; reflexivity].
  apply list_elem_of_lookup_2 in E.
  pose proof (forallb_elem _ _ _ H E) as Hs. unfold colour_in_range in Hs.
  apply andb_prop in Hs as [Hs Hb]. apply andb_prop in Hs as [Hr Hg].
  cbn. auto.
Qed.

Lemma rendered_cell_range width height spheres o :
  forallb colour_in_range spheres = true ->
  in_unit_range (rendered_cell width height spheres o) = true.
Proof.
  intros H. unfold rendered_cell, pixel_color.
  pose proof (resolve_range spheres
                (hit_index width height spheres (fst (pixel_of_cell width o))
                   (snd (pixel_of_cell width o))) H) as Hc.
  cbv zeta in Hc.
  destruct (resolve spheres _) as [[cr cg] cb]. cbn [fst snd] in Hc.
  destruct Hc as (Hr & Hg & Hb).
  destruct (o mod 3 =? 0); [exact Hr|]. destruct (o mod 3 =? 1); assumption.
Qed.

Lemma rendered_image_range width height spheres img :
  forallb colour_in_range spheres = true ->
  forallb in_unit_range
    (take (Z.to_nat (width * height * 3)) (rendered_image width height spheres img)) = true.
Proof.
  intros H. apply forallb_lookup. intros i x Hx.
  apply lookup_take_Some in Hx as [Hx Hi].
  unfold rendered_image in Hx. apply list_lookup_imap_Some in Hx as (y & _ & ->).
  destruct (Z.ltb_spec (Z.of_nat i) (width * height * 3)); [|lia].
  apply rendered_cell_range, H.
Qed.

(** [trace] writes colour values only: when the colour components of every
    sphere lie from 0 to 1, so does every float of the image once [trace]
    has run, whatever the buffer held (the background 0.1 lies in the range
    too).  No float of the image is a NaN or an infinity. *)
Theorem trace_image_in_range (width height : Z) (spheres : list sphere)
    (img : list float) :
  0 < width -> 0 < height -> width * height * 3 <= 2 ^ 32 ->
  width * height * 3 <= Z.of_nat (length img) ->
  forallb colour_in_range spheres = true ->
  forallb in_unit_range
    (take (Z.to_nat (width * height * 3)) (trace_at width height spheres img)) = true.
Proof.
  intros Hw Hh Hfit Hlen Hs.
  rewrite trace_renders_image_aux by assumption.
  apply rendered_image_range, Hs.
Qed.

Lemma trace_image_in_range_witness :
  forallb in_unit_range
    (take (Z.to_nat (2 * 2 * 3))
       (trace_at 2 2 [Scenes.dummy; Scenes.red_cover]
          (replicate 13 (F32.of_Z 7)))) = true.
Proof.
  apply trace_image_in_range; try (cbn; lia). reflexivity.
Defined.

(** The image that [main] of rt.original hands to the image writer holds
    colour values only: each of its 2048 x 2048 x 3 floats lies from 0 to 1,
    for every [std::rand] that returns numbers from 0 to [RAND_MAX], with
    [RAND_MAX] below [2^31], and whatever the state of the generator at the
    start. *)
Theorem original_main_in_range (rand_state : Type) (RAND_MAX : Z)
    (srand : Z -> rand_state) (rand : rand_state -> Z * rand_state)
    (st : rand_state) :
  0 < RAND_MAX < 2 ^ 31 ->
  (forall st, 0 <= fst (rand st) <= RAND_MAX) ->
  forallb in_unit_range (original_main rand_state RAND_MAX srand rand st) = true.
Proof.
  intros HM Hrand. rewrite original_main_rendered.
  set (spheres := spec_scene rand_state RAND_MAX srand rand 512).
  assert (Hs : forallb colour_in_range spheres = true).
  { apply forallb_lookup. intros i s Hi. apply sphere_colour_in_range.
    apply list_elem_of_lookup_2 in Hi.
    exact (forallb_elem _ _ _ (spec_scene_range rand_state RAND_MAX srand rand 512 HM Hrand) Hi). }
  pose proof (rendered_image_range kImageWidth kImageHeight spheres
                (replicate (Z.to_nat 12582912) F32.zero) Hs) as R.
  rewrite take_ge in R; [exact R|].
  rewrite length_rendered_image, length_replicate.
  change (kImageWidth * kImageHeight * 3) with 12582912. lia.
Qed.

Lemma original_main_in_range_witness :
  forallb in_unit_range
    (original_main Z MsvcRand.RAND_MAX MsvcRand.srand MsvcRand.rand 0) = true.
Proof.
  apply original_main_in_range.
  - unfold MsvcRand.RAND_MAX. lia.
  - exact MsvcRand_range.
Defined.

(** ** The calls the tracer makes *)

(** The order of the roots that [intersect_sphere] relies on holds at every
    call the resolver makes: the ray of a pixel has direction (0, 0, 1)
    before and after any number of calls, so the coefficient [a] is 1, and
    the roots that [solve_quadratic] returns for it satisfy [t0 <= t1]
    unless one of them is NaN. *)
Theorem traced_roots_ordered (width height i j : Z) (before : list sphere)
    (s : sphere) (t0 t1 : float) :
  roots s (snd (scan before 0 (-1) (pixel_ray_at width height i j))) = Some (t0, t1) ->
  F32.is_nan t0 = false -> F32.is_nan t1 = false ->
  (t0 <=? t1)%f32 = true.
Proof.
  intros Hr H0 H1. unfold roots in Hr.
  destruct (scan_direction before 0 (-1) (pixel_ray_at width height i j))
    as (Hx & Hy & Hz).
  cbn [pixel_ray_at dx dy dz] in Hx, Hy, Hz.
  set (ry := snd (scan before 0 (-1) (pixel_ray_at width height i j))) in *.
  assert (Ha : quad_a (translate s ry) = F32.one).
  { unfold quad_a, translate; cbn [dx dy dz]. rewrite Hx, Hy, Hz. reflexivity. }
  rewrite Ha in Hr.
  exact (roots_ordered F32.one _ _ t0 t1 eq_refl Hr H0 H1).
Qed.

Lemma traced_roots_ordered_witness :
  exists t0 t1,
    roots Scenes.red_cover
      (snd (scan [Scenes.dummy] 0 (-1) (pixel_ray_at 2 2 1 1))) = Some (t0, t1) /\
    (t0 <=? t1)%f32 = true.
Proof.
  eexists _, _. split; [vm_compute; reflexivity|].
  apply (traced_roots_ordered 2 2 1 1 [Scenes.dummy] Scenes.red_cover);
    vm_compute; reflexivity.
Defined.

(** [trace] stays inside its two arrays: for every pixel of an image whose
    offsets fit [unsigned], the three floats it writes are inside the image
    (their offsets do not wrap around), and the read [spheres[idx]] after
    the loop, made when [idx > 0], is inside the array of spheres. *)
Theorem trace_accesses_in_bounds (width height : Z) (spheres : list sphere)
    (i j : Z) :
  0 < width -> 0 < height -> width * height * 3 <= 2 ^ 32 ->
  Z.of_nat (length spheres) <= 2 ^ 32 ->
  0 <= i < width -> 0 <= j < height ->
  let idx := hit_index width height spheres i j in
  let off := pixel_offset width i j in
  (0 < idx -> is_Some (spheres !! Z.to_nat idx)) /\
  0 <= off /\ u32 (off + 1) = off + 1 /\ u32 (off + 2) = off + 2 /\
  off + 2 < width * height * 3.
Proof.
  intros Hw Hh Hfit Hlen Hi Hj idx off. split.
  - apply scan_index_in_bounds. exact Hlen.
  - destruct (pixel_offset_exact width height Hw Hfit i j (conj Hi Hj)) as (E & Hlo & Hhi).
    fold off in E. rewrite !u32_small by lia. lia.
Qed.

Lemma trace_accesses_in_bounds_witness :
  (0 < hit_index 2 2 [Scenes.dummy; Scenes.red_cover] 1 1 ->
   is_Some ([Scenes.dummy; Scenes.red_cover]
              !! Z.to_nat (hit_index 2 2 [Scenes.dummy; Scenes.red_cover] 1 1))) /\
  0 <= pixel_offset 2 1 1 /\
  u32 (pixel_offset 2 1 1 + 1) = pixel_offset 2 1 1 + 1 /\
  u32 (pixel_offset 2 1 1 + 2) = pixel_offset 2 1 1 + 2 /\
  pixel_offset 2 1 1 + 2 < 2 * 2 * 3.
Proof.
  apply (trace_accesses_in_bounds 2 2 [Scenes.dummy; Scenes.red_cover] 1 1);
    cbn; lia.
Defined.

(** * The nearest hit *)

(** ** The order of the floats *)

Lemma finite_leb_iff s m e m' e' :
  SFleb (S754_finite s m e) (S754_finite s m' e') = true <->
  if s then e' < e \/ (e = e' /\ (m' <= m)%positive)
  else e < e' \/ (e = e' /\ (m <= m')%positive).
Proof.
  unfold SFleb, SFcompare.
  change (Pos.compare_cont Eq m m') with (Pos.compare m m').
  destruct s; destruct (Z.compare_spec e e') as [He|He|He];
    destruct (Pos.compare_spec m m') as [Hm|Hm|Hm];
    cbn; split; intros H; try reflexivity; try discriminate; lia.
Qed.

Lemma finite_ltb_iff s m e m' e' :
  SFltb (S754_finite s m e) (S754_finite s m' e') = true <->
  if s then e' < e \/ (e = e' /\ (m' < m)%positive)
  else e < e' \/ (e = e' /\ (m < m')%positive).
Proof.
  unfold SFltb, SFcompare.
  change (Pos.compare_cont Eq m m') with (Pos.compare m m').
  destruct s; destruct (Z.compare_spec e e') as [He|He|He];
    destruct (Pos.compare_spec m m') as [Hm|Hm|Hm];
    cbn; split; intros H; try reflexivity; try discriminate; lia.
Qed.

Lemma SFleb_trans x y z : SFleb x y = true -> SFleb y z = true -> SFleb x z = true.
Proof.
  destruct x as [[]|[]| |[] mx ex], y as [[]|[]| |[] my ey], z as [[]|[]| |[] mz ez];
    intros H1 H2; try reflexivity;
    try (exfalso; vm_compute in H1; discriminate H1);
    try (exfalso; vm_compute in H2; discriminate H2);
    apply finite_leb_iff in H1, H2; apply finite_leb_iff; cbn in *; lia.
Qed.

(** Two numbers are comparable: when [x < y] fails, [y <= x] holds. *)
Lemma SFleb_of_not_ltb x y :
  x <> S754_nan -> y <> S754_nan -> SFltb x y = false -> SFleb y x = true.
Proof.
  destruct x as [[]|[]| |[] mx ex], y as [[]|[]| |[] my ey];
    intros Hx Hy H; try congruence; try reflexivity;
    try (exfalso; vm_compute in H; discriminate H);
    apply finite_leb_iff; cbn;
    match type of H with SFltb (S754_finite ?s _ _) _ = _ =>
      pose proof (proj2 (finite_ltb_iff s mx ex my ey)) as Hlt end;
    rewrite H in Hlt; cbn in Hlt;
    destruct (Z.lt_trichotomy ex ey) as [?|[?|?]];
    destruct (Pos.lt_total mx my) as [?|[?|?]]; try lia;
    exfalso; (assert (Hf : false = true) by (apply Hlt; lia)); discriminate Hf.
Qed.

Lemma positive_not_nan t : (t >? F32.zero)%f32 = true -> t <> S754_nan.
Proof. intros H ->. discriminate H. Qed.

Lemma is_nan_false x : F32.is_nan x = false <-> x <> S754_nan.
Proof. destruct x; cbn; split; intros; congruence. Qed.

(** ** One accepted call *)

Lemma accepted_call s ry t0 t1 :
  roots s ry = Some (t0, t1) ->
  fst (intersect_sphere s ry) = true ->
  (t0 >? maxt ry)%f32 = false /\ (t1 <? F32.zero)%f32 = false /\
  snd (intersect_sphere s ry) = set_maxt ry (if (t0 >? F32.zero)%f32 then t0 else t1).
Proof.
  unfold roots, intersect_sphere. intros ->.
  destruct (t0 >? maxt ry)%f32; [discriminate|].
  destruct (t1 <? F32.zero)%f32; [discriminate|].
  intros _. cbn. auto.
Qed.

Lemma accepted_has_roots s ry :
  fst (intersect_sphere s ry) = true -> exists t0 t1, roots s ry = Some (t0, t1).
Proof.
  unfold roots, intersect_sphere.
  destruct (solve_quadratic _ _ _) as [[t0 t1]|]; [eauto|discriminate].
Qed.

Lemma first_root_call s ry t0 t1 :
  roots s ry = Some (t0, t1) ->
  fst (intersect_sphere s ry) = true ->
  (t0 >? F32.zero)%f32 = true ->
  maxt (snd (intersect_sphere s ry)) = t0 /\
  (maxt ry <? t0)%f32 = false /\
  (F32.is_nan (maxt ry) = false -> (t0 <=? maxt ry)%f32 = true).
Proof.
  intros Hr Hhit Hpos.
  destruct (accepted_call s ry t0 t1 Hr Hhit) as (Hgt & _ & ->).
  rewrite Hpos. cbn [set_maxt maxt]. split; [reflexivity|]. split; [exact Hgt|].
  intros Hn. apply SFleb_of_not_ltb; [apply is_nan_false, Hn| |exact Hgt].
  apply positive_not_nan, Hpos.
Qed.

(** ** The scan over spheres that are all entered from outside *)

Lemma first_root_hits_cons s rest ry :
  first_root_hits (s :: rest) ry = true ->
  first_root_hits rest (snd (intersect_sphere s ry)) = true /\
  (fst (intersect_sphere s ry) = true ->
   exists t0 t1, roots s ry = Some (t0, t1) /\ (t0 >? F32.zero)%f32 = true).
Proof.
  cbn [first_root_hits].
  pose proof (accepted_has_roots s ry) as Hroots.
  destruct (intersect_sphere s ry) as [hit ry']. cbn [fst snd] in *.
  intros H. apply andb_prop in H as [Hs Hrest]. split; [exact Hrest|].
  intros ->. destruct (Hroots eq_refl) as (t0 & t1 & E). rewrite E in Hs.
  eauto.
Qed.

Lemma scan_snd_cons s rest k idx ry :
  snd (scan (s :: rest) k idx ry) =
    snd (scan rest (k + 1)
           (if fst (intersect_sphere s ry) then int_of_u32 k else idx)
           (snd (intersect_sphere s ry))).
Proof. cbn [scan]. destruct (intersect_sphere s ry) as [hit ry']. reflexivity. Qed.

Lemma scan_maxt_shrinks spheres : forall k idx ry,
  F32.is_nan (maxt ry) = false ->
  first_root_hits spheres ry = true ->
  F32.is_nan (maxt (snd (scan spheres k idx ry))) = false /\
  (maxt (snd (scan spheres k idx ry)) <=? maxt ry)%f32 = true.
Proof.
  induction spheres as [|s rest IH]; intros k idx ry Hn Hall.
  - cbn. split; [exact Hn|]. apply SFleb_refl, is_nan_false, Hn.
  - apply first_root_hits_cons in Hall as [Hrest Hs].
    rewrite scan_snd_cons.
    destruct (fst (intersect_sphere s ry)) eqn:Hhit.
    + destruct (Hs eq_refl) as (t0 & t1 & Hr & Hpos).
      destruct (first_root_call s ry t0 t1 Hr Hhit Hpos) as (Em & _ & Hle).
      assert (Hn' : F32.is_nan (maxt (snd (intersect_sphere s ry))) = false).
      { rewrite Em. apply is_nan_false, positive_not_nan, Hpos. }
      destruct (IH (k + 1) (int_of_u32 k) _ Hn' Hrest) as [Hn2 Hle2].
      split; [exact Hn2|].
      eapply SFleb_trans; [exact Hle2|]. rewrite Em. apply Hle, Hn.
    + rewrite (intersect_sphere_miss_unchanged s ry Hhit) in *.
      apply IH; assumption.
Qed.

Lemma scan_last_is_nearest spheres : forall k idx ry h,
  F32.is_nan (maxt ry) = false ->
  first_root_hits spheres ry = true ->
  h ∈ accepted_hits spheres k ry ->
  (maxt (snd (scan spheres k idx ry)) <=? snd h)%f32 = true.
Proof.
  induction spheres as [|s rest IH]; intros k idx ry h Hn Hall Hh.
  - cbn in Hh. apply elem_of_nil in Hh. contradiction.
  - apply first_root_hits_cons in Hall as [Hrest Hs].
    rewrite scan_snd_cons. cbn [accepted_hits] in Hh.
    destruct (intersect_sphere s ry) as [hit ry'] eqn:Ecall. cbn [fst snd] in *.
    destruct hit.
    + destruct (Hs eq_refl) as (t0 & t1 & Hr & Hpos).
      assert (Hhit : fst (intersect_sphere s ry) = true) by (rewrite Ecall; reflexivity).
      destruct (first_root_call s ry t0 t1 Hr Hhit Hpos) as (Em & _ & _).
      rewrite Ecall in Em. cbn [snd] in Em.
      assert (Hn' : F32.is_nan (maxt ry') = false).
      { rewrite Em. apply is_nan_false, positive_not_nan, Hpos. }
      apply elem_of_app in Hh as [Hh|Hh].
      * apply list_elem_of_singleton in Hh. subst h. cbn [snd].
        apply (scan_maxt_shrinks rest (k + 1) (int_of_u32 k) ry' Hn' Hrest).
      * apply (IH (k + 1) (int_of_u32 k) ry' h Hn' Hrest Hh).
    + assert (Hmiss : fst (intersect_sphere s ry) = false) by (rewrite Ecall; reflexivity).
      pose proof (intersect_sphere_miss_unchanged s ry Hmiss) as E.
      rewrite Ecall in E. cbn [snd] in E. subst ry'.
      cbn [app] in Hh. apply (IH (k + 1) idx ry h Hn Hrest Hh).
Qed.

Lemma accepted_hits_entry spheres : forall k ry,
  first_root_hits spheres ry = true ->
  accepted_hits spheres k ry = entry_hits spheres k ry.
Proof.
  induction spheres as [|s rest IH]; intros k ry Hall; [reflexivity|].
  apply first_root_hits_cons in Hall as [Hrest Hs].
  cbn [accepted_hits entry_hits].
  destruct (intersect_sphere s ry) as [hit ry'] eqn:Ecall. cbn [fst snd] in *.
  rewrite (IH (k + 1) ry' Hrest). f_equal.
  destruct hit; [|reflexivity].
  destruct (Hs eq_refl) as (t0 & t1 & Hr & Hpos). rewrite Hr.
  assert (Hhit : fst (intersect_sphere s ry) = true) by (rewrite Ecall; reflexivity).
  destruct (first_root_call s ry t0 t1 Hr Hhit Hpos) as (Em & _ & _).
  rewrite Ecall in Em. cbn [snd] in Em. rewrite Em. reflexivity.
Qed.

(** The sphere loop on any list of spheres and any ray: when every call that
    returns [true] has its first root in front of the origin of the ray
    ([t0 > 0]) and [maxt] starts as a number, every accepted call stores its
    first root, the index recorded is that of the last accepted call, [maxt]
    ends as the distance that call stored, and that distance is at most the
    distance of every accepted call: the recorded sphere is the nearest
    hit. *)
Theorem last_hit_is_nearest (spheres : list sphere) (k idx : Z) (ry : ray) :
  F32.is_nan (maxt ry) = false ->
  first_root_hits spheres ry = true ->
  accepted_hits spheres k ry = entry_hits spheres k ry /\
  match last (accepted_hits spheres k ry) with
  | None => scan spheres k idx ry = (idx, ry)
  | Some (k_last, t_last) =>
      fst (scan spheres k idx ry) = int_of_u32 k_last /\
      maxt (snd (scan spheres k idx ry)) = t_last /\
      forall h, h ∈ accepted_hits spheres k ry -> (t_last <=? snd h)%f32 = true
  end.
Proof.
  intros Hn Hall. split; [apply accepted_hits_entry, Hall|].
  pose proof (scan_result_from_log spheres k idx ry) as E. cbv zeta in E.
  pose proof (fun h => scan_last_is_nearest spheres k idx ry h Hn Hall) as Hnear.
  rewrite !fmap_last in E.
  destruct (last (accepted_hits spheres k ry)) as [[k_last t_last]|].
  - cbn [fmap option_fmap option_map default fst snd] in E.
    assert (Em : maxt (snd (scan spheres k idx ry)) = t_last) by (rewrite E; reflexivity).
    split; [rewrite E; reflexivity|]. split; [exact Em|].
    intros h Hh. rewrite <- Em. apply Hnear, Hh.
  - cbn [fmap option_fmap option_map default] in E. rewrite E, set_maxt_same. reflexivity.
Qed.

Lemma last_hit_is_nearest_witness :
  accepted_hits [Scenes.dummy; Scenes.red_behind; Scenes.green_unit] 0
    (pixel_ray 1024 1024) =
  entry_hits [Scenes.dummy; Scenes.red_behind; Scenes.green_unit] 0
    (pixel_ray 1024 1024) /\
  match last (accepted_hits [Scenes.dummy; Scenes.red_behind; Scenes.green_unit] 0
                (pixel_ray 1024 1024)) with
  | None =>
      scan [Scenes.dummy; Scenes.red_behind; Scenes.green_unit] 0 (-1)
        (pixel_ray 1024 1024) = (-1, pixel_ray 1024 1024)
  | Some (k_last, t_last) =>
      fst (scan [Scenes.dummy; Scenes.red_behind; Scenes.green_unit] 0 (-1)
             (pixel_ray 1024 1024)) = int_of_u32 k_last /\
      maxt (snd (scan [Scenes.dummy; Scenes.red_behind; Scenes.green_unit] 0 (-1)
                   (pixel_ray 1024 1024))) = t_last /\
      forall h,
        h ∈ accepted_hits [Scenes.dummy; Scenes.red_behind; Scenes.green_unit] 0
              (pixel_ray 1024 1024) ->
        (t_last <=? snd h)%f32 = true
  end.
Proof.
  apply (last_hit_is_nearest [Scenes.dummy; Scenes.red_behind; Scenes.green_unit] 0 (-1)
           (pixel_ray 1024 1024)); vm_compute; reflexivity.
Defined.

(** A call of [intersect_sphere] that returns [true] leaves in [maxt] the
    first root [t0] when [t0 > 0] and the second root [t1] otherwise.  In the
    first case [maxt] does not grow: the old value is not smaller than the
    new one, and the new one is at most the old one when the old one is a
    number. *)
Theorem accepted_hit_shrinks_maxt (s : sphere) (ry : ray) (t0 t1 : float) :
  roots s ry = Some (t0, t1) ->
  fst (intersect_sphere s ry) = true ->
  maxt (snd (intersect_sphere s ry)) = (if (t0 >? F32.zero)%f32 then t0 else t1) /\
  ((t0 >? F32.zero)%f32 = true ->
   (maxt ry <? maxt (snd (intersect_sphere s ry)))%f32 = false /\
   (F32.is_nan (maxt ry) = false ->
    (maxt (snd (intersect_sphere s ry)) <=? maxt ry)%f32 = true)).
Proof.
  intros Hr Hhit. split.
  - destruct (accepted_call s ry t0 t1 Hr Hhit) as (_ & _ & ->). reflexivity.
  - intros Hpos.
    destruct (first_root_call s ry t0 t1 Hr Hhit Hpos) as (-> & Hlt & Hle).
    split; assumption.
Qed.

Lemma accepted_hit_shrinks_maxt_witness :
  exists t0 t1,
    roots Scenes.green_unit (pixel_ray 1024 1024) = Some (t0, t1) /\
    (t0 >? F32.zero)%f32 = true /\
    maxt (snd (intersect_sphere Scenes.green_unit (pixel_ray 1024 1024))) = t0 /\
    (maxt (snd (intersect_sphere Scenes.green_unit (pixel_ray 1024 1024)))
       <=? maxt (pixel_ray 1024 1024))%f32 = true.
Proof.
  eexists _, _. split; [vm_compute; reflexivity|].
  split; [vm_compute; reflexivity|].
  edestruct (accepted_hit_shrinks_maxt Scenes.green_unit (pixel_ray 1024 1024))
    as [Hnew Hshrink]; [vm_compute; reflexivity|vm_compute; reflexivity|].
  split; [vm_compute; reflexivity|].
  apply Hshrink; vm_compute; reflexivity.
Defined.

(** ** A ray that starts inside a sphere *)

(** The condition [t0 > 0] of the two theorems above is needed.  [main]
    never builds such a scene (section "The scenes of the generator are seen
    from outside" below), but the functions accept it: in the end-to-end
    scene of the specification (4 x 4 pixels, a sphere of radius 20 around
    the origin) with a unit sphere put in front of the large one, at pixel
    (1, 1), the calls on the spheres 1 and 2 both return [true], the second
    with a larger distance than the first.  The ray starts inside the large
    sphere, so the call on it is accepted whatever [maxt] is and stores the
    exit distance [t1]; the recorded index is 2 and the pixel gets the colour
    of sphere 2. *)
Lemma inside_sphere_hides_nearer_hit :
  exists t1 t2 : float,
    accepted_hits Scenes.covered 0 (pixel_ray_at 4 4 1 1) = [(1, t1); (2, t2)] /\
    (t1 <? t2)%f32 = true /\
    (t2 <=? t1)%f32 = false /\
    hit_index 4 4 Scenes.covered 1 1 = 2 /\
    pixel_color 4 4 Scenes.covered 1 1 = sphere_color Scenes.red_cover.
Proof.
  eexists _, _. split; [vm_compute; reflexivity|].
  repeat split; vm_compute; reflexivity.
Qed.

(** At every pixel of that end-to-end scene (the sphere of radius 20 at
    index 1 behind a sphere that no ray meets) the call on the sphere of
    radius 20 returns [true] and leaves a larger [maxt] than it found:
    [t0 <= 0], and the exit distance [t1] is stored. *)
Lemma inside_sphere_raises_maxt :
  forallb
    (fun p : Z * Z =>
       let ry := snd (scan [Scenes.dummy] 0 (-1) (pixel_ray_at 4 4 (fst p) (snd p))) in
       let '(hit, ry') := intersect_sphere Scenes.red_cover ry in
       hit && (maxt ry <? maxt ry')%f32 && negb (maxt ry' <=? maxt ry)%f32)
    (pixels 4 4) = true.
Proof. vm_compute. reflexivity. Qed.

(** * The scenes of the generator are seen from outside *)

(** ** Numbers of the format are fixed points of the rounding *)

Lemma round_core_canonical m e :
  0 < m < 2 ^ 24 -> -149 <= e -> e = fexp32 (Zdigits2 m + e) ->
  round_core (4 * m) e = (m, e).
Proof.
  intros Hm He Hc. rewrite round_core_stages.
  unfold stage1, shift_code.
  replace (4 * m / 4) with m by (Z.div_mod_to_equations; lia).
  rewrite <- Hc. replace (e - e) with 0 by lia. cbn [Z.ltb Z.compare].
  rewrite rne_exact. apply normalize_small; lia.
Qed.

Lemma valid_canonical s m e :
  valid_binary 24 128 (S754_finite s m e) = true ->
  e = fexp32 (Zdigits2 (Z.pos m) + e) /\ e <= 104.
Proof.
  cbn [valid_binary]. unfold bounded, canonical_mantissa.
  change (fexp 24 128) with fexp32.
  change (Z.pos (digits2_pos m)) with (Zdigits2 (Z.pos m)).
  intros H. apply andb_prop in H as [Hc Hb].
  apply Z.eqb_eq in Hc. apply Z.leb_le in Hb. split; [lia|]. exact Hb.
Qed.

Lemma binary_round_valid_id s m e :
  valid_binary 24 128 (S754_finite s m e) = true ->
  binary_round 24 128 s m e = S754_finite s m e.
Proof.
  intros V. destruct (valid_canonical s m e V) as [Hc Hb].
  apply valid_finite in V as (He & Hm & _).
  rewrite (binary_round_code s m e 0) by lia.
  replace (Z.pos m * 2 ^ 0) with (Z.pos m) by (change (2 ^ 0) with 1; lia).
  replace (e - 0) with e by lia.
  rewrite round_core_canonical by (try exact Hc; lia).
  unfold decode_float. cbn [fst snd].
  destruct (Z.leb_spec e 104); [reflexivity|lia].
Qed.

Lemma cond_Zopp_mul s a b : cond_Zopp s (a * b) = cond_Zopp s a * b.
Proof. destruct s; cbn; lia. Qed.

Lemma normalize_Zval x E :
  fin_valid x -> below_exponent E x ->
  zero_like x (binary_normalize 24 128 (Zval E x) E false).
Proof.
  destruct x as [s|s| |s m e]; cbn [fin_valid below_exponent Zval]; intros V HE;
    try contradiction.
  - right. exists s, false. split; reflexivity.
  - left. rewrite cond_Zopp_mul.
    pose proof (binary_normalize_shift (cond_Zopp s (Z.pos m)) e (e - E) ltac:(lia)) as Hs.
    replace (e - (e - E)) with E in Hs by lia. rewrite Hs.
    destruct s; cbn [cond_Zopp Z.opp binary_normalize];
      symmetry; apply binary_round_valid_id; exact V.
Qed.

(** [SFadd] and [SFsub] of two finite numbers round the exact sum, written
    at any exponent below theirs. *)
Lemma add_finite sx mx ex sy my ey E :
  E <= ex -> E <= ey ->
  SFadd 24 128 (S754_finite sx mx ex) (S754_finite sy my ey) =
    binary_normalize 24 128
      (Zval E (S754_finite sx mx ex) + Zval E (S754_finite sy my ey)) E false.
Proof.
  intros Hx Hy. cbn [SFadd Zval]. set (ez := Z.min ex ey).
  rewrite !shl_align_value by lia.
  rewrite <- (binary_normalize_shift _ ez (ez - E)) by lia.
  replace (ez - (ez - E)) with E by lia. f_equal.
  rewrite <- (pow2_split E ez ex), <- (pow2_split E ez ey) by lia.
  destruct sx, sy; cbn [cond_Zopp]; ring.
Qed.

Lemma sub_finite sx mx ex sy my ey E :
  E <= ex -> E <= ey ->
  SFsub 24 128 (S754_finite sx mx ex) (S754_finite sy my ey) =
    binary_normalize 24 128
      (Zval E (S754_finite sx mx ex) - Zval E (S754_finite sy my ey)) E false.
Proof.
  intros Hx Hy. cbn [SFsub Zval]. set (ez := Z.min ex ey).
  rewrite !shl_align_value by lia.
  rewrite <- (binary_normalize_shift _ ez (ez - E)) by lia.
  replace (ez - (ez - E)) with E by lia. f_equal.
  rewrite <- (pow2_split E ez ex), <- (pow2_split E ez ey) by lia.
  destruct sx, sy; cbn [cond_Zopp]; ring.
Qed.

Lemma zero_like_refl a : zero_like a a.
Proof. left. reflexivity. Qed.

Lemma zero_like_zeros s s' : zero_like (S754_zero s) (S754_zero s').
Proof. right. eauto. Qed.

Lemma SFleb_zero_like a a' b b' :
  zero_like a a' -> zero_like b b' -> SFleb a b = SFleb a' b'.
Proof.
  intros [->|(s1 & s1' & -> & ->)] [->|(s2 & s2' & -> & ->)];
    try reflexivity; try (destruct b' as [?|?| |? ? ?]; reflexivity);
    destruct a' as [?|?| |? ? ?]; reflexivity.
Qed.

Lemma add_normalize x y E :
  fin_valid x -> fin_valid y -> below_exponent E x -> below_exponent E y ->
  zero_like (SFadd 24 128 x y) (binary_normalize 24 128 (Zval E x + Zval E y) E false).
Proof.
  intros Vx Vy Hx Hy.
  destruct x as [sx|sx| |sx mx ex], y as [sy|sy| |sy my ey];
    cbn [fin_valid] in Vx, Vy; try contradiction.
  - destruct sx, sy; apply zero_like_zeros.
  - change (SFadd 24 128 (S754_zero sx) (S754_finite sy my ey)) with (S754_finite sy my ey).
    change (Zval E (S754_zero sx)) with 0. rewrite Z.add_0_l.
    apply normalize_Zval; assumption.
  - change (SFadd 24 128 (S754_finite sx mx ex) (S754_zero sy)) with (S754_finite sx mx ex).
    change (Zval E (S754_zero sy)) with 0. rewrite Z.add_0_r.
    apply normalize_Zval; assumption.
  - left. apply add_finite; assumption.
Qed.

Lemma valid_opp s s' m e :
  valid_binary 24 128 (S754_finite s m e) = true ->
  valid_binary 24 128 (S754_finite s' m e) = true.
Proof. intros H. exact H. Qed.

Lemma sub_normalize x y E :
  fin_valid x -> fin_valid y -> below_exponent E x -> below_exponent E y ->
  zero_like (SFsub 24 128 x y) (binary_normalize 24 128 (Zval E x - Zval E y) E false).
Proof.
  intros Vx Vy Hx Hy.
  destruct x as [sx|sx| |sx mx ex], y as [sy|sy| |sy my ey];
    cbn [fin_valid] in Vx, Vy; try contradiction.
  - destruct sx, sy; apply zero_like_zeros.
  - change (SFsub 24 128 (S754_zero sx) (S754_finite sy my ey))
      with (S754_finite (negb sy) my ey).
    change (Zval E (S754_zero sx)) with 0.
    replace (0 - Zval E (S754_finite sy my ey))
      with (Zval E (S754_finite (negb sy) my ey))
      by (cbn [Zval]; destruct sy; cbn [negb cond_Zopp]; lia).
    apply normalize_Zval; [exact (valid_opp sy (negb sy) my ey Vy)|exact Hy].
  - change (SFsub 24 128 (S754_finite sx mx ex) (S754_zero sy)) with (S754_finite sx mx ex).
    change (Zval E (S754_zero sy)) with 0. rewrite Z.sub_0_r.
    apply normalize_Zval; assumption.
  - left. apply sub_finite; assumption.
Qed.

(** ** The order of the numbers, on their integer values *)

Lemma Zval_pos_finite E m e : E <= e -> 0 < Z.pos m * 2 ^ (e - E).
Proof. intros H. pose proof (pow2_pos (e - E) ltac:(lia)). nia. Qed.

Lemma Zval_le x x' E :
  fin_valid x -> fin_valid x' -> below_exponent E x -> below_exponent E x' ->
  SFleb x x' = true -> Zval E x <= Zval E x'.
Proof.
  destruct x as [s|s| |s m e], x' as [s'|s'| |s' m' e'];
    cbn [fin_valid below_exponent Zval]; intros V V' HE HE' Hle; try contradiction.
  - lia.
  - destruct s'; [discriminate Hle|]. pose proof (Zval_pos_finite E m' e' HE'). cbn. lia.
  - destruct s; [|discriminate Hle]. pose proof (Zval_pos_finite E m e HE). cbn. lia.
  - pose proof (Zval_pos_finite E m e HE). pose proof (Zval_pos_finite E m' e' HE').
    destruct s, s'; cbn [cond_Zopp]; try lia.
    + apply finite_le_neg in Hle.
      pose proof (aligned_le m' e' m e E V' V Hle HE' HE). lia.
    + discriminate Hle.
    + apply (aligned_le m e m' e' E V V' Hle HE HE').
Qed.

Lemma below_expo E x : E <= expo x -> below_exponent E x.
Proof. destruct x; cbn; auto. Qed.

Lemma add_mono_gen x x' y y' :
  fin_valid x -> fin_valid x' -> fin_valid y -> fin_valid y' ->
  SFleb x x' = true -> SFleb y y' = true ->
  SFleb (SFadd 24 128 x y) (SFadd 24 128 x' y') = true.
Proof.
  intros Vx Vx' Vy Vy' Hx Hy.
  set (E := Z.min (Z.min (expo x) (expo x')) (Z.min (expo y) (expo y'))).
  assert (Bx : below_exponent E x) by (apply below_expo; lia).
  assert (Bx' : below_exponent E x') by (apply below_expo; lia).
  assert (By : below_exponent E y) by (apply below_expo; lia).
  assert (By' : below_exponent E y') by (apply below_expo; lia).
  rewrite (SFleb_zero_like _ _ _ _ (add_normalize x y E Vx Vy Bx By)
             (add_normalize x' y' E Vx' Vy' Bx' By')).
  apply binary_normalize_mono.
  pose proof (Zval_le x x' E Vx Vx' Bx Bx' Hx).
  pose proof (Zval_le y y' E Vy Vy' By By' Hy). lia.
Qed.

Lemma sub_mono_gen x x' y y' :
  fin_valid x -> fin_valid x' -> fin_valid y -> fin_valid y' ->
  SFleb x x' = true -> SFleb y' y = true ->
  SFleb (SFsub 24 128 x y) (SFsub 24 128 x' y') = true.
Proof.
  intros Vx Vx' Vy Vy' Hx Hy.
  set (E := Z.min (Z.min (expo x) (expo x')) (Z.min (expo y) (expo y'))).
  assert (Bx : below_exponent E x) by (apply below_expo; lia).
  assert (Bx' : below_exponent E x') by (apply below_expo; lia).
  assert (By : below_exponent E y) by (apply below_expo; lia).
  assert (By' : below_exponent E y') by (apply below_expo; lia).
  rewrite (SFleb_zero_like _ _ _ _ (sub_normalize x y E Vx Vy Bx By)
             (sub_normalize x' y' E Vx' Vy' Bx' By')).
  apply binary_normalize_mono.
  pose proof (Zval_le x x' E Vx Vx' Bx Bx' Hx).
  pose proof (Zval_le y' y E Vy' Vy By' By Hy). lia.
Qed.

Lemma add_valid x y :
  fin_valid x -> fin_valid y -> valid_binary 24 128 (SFadd 24 128 x y) = true.
Proof.
  destruct x as [sx|sx| |sx mx ex], y as [sy|sy| |sy my ey];
    cbn [fin_valid]; intros Vx Vy; try contradiction.
  - destruct sx, sy; reflexivity.
  - exact Vy.
  - exact Vx.
  - apply binary_normalize_valid.
Qed.

Lemma sub_valid x y :
  fin_valid x -> fin_valid y -> valid_binary 24 128 (SFsub 24 128 x y) = true.
Proof.
  destruct x as [sx|sx| |sx mx ex], y as [sy|sy| |sy my ey];
    cbn [fin_valid]; intros Vx Vy; try contradiction.
  - destruct sx, sy; reflexivity.
  - exact Vy.
  - exact Vx.
  - apply binary_normalize_valid.
Qed.

(** ** Intervals of numbers of the format *)

Lemma fvb_fin_valid x : fvb x = true <-> fin_valid x.
Proof. destruct x; cbn; split; intros; try discriminate; try contradiction; auto. Qed.

Lemma fin_valid_valid x : fin_valid x -> valid_binary 24 128 x = true.
Proof. destruct x; cbn; intros; try contradiction; auto. Qed.

Lemma iok_bounds I : iok I = true -> fin_valid (ilo I) /\ fin_valid (ihi I).
Proof.
  unfold iok. intros H. apply andb_prop in H as [Hl Hh].
  split; apply fvb_fin_valid; assumption.
Qed.

Lemma bounded_fin_valid l h x :
  fin_valid l -> fin_valid h ->
  SFleb l x = true -> SFleb x h = true -> valid_binary 24 128 x = true ->
  fin_valid x.
Proof.
  intros Vl Vh Hl Hh V.
  destruct x as [s|s| |s m e]; cbn [fin_valid]; auto.
  - destruct s.
    + destruct l as [?|?| |? ? ?]; cbn [fin_valid] in Vl; try contradiction;
        discriminate Hl.
    + destruct h as [?|?| |? ? ?]; cbn [fin_valid] in Vh; try contradiction;
        discriminate Hh.
  - discriminate Hh.
Qed.

Lemma within_fin_valid x I : iok I = true -> within x I -> fin_valid x.
Proof.
  intros HI (Hl & Hh & V). destruct (iok_bounds I HI) as [Vl Vh].
  exact (bounded_fin_valid _ _ x Vl Vh Hl Hh V).
Qed.

Lemma iadd_sound I J x y :
  iok I = true -> iok J = true -> within x I -> within y J -> within (x + y)%f32 (iadd I J).
Proof.
  intros HI HJ Hx Hy.
  pose proof (within_fin_valid x I HI Hx) as Vx. pose proof (within_fin_valid y J HJ Hy) as Vy.
  destruct (iok_bounds I HI) as [VIl VIh]. destruct (iok_bounds J HJ) as [VJl VJh].
  destruct Hx as (Hxl & Hxh & _), Hy as (Hyl & Hyh & _).
  split; [|split].
  - apply add_mono_gen; assumption.
  - apply add_mono_gen; assumption.
  - apply add_valid; assumption.
Qed.

Lemma isub_sound I J x y :
  iok I = true -> iok J = true -> within x I -> within y J -> within (x - y)%f32 (isub I J).
Proof.
  intros HI HJ Hx Hy.
  pose proof (within_fin_valid x I HI Hx) as Vx. pose proof (within_fin_valid y J HJ Hy) as Vy.
  destruct (iok_bounds I HI) as [VIl VIh]. destruct (iok_bounds J HJ) as [VJl VJh].
  destruct Hx as (Hxl & Hxh & _), Hy as (Hyl & Hyh & _).
  split; [|split].
  - apply sub_mono_gen; assumption.
  - apply sub_mono_gen; assumption.
  - apply sub_valid; assumption.
Qed.

(** ** Products *)

Lemma SFmul_comm x y : SFmul 24 128 x y = SFmul 24 128 y x.
Proof.
  destruct x as [sx|sx| |sx mx ex], y as [sy|sy| |sy my ey]; cbn [SFmul];
    rewrite ?(xorb_comm sx sy); try reflexivity.
  rewrite (Pos.mul_comm mx my), (Z.add_comm ex ey). reflexivity.
Qed.

Lemma decode_opp s me : 0 <= fst me -> SFopp (decode_float s me) = decode_float (negb s) me.
Proof.
  destruct me as [m e]. unfold decode_float. cbn [fst snd]. intros H.
  destruct m; try lia; [reflexivity|]. destruct (e <=? 104); reflexivity.
Qed.

Lemma SFmul_opp_r x y : SFmul 24 128 x (SFopp y) = SFopp (SFmul 24 128 x y).
Proof.
  destruct x as [sx|sx| |sx mx ex], y as [sy|sy| |sy my ey]; cbn [SFmul SFopp];
    try reflexivity; try (destruct sx, sy; reflexivity).
  rewrite !binary_round_aux_code by lia.
  rewrite decode_opp by (apply round_core_nonneg; cbn [loc_code]; lia).
  destruct sx, sy; reflexivity.
Qed.

Lemma SFleb_opp x y : SFleb (SFopp x) (SFopp y) = SFleb y x.
Proof.
  destruct x as [[]|[]| |[] mx ex], y as [[]|[]| |[] my ey]; try reflexivity;
    cbn [SFopp negb]; unfold SFleb, SFcompare;
    rewrite (Z.compare_antisym ex ey);
    change (Pos.compare_cont Eq mx my) with (Pos.compare mx my);
    change (Pos.compare_cont Eq my mx) with (Pos.compare my mx);
    rewrite (Pos.compare_antisym mx my);
    destruct (ex ?= ey), (mx ?= my)%positive; reflexivity.
Qed.

Lemma SFopp_involutive x : SFopp (SFopp x) = x.
Proof. destruct x as [[]|[]| |[] m e]; reflexivity. Qed.

Lemma fin_valid_opp x : fin_valid x -> fin_valid (SFopp x).
Proof. destruct x; cbn; auto. Qed.

Lemma mul_nonnan_gen x y : fin_valid x -> fin_valid y -> SFmul 24 128 x y <> S754_nan.
Proof.
  destruct x as [sx|sx| |sx mx ex], y as [sy|sy| |sy my ey]; cbn [fin_valid SFmul];
    intros Vx Vy; try contradiction; try discriminate.
  intros E.
  pose proof (binary_round_aux_has_sign (xorb sx sy) (Z.pos (mx * my)) (ex + ey) loc_Exact
                ltac:(lia)) as H.
  rewrite E in H. exact H.
Qed.

(** Multiplying both sides by a number that is not negative keeps the order,
    by a number that is not positive reverses it. *)
Lemma mul_mono_nonneg u v k :
  fin_valid u -> fin_valid v -> fin_valid k -> has_sign false k ->
  SFleb u v = true ->
  SFleb (SFmul 24 128 u k) (SFmul 24 128 v k) = true.
Proof.
  intros Vu Vv Vk Hk Hle.
  apply mul_mono; try assumption.
  - apply mul_ready_valid; apply fin_valid_valid; assumption.
  - apply mul_nonnan_gen; assumption.
  - apply mul_nonnan_gen; assumption.
Qed.

Lemma mul_mono_nonpos u v k :
  fin_valid u -> fin_valid v -> fin_valid k -> has_sign true k ->
  SFleb u v = true ->
  SFleb (SFmul 24 128 v k) (SFmul 24 128 u k) = true.
Proof.
  intros Vu Vv Vk Hk Hle.
  assert (Vk' : fin_valid (SFopp k)) by (apply fin_valid_opp, Vk).
  assert (Hk' : has_sign false (SFopp k))
    by (destruct k as [s|s| |s m e]; cbn in *; subst; try contradiction; reflexivity).
  assert (E : k = SFopp (SFopp k)) by (symmetry; apply SFopp_involutive).
  revert Vk' Hk' E. generalize (SFopp k). intros k' Vk' Hk' ->.
  rewrite (SFmul_opp_r v k'), (SFmul_opp_r u k'), SFleb_opp.
  apply mul_mono_nonneg; assumption.
Qed.

Lemma mul_valid_gen x y :
  fin_valid x -> fin_valid y -> valid_binary 24 128 (SFmul 24 128 x y) = true.
Proof. intros Vx Vy. apply mul_valid; apply fin_valid_valid; assumption. Qed.

Lemma iscale_sound k I x :
  fin_valid k -> has_sign false k -> iok I = true -> within x I ->
  within (k * x)%f32 (iscale k I).
Proof.
  intros Vk Hk HI Hx.
  pose proof (within_fin_valid x I HI Hx) as Vx.
  destruct (iok_bounds I HI) as [Vl Vh]. destruct Hx as (Hl & Hh & _).
  unfold iscale, within. cbn [ilo ihi]. unfold F32.mul, F32.leb.
  rewrite !(SFmul_comm k).
  split; [|split].
  - apply mul_mono_nonneg; assumption.
  - apply mul_mono_nonneg; assumption.
  - apply mul_valid_gen; assumption.
Qed.

(** ** Squares *)

Lemma negative_between l h x :
  fin_valid l -> fin_valid x ->
  SFleb l x = true -> SFleb x h = true ->
  has_sign true h -> match h with S754_finite _ _ _ => True | _ => False end ->
  (has_sign true x /\ match x with S754_finite _ _ _ => True | _ => False end) /\
  (has_sign true l /\ match l with S754_finite _ _ _ => True | _ => False end).
Proof.
  intros Vl Vx Hl Hh Hs Hf.
  destruct h as [?|?| |sh mh eh]; try contradiction. cbn in Hs. subst sh.
  destruct x as [sx|sx| |sx mx ex]; cbn [fin_valid] in Vx; try contradiction;
    [discriminate Hh|].
  destruct sx; [|discriminate Hh].
  destruct l as [sl|sl| |sl ml el]; cbn [fin_valid] in Vl; try contradiction;
    [discriminate Hl|].
  destruct sl; [|discriminate Hl].
  cbn. auto.
Qed.

Lemma isquare_neg_sound I x :
  iok I = true -> has_sign true (ihi I) ->
  match ihi I with S754_finite _ _ _ => True | _ => False end ->
  within x I -> within (x * x)%f32 (isquare_neg I).
Proof.
  intros HI Hs Hf Hx.
  pose proof (within_fin_valid x I HI Hx) as Vx.
  destruct (iok_bounds I HI) as [Vl Vh]. destruct Hx as (Hl & Hh & _).
  destruct (negative_between _ _ x Vl Vx Hl Hh Hs Hf) as [[Sx _] [Sl _]].
  unfold isquare_neg, within. cbn [ilo ihi]. unfold F32.mul, F32.leb in *.
  split; [|split].
  - apply (SFleb_trans _ (SFmul 24 128 x (ihi I))).
    + apply mul_mono_nonpos; assumption.
    + rewrite (SFmul_comm x (ihi I)). apply mul_mono_nonpos; assumption.
  - apply (SFleb_trans _ (SFmul 24 128 (ilo I) x)).
    + apply mul_mono_nonpos; assumption.
    + rewrite (SFmul_comm (ilo I) x). apply mul_mono_nonpos; assumption.
  - apply mul_valid_gen; assumption.
Qed.

Lemma square_has_sign x : fin_valid x -> has_sign false (SFmul 24 128 x x).
Proof.
  destruct x as [s|s| |s m e]; cbn [fin_valid]; intros V; try contradiction.
  - destruct s; reflexivity.
  - cbn [SFmul]. replace (xorb s s) with false by (destruct s; reflexivity).
    apply binary_round_aux_has_sign. lia.
Qed.

(** The square of a number from [-h] to [h] lies from 0 to [h * h]. *)
Lemma square_sound h x :
  fin_valid h -> has_sign false h -> fin_valid x ->
  SFleb (SFopp h) x = true -> SFleb x h = true ->
  within (x * x)%f32 (mk_itv F32.zero (h * h)%f32).
Proof.
  intros Vh Sh Vx Hl Hh.
  assert (Hpos : forall y, fin_valid y -> has_sign false y -> SFleb y h = true ->
                           SFleb (SFmul 24 128 y y) (SFmul 24 128 h h) = true).
  { intros y Vy Sy Hy.
    apply (SFleb_trans _ (SFmul 24 128 h y)).
    - apply mul_mono_nonneg; assumption.
    - rewrite (SFmul_comm h y). apply mul_mono_nonneg; assumption. }
  unfold within. cbn [ilo ihi]. unfold F32.mul, F32.leb, F32.valid.
  split; [|split].
  - apply zero_le_nonneg, square_has_sign, Vx.
  - destruct x as [s|s| |s m e]; cbn [fin_valid] in Vx; try contradiction.
    + change (SFmul 24 128 (S754_zero s) (S754_zero s)) with (S754_zero (xorb s s)).
      apply zero_le_nonneg, square_has_sign, Vh.
    + destruct s.
      * change (SFmul 24 128 (S754_finite true m e) (S754_finite true m e))
          with (SFmul 24 128 (S754_finite false m e) (S754_finite false m e)).
        apply (Hpos (S754_finite false m e)); [exact Vx|reflexivity|].
        change (S754_finite false m e) with (SFopp (S754_finite true m e)).
        rewrite <- (SFopp_involutive h), SFleb_opp. exact Hl.
      * apply (Hpos (S754_finite false m e)); [exact Vx|reflexivity|exact Hh].
  - apply mul_valid_gen; assumption.
Qed.

(** ** Square roots *)

Lemma sqrt_digits n : 0 < n -> Z.div2 (Zdigits2 n + 1) <= Zdigits2 (Z.sqrt n).
Proof.
  intros Hn. rewrite Z.div2_div.
  pose proof (Zdigits2_bounds n Hn) as [Hl _].
  pose proof (Zdigits2_pos n Hn) as Hk.
  pose proof (Z.sqrt_spec n ltac:(lia)) as [_ Hs]. cbv zeta in Hs.
  pose proof (Z.sqrt_nonneg n) as Hq.
  set (q := Z.sqrt n) in *. set (k := Zdigits2 n) in *.
  set (j := (k + 1) / 2).
  assert (Hj : 1 <= j /\ 2 * j - 2 <= k - 1) by (unfold j; Z.div_mod_to_equations; lia).
  assert (Hp : 2 ^ (2 * j - 2) <= 2 ^ (k - 1)) by (apply pow2_le; lia).
  assert (Esq : 2 ^ (2 * j - 2) = 2 ^ (j - 1) * 2 ^ (j - 1)).
  { rewrite <- Z.pow_add_r by lia. f_equal. lia. }
  pose proof (pow2_pos (j - 1) ltac:(lia)) as Hpp.
  assert (Hlow : 2 ^ (j - 1) <= q) by nia.
  pose proof (Zdigits2_lower q (j - 1) ltac:(lia) Hlow). lia.
Qed.

Lemma eight_code k :
  0 <= k ->
  decode_float false (round_core (4 * (2 ^ 23 * 2 ^ k)) (-20 - k)) = eight.
Proof.
  intros Hk. rewrite round_core_shift; [reflexivity|reflexivity|exact Hk|].
  vm_compute. discriminate.
Qed.

Lemma sqrt_sound m e :
  valid_binary 24 128 (S754_finite false m e) = true ->
  SFleb (S754_finite false m e) sixty_four = true ->
  within (SFsqrt 24 128 (S754_finite false m e)) (mk_itv F32.zero eight).
Proof.
  intros V Hle.
  pose proof (aligned_le m e 8388608 (-17) (Z.min e (-17)) V eq_refl Hle
                ltac:(lia) ltac:(lia)) as Hval.
  apply valid_finite in V as (He & Hm & _).
  cbn [SFsqrt]. unfold SFsqrt_core_binary.
  change (fexp 24 128) with fexp32.
  set (dd := Zdigits2 (Z.pos m)).
  set (e' := Z.min (fexp32 (Z.div2 (dd + e + 1))) (Z.div2 e)).
  set (s := e - 2 * e').
  pose proof (Zdigits2_bounds (Z.pos m) ltac:(lia)) as [Hdl Hdu]. fold dd in Hdl, Hdu.
  pose proof (Zdigits2_pos (Z.pos m) ltac:(lia)) as Hdpos. fold dd in Hdpos.
  (* the number is at most 2^6, so its digits end below 2^7 *)
  set (E := Z.min e (-17)) in *.
  assert (Hsum : dd + e <= 7).
  { destruct (Z.le_gt_cases (dd + e) 7) as [H|H]; [exact H|exfalso].
    pose proof (pow2_pos (e - E) ltac:(lia)) as Hp1.
    assert (H1 : 2 ^ (dd - 1) * 2 ^ (e - E) <= 8388608 * 2 ^ (-17 - E)) by nia.
    rewrite <- Z.pow_add_r in H1 by lia.
    change 8388608 with (2 ^ 23) in H1. rewrite <- Z.pow_add_r in H1 by lia.
    assert (H2 : 2 ^ (23 + (-17 - E)) < 2 ^ (dd - 1 + (e - E))) by (apply pow2_lt; lia).
    lia. }
  assert (He' : e' <= -20).
  { unfold e'. rewrite Z.div2_div. unfold fexp32.
    assert ((dd + e + 1) / 2 <= 4) by (Z.div_mod_to_equations; lia). lia. }
  assert (He2 : 2 * e' <= e).
  { unfold e'. rewrite !Z.div2_div. Z.div_mod_to_equations. lia. }
  assert (Hs : 0 <= s) by (unfold s; lia).
  set (m' := match s with Z.pos _ => Z.shiftl (Z.pos m) s | 0 => Z.pos m | Z.neg _ => 0 end).
  assert (Em' : m' = Z.pos m * 2 ^ s).
  { unfold m'. destruct s as [|p|p] eqn:Es; [lia| |lia].
    rewrite Z.shiftl_mul_pow2 by lia. reflexivity. }
  pose proof (pow2_pos s Hs) as Hps.
  assert (Hm'pos : 0 < m') by nia.
  pose proof (Z.sqrtrem_spec m' ltac:(lia)) as Hsq.
  pose proof (Z.sqrtrem_sqrt m') as Hfst.
  destruct (Z.sqrtrem m') as [q r]. cbn [fst] in Hfst. destruct Hsq as [Hsq Hr].
  set (l := if r =? 0 then loc_Exact else loc_Inexact (if r <=? q then Lt else Gt)).
  assert (Hq1 : 1 <= q) by nia.
  assert (Hcode : 0 <= loc_code l <= 3 /\ (r = 0 -> loc_code l = 0)).
  { unfold l. destruct (Z.eqb_spec r 0); [cbn; lia|].
    destruct (r <=? q); cbn; lia. }
  rewrite binary_round_aux_code by lia.
  (* the bound *)
  set (P := 2 ^ (3 - e')).
  assert (HP : 0 < P) by (apply pow2_pos; lia).
  assert (Hm'P : m' <= P * P).
  { unfold P. rewrite <- Z.pow_add_r by lia. rewrite Em'. unfold s.
    pose proof (pow2_pos (E - 2 * e') ltac:(lia)) as Hp2.
    assert (H1 : Z.pos m * 2 ^ (e - E) * 2 ^ (E - 2 * e')
                 <= 8388608 * 2 ^ (-17 - E) * 2 ^ (E - 2 * e')) by nia.
    rewrite <- !Z.mul_assoc, !(pow2_split (2 * e') E) in H1 by lia.
    replace (3 - e' + (3 - e')) with (23 + (-17 - 2 * e')) by lia.
    rewrite Z.pow_add_r by lia. exact H1. }
  assert (HK : 4 * q + loc_code l <= 4 * P).
  { destruct (Z.eq_dec q P) as [Eq|Nq].
    - assert (r = 0) by nia. lia.
    - assert (q < P) by nia. lia. }
  assert (Hal : e' <= fexp32 (Zdigits2 ((4 * q + loc_code l) / 4) + e')).
  { replace ((4 * q + loc_code l) / 4) with q by (Z.div_mod_to_equations; lia).
    pose proof (sqrt_digits m' Hm'pos) as Hd. rewrite <- Hfst in Hd.
    rewrite Em', Zdigits2_mul_pow2 in Hd by lia. fold dd in Hd.
    assert (Z.div2 (dd + e + 1) <= Zdigits2 q + e').
    { rewrite Z.div2_div in *. unfold s in Hd. Z.div_mod_to_equations. lia. }
    unfold e', fexp32 in *. lia. }
  unfold within. cbn [ilo ihi]. unfold F32.leb, F32.valid.
  split; [|split].
  - apply zero_le_nonneg, decode_has_sign, round_core_nonneg. lia.
  - rewrite <- (eight_code (-20 - e')) by lia.
    replace (-20 - (-20 - e')) with e' by lia.
    replace (2 ^ 23 * 2 ^ (-20 - e')) with P
      by (unfold P; rewrite <- Z.pow_add_r by lia; f_equal; lia).
    apply round_core_mono; lia.
  - apply round_core_valid; [lia|exact Hal].
Qed.

(** ** More on intervals *)

Lemma ineg_sound I x : within x I -> within (- x)%f32 (ineg I).
Proof.
  intros (Hl & Hh & V). unfold within, ineg. cbn [ilo ihi].
  unfold F32.neg, F32.leb, F32.valid in *. rewrite !SFleb_opp.
  split; [exact Hh|]. split; [exact Hl|].
  destruct x; exact V.
Qed.

Lemma within_widen I J x :
  SFleb (ilo J) (ilo I) = true -> SFleb (ihi I) (ihi J) = true -> within x I -> within x J.
Proof.
  intros Hl Hh (Hxl & Hxh & V). split; [|split; [|exact V]].
  - exact (SFleb_trans _ _ _ Hl Hxl).
  - exact (SFleb_trans _ _ _ Hxh Hh).
Qed.

Lemma mul_zero_r x : fin_valid x -> exists s, (x * F32.zero)%f32 = S754_zero s.
Proof.
  destruct x as [s|s| |s m e]; cbn [fin_valid]; intros V; try contradiction; eexists;
    reflexivity.
Qed.

Lemma add_zero_finite s s' m e :
  (S754_zero s + S754_finite s' m e)%f32 = S754_finite s' m e.
Proof. reflexivity. Qed.

Lemma neg_fin_spec x :
  neg_fin x = true ->
  has_sign true x /\ match x with S754_finite _ _ _ => True | _ => False end.
Proof. destruct x as [?|?| |[] ? ?]; cbn; intros H; try discriminate; auto. Qed.

Lemma SFleb_total x y :
  x <> S754_nan -> y <> S754_nan -> SFleb x y = true \/ SFleb y x = true.
Proof.
  intros Hx Hy. destruct (SFltb y x) eqn:E.
  - right. unfold SFltb in E. unfold SFleb.
    destruct (SFcompare y x) as [[]|]; try discriminate; reflexivity.
  - left. apply SFleb_of_not_ltb; assumption.
Qed.

Lemma valid_not_nan x l : SFleb l x = true -> x <> S754_nan.
Proof. intros H ->. destruct l; discriminate H. Qed.

(** ** A range cut into pieces *)

Lemma pieces_cover bs : forall a x,
  Forall (fun b => b <> S754_nan) bs ->
  (a <=? x)%f32 = true -> (x <=? final a bs)%f32 = true -> F32.valid x = true ->
  bs <> [] ->
  exists I, I ∈ pieces_from a bs /\ within x I.
Proof.
  induction bs as [|b rest IH]; intros a x Hbs Ha Hlast V Hne; [congruence|].
  inversion Hbs as [|? ? Hb Hrest]; subst.
  destruct (SFleb_total x b (valid_not_nan x a Ha) Hb) as [Hxb|Hbx].
  - exists (mk_itv a b). split; [apply list_elem_of_here|].
    split; [exact Ha|]. split; [exact Hxb|exact V].
  - destruct rest as [|b' rest'].
    + cbn [final] in Hlast.
      exists (mk_itv a b). split; [apply list_elem_of_here|].
      split; [exact Ha|]. split; [exact Hlast|exact V].
    + destruct (IH b x Hrest Hbx) as (I & HI & HxI).
      * exact Hlast.
      * exact V.
      * discriminate.
      * exists I. split; [apply list_elem_of_further; exact HI|exact HxI].
Qed.

Lemma between_within lo hi x :
  between lo hi x = true -> F32.valid x = true -> within x (mk_itv lo hi).
Proof.
  unfold between. intros H V. apply andb_prop in H as [Hl Hh].
  split; [exact Hl|]. split; [exact Hh|exact V].
Qed.

Lemma generated_sphere_fields s :
  generated_sphere s ->
  within (cx s) I10 /\ within (cy s) I10 /\ within (cz s) Icz /\
  within (radius s) (mk_itv (F32.tenth * F32.one_and_half)%f32 radius_max).
Proof.
  intros (H & Vx & Vy & Vz & Vr). unfold sphere_in_range in H.
  apply andb_prop in H as [H _]. apply andb_prop in H as [H _].
  apply andb_prop in H as [H _]. apply andb_prop in H as [H _].
  apply andb_prop in H as [H Hr]. apply andb_prop in H as [H Hz].
  apply andb_prop in H as [Hx Hy].
  repeat split; try assumption;
    first [ apply (between_within _ _ _ Hx Vx)
          | apply (between_within _ _ _ Hy Vy)
          | apply (between_within _ _ _ Hz Vz)
          | apply (between_within _ _ _ Hr Vr) ].
Qed.

Lemma F32_mul_comm x y : (x * y)%f32 = (y * x)%f32.
Proof. apply SFmul_comm. Qed.

Lemma piece_ok_all I : I ∈ depth_pieces -> piece_ok I = true.
Proof.
  intros HI.
  assert (H : forallb piece_ok depth_pieces = true) by (vm_compute; reflexivity).
  exact (forallb_elem piece_ok depth_pieces I H HI).
Qed.

Lemma depth_piece W :
  within W (isub (mk_itv NEAR NEAR) Icz) ->
  exists I, I ∈ depth_pieces /\ within W I.
Proof.
  intros (Hl & Hh & V).
  apply (pieces_cover depth_breaks (F32.of_Z (-25)) W).
  - apply Forall_forall. intros b Hb E. subst b.
    assert (Hn : forallb (fun b => negb (F32.is_nan b)) depth_breaks = true)
      by (vm_compute; reflexivity).
    pose proof (forallb_elem _ _ _ Hn Hb) as H. discriminate H.
  - exact Hl.
  - exact Hh.
  - exact V.
  - discriminate.
Qed.

(** The first root of a sphere of the generator on a ray of the camera is
    positive, whenever the solver returns roots: the sphere lies in front of
    the camera plane. *)
Lemma first_root_positive s ry t0 t1 :
  generated_sphere s -> camera_ray ry ->
  roots s ry = Some (t0, t1) -> (t0 >? F32.zero)%f32 = true.
Proof.
  intros Hs (Hox & Hoy & Eoz & Edx & Edy & Edz).
  destruct (generated_sphere_fields s Hs) as (Hcx & Hcy & Hcz & Hrad).
  unfold roots, translate, quad_a, quad_b, quad_c. cbn [ox oy oz dx dy dz].
  rewrite Eoz, Edx, Edy, Edz.
  set (X := (ox ry - cx s)%f32). set (Y := (oy ry - cy s)%f32).
  set (W := (NEAR - cz s)%f32).
  change (F32.zero * F32.zero + F32.zero * F32.zero + F32.one * F32.one)%f32 with F32.one.
  (* the translated origin *)
  assert (HX : within X (isub I10 I10)) by (apply isub_sound; [reflexivity..|exact Hox|exact Hcx]).
  assert (HY : within Y (isub I10 I10)) by (apply isub_sound; [reflexivity..|exact Hoy|exact Hcy]).
  assert (HW : within W (isub (mk_itv NEAR NEAR) Icz)).
  { apply isub_sound; [reflexivity..| |exact Hcz]. repeat split; reflexivity. }
  assert (VX : fin_valid X) by (apply (within_fin_valid X (isub I10 I10) eq_refl HX)).
  assert (VY : fin_valid Y) by (apply (within_fin_valid Y (isub I10 I10) eq_refl HY)).
  destruct (depth_piece W HW) as (IW & HIW & HWI).
  pose proof (piece_ok_all IW HIW) as Hok. unfold piece_ok in Hok. cbv zeta in Hok.
  repeat match type of Hok with (_ && _) = true =>
    let H := fresh "Hok" in apply andb_prop in Hok as [Hok H] end.
  (* b *)
  destruct (mul_zero_r X VX) as (sX & EX). destruct (mul_zero_r Y VY) as (sY & EY).
  rewrite EX, EY.
  assert (HV : within (F32.one * W)%f32 (iscale F32.one IW))
    by (apply iscale_sound; [reflexivity|reflexivity|assumption|exact HWI]).
  set (IV := iscale F32.one IW) in *.
  assert (EV : (S754_zero sX + S754_zero sY + W * F32.one)%f32 = (F32.one * W)%f32).
  { rewrite (F32_mul_comm W F32.one).
    pose proof (within_fin_valid _ IV ltac:(assumption) HV) as VV.
    destruct HV as (_ & HVh & _).
    destruct (neg_fin_spec (ihi IV) ltac:(assumption)) as [Sh Fh].
    destruct (F32.one * W)%f32 as [?|?| |sv mv ev]; cbn [fin_valid] in VV;
      try contradiction.
    - exfalso. destruct (ihi IV) as [?|?| |[] ? ?]; try contradiction; discriminate.
    - destruct sX, sY; reflexivity. }
  rewrite EV.
  set (V := (F32.one * W)%f32) in *.
  assert (Hb : within (F32.of_Z 2 * V)%f32 (iscale two IV))
    by (apply iscale_sound; [reflexivity|reflexivity|assumption|exact HV]).
  set (b := (F32.of_Z 2 * V)%f32) in *. set (Ib := iscale two IV) in *.
  (* c *)
  assert (HXX : within (X * X)%f32 I400).
  { destruct HX as (HXl & HXh & _).
    apply (square_sound twenty X); [reflexivity|reflexivity|exact VX|exact HXl|exact HXh]. }
  assert (HYY : within (Y * Y)%f32 I400).
  { destruct HY as (HYl & HYh & _).
    apply (square_sound twenty Y); [reflexivity|reflexivity|exact VY|exact HYl|exact HYh]. }
  assert (HS : within (X * X + Y * Y)%f32 IS)
    by (apply iadd_sound; [reflexivity..|exact HXX|exact HYY]).
  assert (HZ : within (W * W)%f32 (isquare_neg IW))
    by (apply isquare_neg_sound;
        [assumption|apply neg_fin_spec; assumption|apply neg_fin_spec; assumption|exact HWI]).
  assert (HT : within (X * X + Y * Y + W * W)%f32 (iadd IS (isquare_neg IW)))
    by (apply iadd_sound; [reflexivity|assumption|exact HS|exact HZ]).
  assert (HR : within (radius s * radius s)%f32 IRR).
  { destruct Hrad as (Hrl & Hrh & Vr). cbn [ilo ihi] in Hrl, Hrh.
    apply (square_sound radius_max (radius s)); [reflexivity|reflexivity| | |exact Hrh].
    - apply (bounded_fin_valid _ _ _ (eq_refl : fin_valid (F32.tenth * F32.one_and_half)%f32)
               (eq_refl : fin_valid radius_max) Hrl Hrh Vr).
    - apply (SFleb_trans _ (F32.tenth * F32.one_and_half)%f32); [reflexivity|exact Hrl]. }
  assert (Hc : within (X * X + Y * Y + W * W - radius s * radius s)%f32
                 (isub (iadd IS (isquare_neg IW)) IRR))
    by (apply isub_sound; [assumption|reflexivity|exact HT|exact HR]).
  set (c := (X * X + Y * Y + W * W - radius s * radius s)%f32) in *.
  set (Ic := isub (iadd IS (isquare_neg IW)) IRR) in *.
  (* the solver *)
  unfold solve_quadratic.
  change (F32.of_Z 4 * F32.one)%f32 with four.
  change (F32.of_Z 1 / (F32.of_Z 2 * F32.one))%f32 with F32.half.
  assert (HC : within (four * c)%f32 (iscale four Ic))
    by (apply iscale_sound; [reflexivity|reflexivity|assumption|exact Hc]).
  assert (HB : within (b * b)%f32 (isquare_neg Ib))
    by (apply isquare_neg_sound;
        [assumption|apply neg_fin_spec; assumption|apply neg_fin_spec; assumption|exact Hb]).
  assert (Hd : within (b * b - four * c)%f32 (piece_d IW))
    by (apply isub_sound; [assumption|assumption|exact HB|exact HC]).
  set (d := (b * b - four * c)%f32) in *.
  destruct (d <? F32.zero)%f32 eqn:Ed; [discriminate|].
  intros E. injection E as E0 _. subst t0.
  (* the square root *)
  assert (Hsq : within (F32.sqrt d) Isqrt).
  { destruct Hd as (Hdl & Hdh & Vd).
    assert (Hd64 : SFleb d sixty_four = true) by (eapply SFleb_trans; [exact Hdh|assumption]).
    destruct d as [sd|[]| |sd md ed].
    - repeat split; reflexivity.
    - discriminate Ed.
    - discriminate Hd64.
    - discriminate Hd64.
    - destruct sd; [discriminate Ed|]. apply sqrt_sound; assumption. }
  assert (Hnb : within (- b)%f32 (ineg Ib)) by (apply ineg_sound, Hb).
  assert (Hu : within (- b - F32.sqrt d)%f32 (isub (ineg Ib) Isqrt))
    by (apply isub_sound; [assumption|reflexivity|exact Hnb|exact Hsq]).
  assert (Ht : within (F32.half * (- b - F32.sqrt d))%f32 (piece_t0 IW))
    by (apply iscale_sound; [reflexivity|reflexivity|assumption|exact Hu]).
  rewrite (F32_mul_comm _ F32.half).
  destruct Ht as (Htl & _ & _).
  unfold F32.gtb.
  match goal with H : (F32.zero <? ilo (piece_t0 IW))%f32 = true |- _ => rename H into Hpos end.
  destruct (ilo (piece_t0 IW)) as [?|[]| |[] ml el];
    try (exfalso; cbv in Hpos; discriminate Hpos).
  - revert Htl. generalize (F32.half * (- b - F32.sqrt d))%f32.
    intros [?|[]| |? ? ?] Htl; try discriminate Htl; reflexivity.
  - exact (above_positive ml el _ Htl).
Qed.

(** ** The scan over generated spheres *)

Lemma camera_ray_kept s ry : camera_ray ry -> camera_ray (snd (intersect_sphere s ry)).
Proof.
  intros H. rewrite intersect_sphere_result.
  destruct (fst (intersect_sphere s ry)); [|exact H].
  destruct ry; exact H.
Qed.

Lemma generated_scene_first_roots spheres : forall ry,
  Forall generated_sphere spheres -> camera_ray ry ->
  first_root_hits spheres ry = true.
Proof.
  induction spheres as [|s rest IH]; intros ry Hall Hcam; [reflexivity|].
  inversion Hall as [|? ? Hs Hrest]; subst.
  cbn [first_root_hits].
  pose proof (camera_ray_kept s ry Hcam) as Hcam'.
  pose proof (accepted_has_roots s ry) as Hroots.
  destruct (intersect_sphere s ry) as [hit ry']. cbn [fst snd] in *.
  rewrite (IH ry' Hrest Hcam'), andb_true_r.
  destruct hit; [|reflexivity].
  destruct (Hroots eq_refl) as (t0 & t1 & E). rewrite E.
  exact (first_root_positive s ry t0 t1 Hs Hcam E).
Qed.

(** ** The rays of the image *)

Lemma withinb_within x I : withinb x I = true -> within x I.
Proof.
  unfold withinb. intros H. apply andb_prop in H as [H V].
  apply andb_prop in H as [Hl Hh]. split; [exact Hl|]. split; [exact Hh|exact V].
Qed.

Lemma pixel_ray_camera i j :
  0 <= i < kImageWidth -> 0 <= j < kImageHeight -> camera_ray (pixel_ray i j).
Proof.
  intros Hi Hj.
  assert (Hx : forallb (fun i => withinb (ox (pixel_ray i 0)) I10) (seqZ 0 kImageWidth) = true)
    by (vm_compute; reflexivity).
  assert (Hy : forallb (fun j => withinb (oy (pixel_ray 0 j)) I10) (seqZ 0 kImageHeight) = true)
    by (vm_compute; reflexivity).
  assert (Ei : i ∈ seqZ 0 kImageWidth) by (apply elem_of_seqZ; lia).
  assert (Ej : j ∈ seqZ 0 kImageHeight) by (apply elem_of_seqZ; lia).
  pose proof (forallb_elem _ _ _ Hx Ei) as Hxi. pose proof (forallb_elem _ _ _ Hy Ej) as Hyj.
  cbv beta in Hxi, Hyj.
  repeat split; try reflexivity;
    first [ apply (withinb_within _ _ Hxi) | apply (withinb_within _ _ Hyj) ].
Qed.

(** ** The spheres of the generator are numbers of the format *)






(** ** The nearest hit in the scenes of the generator *)



Lemma nearest_entry_from_outside (spheres : list sphere) (i j : Z) :
  Forall generated_sphere spheres ->
  0 <= i < kImageWidth -> 0 <= j < kImageHeight ->
  let ry := pixel_ray i j in
  let hits := accepted_hits spheres 0 ry in
  first_root_hits spheres ry = true /\
  hits = entry_hits spheres 0 ry /\
  match last hits with
  | None => hit_index kImageWidth kImageHeight spheres i j = -1
  | Some (k_last, t_last) =>
      hit_index kImageWidth kImageHeight spheres i j = int_of_u32 k_last /\
      maxt (snd (scan spheres 0 (-1) ry)) = t_last /\
      forall h, h ∈ hits -> (t_last <=? snd h)%f32 = true
  end.
Proof.
  intros Hall Hi Hj ry hits.
  pose proof (generated_scene_first_roots spheres ry Hall (pixel_ray_camera i j Hi Hj))
    as Hfirst.
  split; [exact Hfirst|]. split; [apply accepted_hits_entry, Hfirst|].
  assert (Hn : F32.is_nan (maxt ry) = false) by reflexivity.
  pose proof (scan_result_from_log spheres 0 (-1) ry) as E. cbv zeta in E.
  pose proof (fun h => scan_last_is_nearest spheres 0 (-1) ry h Hn Hfirst) as Hnear.
  unfold hit_index. change (pixel_ray_at kImageWidth kImageHeight i j) with ry.
  rewrite !fmap_last in E. fold hits in E, Hnear.
  destruct (last hits) as [[k_last t_last]|].
  - cbn [fmap option_fmap option_map default fst snd] in E.
    assert (Em : maxt (snd (scan spheres 0 (-1) ry)) = t_last) by (rewrite E; reflexivity).
    split; [rewrite E; reflexivity|]. split; [exact Em|].
    intros h Hh. rewrite <- Em. apply Hnear, Hh.
  - rewrite E. reflexivity.
Qed.


(** In a scene whose spheres have their fields in the ranges of the
    generator, every call of the sphere loop that returns [true] stores its
    first root, at every pixel of the 2048 x 2048 image: no ray starts inside
    a sphere.  So the index the resolver records is that of the nearest hit:
    the distance of the last accepted call, which is what [maxt] ends as, is
    at most the distance of every accepted call. *)
Theorem generated_scene_nearest_hit (spheres : list sphere) (i j : Z) :
  Forall generated_sphere spheres ->
  0 <= i < kImageWidth -> 0 <= j < kImageHeight ->
  let ry := pixel_ray i j in
  let hits := accepted_hits spheres 0 ry in
  first_root_hits spheres ry = true /\
  hits = entry_hits spheres 0 ry /\
  match last hits with
  | None => hit_index kImageWidth kImageHeight spheres i j = -1
  | Some (k_last, t_last) =>
      hit_index kImageWidth kImageHeight spheres i j = int_of_u32 k_last /\
      maxt (snd (scan spheres 0 (-1) ry)) = t_last /\
      forall h, h ∈ hits -> (t_last <=? snd h)%f32 = true
  end.
Proof.
  intros Hall Hi Hj. apply nearest_entry_from_outside; assumption.
Qed.

Lemma generated_scene_nearest_hit_witness :
  let ry := pixel_ray 1024 1024 in
  let hits := accepted_hits [Scenes.red_behind; Scenes.green_unit] 0 ry in
  first_root_hits [Scenes.red_behind; Scenes.green_unit] ry = true /\
  hits = entry_hits [Scenes.red_behind; Scenes.green_unit] 0 ry /\
  match last hits with
  | None =>
      hit_index kImageWidth kImageHeight [Scenes.red_behind; Scenes.green_unit]
        1024 1024 = -1
  | Some (k_last, t_last) =>
      hit_index kImageWidth kImageHeight [Scenes.red_behind; Scenes.green_unit]
        1024 1024 = int_of_u32 k_last /\
      maxt (snd (scan [Scenes.red_behind; Scenes.green_unit] 0 (-1) ry)) = t_last /\
      forall h, h ∈ hits -> (t_last <=? snd h)%f32 = true
  end.
Proof.
  assert (Hall : Forall generated_sphere [Scenes.red_behind; Scenes.green_unit])
    by (repeat constructor; vm_compute; reflexivity).
  assert (Hi : 0 <= 1024 < kImageWidth) by (unfold kImageWidth; lia).
  assert (Hj : 0 <= 1024 < kImageHeight) by (unfold kImageHeight; lia).
  exact (generated_scene_nearest_hit [Scenes.red_behind; Scenes.green_unit] 1024 1024
           Hall Hi Hj).
Defined.

(** * The scans of the program *)




